(** * whatsapp-chatbot-builder: relational schema, storage and controllers

    The development embeds
    - the drizzle schema of the automation tables (shared/schema): rows,
      primary keys, unique indexes, foreign keys and their [onDelete]
      actions, with the write statements a PostgreSQL store executes
      under those declarations;
    - the status machine of the execution engine, as the specification
      words it (the engine itself is not among the sources);
    - the channel controller;
    - the contact controller;
    - the permission tables.   *)

From stdpp Require Import base option list strings gmap pretty.

Local Open Scope string_scope.

(** ** Results of statements *)

Inductive DbError : Type :=
| UniqueViolation (constraint : string)
| ForeignKeyViolation (constraint : string)
| NotNullViolation (column : string)
| InvalidTextRepresentation (type : string).

Inductive Result (A : Type) : Type :=
| Ok (a : A)
| Err (e : DbError).
Arguments Ok {A} a.
Arguments Err {A} e.

#[export] Instance Result_ret : MRet Result := fun A a => Ok a.
#[export] Instance Result_bind : MBind Result := fun A B k r =>
  match r with
  | Ok a => k a
  | Err e => Err e
  end.

Definition require (P : Prop) `{Decision P} (e : DbError) : Result unit :=
  if decide P then Ok tt else Err e.

(** ** Rows

    One record per table, with the column names of the schema.  A column
    declared [notNull()] has its plain type, a nullable column an [option].
    Columns that no constraint mentions and no modelled operation reads
    (timestamps, free-form [jsonb] payloads, descriptive texts) are left
    out. *)

Module Channel.
Record t : Type := mk {
  id : string;
  name : string;
  phoneNumberId : string;
  accessToken : string;
  isActive : option bool;          (* boolean("is_active").default(true) *)
  healthStatus : option string     (* text("health_status").default("unknown") *)
}.
End Channel.

Module Contact.
Record t : Type := mk {
  id : string;
  channelId : option string;       (* references channels.id *)
  name : string;
  phone : string;
  email : option string;
  status : option string
}.
End Contact.

Module Conversation.
Record t : Type := mk {
  id : string;
  channelId : option string;       (* references channels.id *)
  contactId : option string        (* references contacts.id *)
}.
End Conversation.

Module Automation.
Record t : Type := mk {
  id : string;
  channelId : option string;       (* references channels.id *)
  name : string;
  trigger : string;                (* message_received, keyword, schedule, api_webhook *)
  status : option string           (* active, inactive, paused *)
}.
End Automation.

Module AutomationNode.
Record t : Type := mk {
  id : string;
  automationId : string;           (* references automations.id, cascade *)
  nodeId : string;                 (* unique() *)
  type : string;                   (* trigger, action, condition, delay *)
  subtype : option string
}.
End AutomationNode.

Module AutomationEdge.
Record t : Type := mk {
  id : string;
  automationId : string;           (* references automations.id, cascade *)
  sourceNodeId : string;           (* references automationNodes.nodeId, cascade *)
  targetNodeId : string;           (* references automationNodes.nodeId, cascade *)
  animated : option bool
}.
End AutomationEdge.

Module AutomationExecution.
Record t : Type := mk {
  id : string;
  automationId : string;           (* references automations.id, cascade *)
  contactId : option string;       (* references contacts.id *)
  conversationId : option string;  (* references conversations.id *)
  status : string;                 (* running, completed, failed *)
  currentNodeId : option string;
  executionPath : list string;     (* jsonb("execution_path").default([]) *)
  result : option string;
  error : option string
}.
End AutomationExecution.

Module AutomationExecutionLog.
Record t : Type := mk {
  id : string;
  executionId : string;            (* references automationExecutions.id, cascade *)
  nodeId : string;
  nodeType : string;
  status : string;                 (* started, completed, failed *)
  error : option string
}.
End AutomationExecutionLog.

(** ** The store: one list of rows per table, in insertion order *)

Record Store : Type := mkStore {
  channels : list Channel.t;
  contacts : list Contact.t;
  conversations : list Conversation.t;
  automations : list Automation.t;
  automationNodes : list AutomationNode.t;
  automationEdges : list AutomationEdge.t;
  automationExecutions : list AutomationExecution.t;
  automationExecutionLogs : list AutomationExecutionLog.t
}.

Definition emptyStore : Store := mkStore [] [] [] [] [] [] [] [].

Definition set_channels (v : list Channel.t) (s : Store) : Store :=
  mkStore v (contacts s) (conversations s) (automations s) (automationNodes s)
    (automationEdges s) (automationExecutions s) (automationExecutionLogs s).

Definition set_contacts (v : list Contact.t) (s : Store) : Store :=
  mkStore (channels s) v (conversations s) (automations s) (automationNodes s)
    (automationEdges s) (automationExecutions s) (automationExecutionLogs s).

Definition set_conversations (v : list Conversation.t) (s : Store) : Store :=
  mkStore (channels s) (contacts s) v (automations s) (automationNodes s)
    (automationEdges s) (automationExecutions s) (automationExecutionLogs s).

Definition set_automations (v : list Automation.t) (s : Store) : Store :=
  mkStore (channels s) (contacts s) (conversations s) v (automationNodes s)
    (automationEdges s) (automationExecutions s) (automationExecutionLogs s).

Definition set_automationNodes (v : list AutomationNode.t) (s : Store) : Store :=
  mkStore (channels s) (contacts s) (conversations s) (automations s) v
    (automationEdges s) (automationExecutions s) (automationExecutionLogs s).

Definition set_automationEdges (v : list AutomationEdge.t) (s : Store) : Store :=
  mkStore (channels s) (contacts s) (conversations s) (automations s)
    (automationNodes s) v (automationExecutions s) (automationExecutionLogs s).

Definition set_automationExecutions (v : list AutomationExecution.t) (s : Store) : Store :=
  mkStore (channels s) (contacts s) (conversations s) (automations s)
    (automationNodes s) (automationEdges s) v (automationExecutionLogs s).

Definition set_automationExecutionLogs (v : list AutomationExecutionLog.t) (s : Store) : Store :=
  mkStore (channels s) (contacts s) (conversations s) (automations s)
    (automationNodes s) (automationEdges s) (automationExecutions s) v.

(** ** Foreign keys and their [onDelete] actions

    [onDelete: "cascade"] deletes the referencing rows with the referenced
    one; a reference declared without [onDelete] keeps PostgreSQL's default
    (no action): the delete is refused while a referencing row exists. *)

Inductive OnDelete : Type := NoAction | Cascade.

Definition automationNodes_automationId_onDelete : OnDelete := Cascade.
Definition automationEdges_automationId_onDelete : OnDelete := Cascade.
Definition automationEdges_sourceNodeId_onDelete : OnDelete := Cascade.
Definition automationEdges_targetNodeId_onDelete : OnDelete := Cascade.
Definition automationExecutions_automationId_onDelete : OnDelete := Cascade.
Definition automationExecutionLogs_executionId_onDelete : OnDelete := Cascade.

(** What a foreign key does to the referencing table when the rows it
    [refers] to are deleted. *)
Definition referentialAction {R : Type} (act : OnDelete) (fk : string)
    (refers : R → Prop) `{∀ r, Decision (refers r)} (rows : list R)
    : Result (list R) :=
  match act with
  | Cascade => Ok (filter (λ r, ¬ refers r) rows)
  | NoAction =>
      if decide (Exists refers rows) then Err (ForeignKeyViolation fk)
      else Ok rows
  end.

(** A nullable reference is satisfied by NULL. *)
Definition refOk (k : option string) (keys : list string) : Prop :=
  match k with
  | None => True
  | Some v => v ∈ keys
  end.

#[export] Instance refOk_dec k keys : Decision (refOk k keys).
Proof. destruct k; simpl; apply _. Defined.

(** ** Insert values

    [InsertChannel], [InsertContact] and [InsertAutomationExecution] are the
    types inferred from [insertChannelSchema], [insertContactSchema] and
    [insertAutomationExecutionSchema]: the row without its generated [id];
    a nullable column with a default may be omitted ([None], the default
    applies), be null ([Some None]) or carry a value.  The other tables take
    the row as stored. *)

Record InsertChannel : Type := mkInsertChannel {
  ic_name : string;
  ic_phoneNumberId : string;
  ic_accessToken : string;
  ic_isActive : option (option bool);
  ic_healthStatus : option (option string)
}.

Record InsertContact : Type := mkInsertContact {
  ict_channelId : option string;
  ict_name : string;
  ict_phone : string;
  ict_email : option string;
  ict_status : option (option string)
}.

Record InsertAutomationExecution : Type := mkInsertAutomationExecution {
  iae_automationId : string;
  iae_contactId : option string;
  iae_conversationId : option string;
  iae_status : string;
  iae_currentNodeId : option string;
  iae_executionPath : option (list string);
  iae_result : option string;
  iae_error : option string
}.

Definition channelRow (newId : string) (v : InsertChannel) : Channel.t :=
  Channel.mk newId (ic_name v) (ic_phoneNumberId v) (ic_accessToken v)
    (default (Some true) (ic_isActive v))
    (default (Some "unknown") (ic_healthStatus v)).

Definition contactRow (newId : string) (v : InsertContact) : Contact.t :=
  Contact.mk newId (ict_channelId v) (ict_name v) (ict_phone v) (ict_email v)
    (default (Some "active") (ict_status v)).

Definition executionRow (newId : string) (v : InsertAutomationExecution)
    : AutomationExecution.t :=
  AutomationExecution.mk newId (iae_automationId v) (iae_contactId v)
    (iae_conversationId v) (iae_status v) (iae_currentNodeId v)
    (default [] (iae_executionPath v)) (iae_result v) (iae_error v).

(** ** INSERT

    Every insert checks the primary key, the unique indexes and the foreign
    keys of its table; a violated constraint rejects the statement, and the
    caller keeps the store it had. *)

Definition insertChannelRow (c : Channel.t) (s : Store) : Result Store :=
  require (Channel.id c ∉ Channel.id <$> channels s)
    (UniqueViolation "channels_pkey");;
  Ok (set_channels (channels s ++ [c]) s).

(** [unique("contacts_channel_phone_unique").on(channelId, phone)]: two rows
    conflict when both columns are equal and the channel is not NULL. *)
Definition contactConflict (c c' : Contact.t) : Prop :=
  is_Some (Contact.channelId c) ∧
  Contact.channelId c' = Contact.channelId c ∧
  Contact.phone c' = Contact.phone c.

#[export] Instance contactConflict_dec c c' : Decision (contactConflict c c').
Proof. unfold contactConflict. apply _. Defined.

Definition insertContactRow (c : Contact.t) (s : Store) : Result Store :=
  require (Contact.id c ∉ Contact.id <$> contacts s)
    (UniqueViolation "contacts_pkey");;
  require (¬ Exists (contactConflict c) (contacts s))
    (UniqueViolation "contacts_channel_phone_unique");;
  require (refOk (Contact.channelId c) (Channel.id <$> channels s))
    (ForeignKeyViolation "contacts_channel_id_channels_id_fk");;
  Ok (set_contacts (contacts s ++ [c]) s).

Definition insertConversation (c : Conversation.t) (s : Store) : Result Store :=
  require (Conversation.id c ∉ Conversation.id <$> conversations s)
    (UniqueViolation "conversations_pkey");;
  require (refOk (Conversation.channelId c) (Channel.id <$> channels s))
    (ForeignKeyViolation "conversations_channel_id_channels_id_fk");;
  require (refOk (Conversation.contactId c) (Contact.id <$> contacts s))
    (ForeignKeyViolation "conversations_contact_id_contacts_id_fk");;
  Ok (set_conversations (conversations s ++ [c]) s).

Definition insertAutomation (a : Automation.t) (s : Store) : Result Store :=
  require (Automation.id a ∉ Automation.id <$> automations s)
    (UniqueViolation "automations_pkey");;
  require (refOk (Automation.channelId a) (Channel.id <$> channels s))
    (ForeignKeyViolation "automations_channel_id_channels_id_fk");;
  Ok (set_automations (automations s ++ [a]) s).

Definition nodeKey (n : AutomationNode.t) : string * string :=
  (AutomationNode.automationId n, AutomationNode.nodeId n).

Definition insertAutomationNode (n : AutomationNode.t) (s : Store) : Result Store :=
  require (AutomationNode.id n ∉ AutomationNode.id <$> automationNodes s)
    (UniqueViolation "automation_nodes_pkey");;
  require (AutomationNode.nodeId n ∉ AutomationNode.nodeId <$> automationNodes s)
    (UniqueViolation "automation_nodes_node_id_unique");;
  require (nodeKey n ∉ nodeKey <$> automationNodes s)
    (UniqueViolation "automation_nodes_unique_idx");;
  require (AutomationNode.automationId n ∈ Automation.id <$> automations s)
    (ForeignKeyViolation "automation_nodes_automation_id_automations_id_fk");;
  Ok (set_automationNodes (automationNodes s ++ [n]) s).

Definition edgeKey (e : AutomationEdge.t) : string * string * string :=
  (AutomationEdge.automationId e, AutomationEdge.sourceNodeId e,
   AutomationEdge.targetNodeId e).

Definition insertAutomationEdge (e : AutomationEdge.t) (s : Store) : Result Store :=
  require (AutomationEdge.id e ∉ AutomationEdge.id <$> automationEdges s)
    (UniqueViolation "automation_edges_pkey");;
  require (edgeKey e ∉ edgeKey <$> automationEdges s)
    (UniqueViolation "automation_edges_unique_idx");;
  require (AutomationEdge.automationId e ∈ Automation.id <$> automations s)
    (ForeignKeyViolation "automation_edges_automation_id_automations_id_fk");;
  require (AutomationEdge.sourceNodeId e ∈ AutomationNode.nodeId <$> automationNodes s)
    (ForeignKeyViolation "automation_edges_source_node_id_automation_nodes_node_id_fk");;
  require (AutomationEdge.targetNodeId e ∈ AutomationNode.nodeId <$> automationNodes s)
    (ForeignKeyViolation "automation_edges_target_node_id_automation_nodes_node_id_fk");;
  Ok (set_automationEdges (automationEdges s ++ [e]) s).

Definition insertAutomationExecutionRow (x : AutomationExecution.t) (s : Store)
    : Result Store :=
  require (AutomationExecution.id x ∉ AutomationExecution.id <$> automationExecutions s)
    (UniqueViolation "automation_executions_pkey");;
  require (AutomationExecution.automationId x ∈ Automation.id <$> automations s)
    (ForeignKeyViolation "automation_executions_automation_id_automations_id_fk");;
  require (refOk (AutomationExecution.contactId x) (Contact.id <$> contacts s))
    (ForeignKeyViolation "automation_executions_contact_id_contacts_id_fk");;
  require (refOk (AutomationExecution.conversationId x)
             (Conversation.id <$> conversations s))
    (ForeignKeyViolation "automation_executions_conversation_id_conversations_id_fk");;
  Ok (set_automationExecutions (automationExecutions s ++ [x]) s).

Definition insertAutomationExecution (newId : string)
    (v : InsertAutomationExecution) (s : Store) : Result Store :=
  insertAutomationExecutionRow (executionRow newId v) s.

Definition insertAutomationExecutionLog (l : AutomationExecutionLog.t) (s : Store)
    : Result Store :=
  require (AutomationExecutionLog.id l
             ∉ AutomationExecutionLog.id <$> automationExecutionLogs s)
    (UniqueViolation "automation_execution_logs_pkey");;
  require (AutomationExecutionLog.executionId l
             ∈ AutomationExecution.id <$> automationExecutions s)
    (ForeignKeyViolation
       "automation_execution_logs_execution_id_automation_executions_id_fk");;
  Ok (set_automationExecutionLogs (automationExecutionLogs s ++ [l]) s).

(** ** DELETE

    Deleting a row applies, for every foreign key that references its table,
    the declared [onDelete] action to the referencing rows, and so on down
    the references of the rows deleted by a cascade. *)

(** Deleting an automation: [automationNodes], [automationEdges] and
    [automationExecutions] reference [automations.id]; [automationEdges]
    reference [automationNodes.nodeId] twice; [automationExecutionLogs]
    reference [automationExecutions.id]. *)
Definition deleteAutomation (aid : string) (s : Store) : Result Store :=
  let goneNodeIds :=
    AutomationNode.nodeId <$>
      filter (λ n, AutomationNode.automationId n = aid) (automationNodes s) in
  let goneExecutionIds :=
    AutomationExecution.id <$>
      filter (λ x, AutomationExecution.automationId x = aid)
        (automationExecutions s) in
  nodes ← referentialAction automationNodes_automationId_onDelete
             "automation_nodes_automation_id_automations_id_fk"
             (λ n, AutomationNode.automationId n = aid) (automationNodes s);
  edges ← referentialAction automationEdges_automationId_onDelete
             "automation_edges_automation_id_automations_id_fk"
             (λ e, AutomationEdge.automationId e = aid) (automationEdges s);
  edges ← referentialAction automationEdges_sourceNodeId_onDelete
             "automation_edges_source_node_id_automation_nodes_node_id_fk"
             (λ e, AutomationEdge.sourceNodeId e ∈ goneNodeIds) edges;
  edges ← referentialAction automationEdges_targetNodeId_onDelete
             "automation_edges_target_node_id_automation_nodes_node_id_fk"
             (λ e, AutomationEdge.targetNodeId e ∈ goneNodeIds) edges;
  executions ← referentialAction automationExecutions_automationId_onDelete
             "automation_executions_automation_id_automations_id_fk"
             (λ x, AutomationExecution.automationId x = aid)
             (automationExecutions s);
  logs ← referentialAction automationExecutionLogs_executionId_onDelete
             "automation_execution_logs_execution_id_automation_executions_id_fk"
             (λ l, AutomationExecutionLog.executionId l ∈ goneExecutionIds)
             (automationExecutionLogs s);
  Ok (mkStore (channels s) (contacts s) (conversations s)
        (filter (λ a, Automation.id a ≠ aid) (automations s))
        nodes edges executions logs).

Definition deleteAutomationNode (rowId : string) (s : Store) : Result Store :=
  let goneNodeIds :=
    AutomationNode.nodeId <$>
      filter (λ n, AutomationNode.id n = rowId) (automationNodes s) in
  edges ← referentialAction automationEdges_sourceNodeId_onDelete
             "automation_edges_source_node_id_automation_nodes_node_id_fk"
             (λ e, AutomationEdge.sourceNodeId e ∈ goneNodeIds)
             (automationEdges s);
  edges ← referentialAction automationEdges_targetNodeId_onDelete
             "automation_edges_target_node_id_automation_nodes_node_id_fk"
             (λ e, AutomationEdge.targetNodeId e ∈ goneNodeIds) edges;
  Ok (set_automationEdges edges
        (set_automationNodes
           (filter (λ n, AutomationNode.id n ≠ rowId) (automationNodes s)) s)).

Definition deleteAutomationEdge (rowId : string) (s : Store) : Result Store :=
  Ok (set_automationEdges
        (filter (λ e, AutomationEdge.id e ≠ rowId) (automationEdges s)) s).

Definition deleteAutomationExecution (xid : string) (s : Store) : Result Store :=
  let goneExecutionIds :=
    AutomationExecution.id <$>
      filter (λ x, AutomationExecution.id x = xid) (automationExecutions s) in
  logs ← referentialAction automationExecutionLogs_executionId_onDelete
             "automation_execution_logs_execution_id_automation_executions_id_fk"
             (λ l, AutomationExecutionLog.executionId l ∈ goneExecutionIds)
             (automationExecutionLogs s);
  Ok (set_automationExecutionLogs logs
        (set_automationExecutions
           (filter (λ x, AutomationExecution.id x ≠ xid)
              (automationExecutions s)) s)).

Definition deleteAutomationExecutionLog (rowId : string) (s : Store) : Result Store :=
  Ok (set_automationExecutionLogs
        (filter (λ l, AutomationExecutionLog.id l ≠ rowId)
           (automationExecutionLogs s)) s).

(** ** UPDATE

    The columns an update of an execution or of a channel may set, with
    values of the columns' types (a [notNull()] column gets a value, never
    NULL); no other constraint lies on them, so these updates are never
    rejected.  What an untyped object gives rise to is in
    [updateChannelData]. *)

Record AutomationExecutionPatch : Type := mkAutomationExecutionPatch {
  xp_status : option string;
  xp_currentNodeId : option (option string);
  xp_executionPath : option (list string);
  xp_result : option (option string);
  xp_error : option (option string)
}.

Definition patchExecution (p : AutomationExecutionPatch)
    (x : AutomationExecution.t) : AutomationExecution.t :=
  AutomationExecution.mk (AutomationExecution.id x)
    (AutomationExecution.automationId x) (AutomationExecution.contactId x)
    (AutomationExecution.conversationId x)
    (default (AutomationExecution.status x) (xp_status p))
    (default (AutomationExecution.currentNodeId x) (xp_currentNodeId p))
    (default (AutomationExecution.executionPath x) (xp_executionPath p))
    (default (AutomationExecution.result x) (xp_result p))
    (default (AutomationExecution.error x) (xp_error p)).

Definition updateAutomationExecution (xid : string)
    (p : AutomationExecutionPatch) (s : Store) : Result Store :=
  Ok (set_automationExecutions
        ((λ x, if decide (AutomationExecution.id x = xid)
               then patchExecution p x else x) <$> automationExecutions s) s).

Record ChannelPatch : Type := mkChannelPatch {
  cp_name : option string;
  cp_phoneNumberId : option string;
  cp_accessToken : option string;
  cp_isActive : option (option bool);
  cp_healthStatus : option (option string)
}.

Definition patchChannel (p : ChannelPatch) (c : Channel.t) : Channel.t :=
  Channel.mk (Channel.id c)
    (default (Channel.name c) (cp_name p))
    (default (Channel.phoneNumberId c) (cp_phoneNumberId p))
    (default (Channel.accessToken c) (cp_accessToken p))
    (default (Channel.isActive c) (cp_isActive p))
    (default (Channel.healthStatus c) (cp_healthStatus p)).

Definition updateChannelRow (cid : string) (p : ChannelPatch) (s : Store)
    : Result Store :=
  Ok (set_channels
        ((λ c, if decide (Channel.id c = cid) then patchChannel p c else c)
           <$> channels s) s).

(** ** Contacts: DELETE and UPDATE

    [conversations.contactId] references [contacts.id] with
    [onDelete: "cascade"]; [automationExecutions.contactId] and
    [automationExecutions.conversationId] are declared without [onDelete].
    The other tables that reference contacts or conversations
    (campaign recipients, messages, conversation assignments) cascade and
    are referenced by nothing, so they never keep a delete from going
    through. *)

Definition conversations_contactId_onDelete : OnDelete := Cascade.
Definition automationExecutions_contactId_onDelete : OnDelete := NoAction.
Definition automationExecutions_conversationId_onDelete : OnDelete := NoAction.

(** A nullable reference points into [keys]. *)
Definition refersTo (k : option string) (keys : list string) : Prop :=
  match k with
  | None => False
  | Some v => v ∈ keys
  end.

#[export] Instance refersTo_dec k keys : Decision (refersTo k keys).
Proof. destruct k; simpl; apply _. Defined.

(** [db.delete(contacts).where(inArray(contacts.id, ids))], with the number
    of contact rows it deleted ([rowCount]). *)
Definition deleteContactsIn (ids : list string) (s : Store) : Result (nat * Store) :=
  let goneContactIds :=
    Contact.id <$> filter (λ c, Contact.id c ∈ ids) (contacts s) in
  let goneConversationIds :=
    Conversation.id <$>
      filter (λ c, refersTo (Conversation.contactId c) goneContactIds)
        (conversations s) in
  conversations ← referentialAction conversations_contactId_onDelete
             "conversations_contact_id_contacts_id_fk"
             (λ c, refersTo (Conversation.contactId c) goneContactIds)
             (conversations s);
  executions ← referentialAction automationExecutions_contactId_onDelete
             "automation_executions_contact_id_contacts_id_fk"
             (λ x, refersTo (AutomationExecution.contactId x) goneContactIds)
             (automationExecutions s);
  executions ← referentialAction automationExecutions_conversationId_onDelete
             "automation_executions_conversation_id_conversations_id_fk"
             (λ x, refersTo (AutomationExecution.conversationId x)
                     goneConversationIds)
             executions;
  Ok (length goneContactIds,
      mkStore (channels s)
        (filter (λ c, Contact.id c ∉ ids) (contacts s))
        conversations (automations s) (automationNodes s)
        (automationEdges s) executions (automationExecutionLogs s)).

Record ContactPatch : Type := mkContactPatch {
  ctp_channelId : option (option string);
  ctp_name : option string;
  ctp_phone : option string;
  ctp_email : option (option string);
  ctp_status : option (option string)
}.

Definition patchContact (p : ContactPatch) (c : Contact.t) : Contact.t :=
  Contact.mk (Contact.id c)
    (default (Contact.channelId c) (ctp_channelId p))
    (default (Contact.name c) (ctp_name p))
    (default (Contact.phone c) (ctp_phone p))
    (default (Contact.email c) (ctp_email p))
    (default (Contact.status c) (ctp_status p)).

(** The update of the contact with the given primary key: the row it leaves
    must respect the unique index against the other rows, and the foreign
    key to [channels]. *)
Definition updateContactRow (cid : string) (p : ContactPatch) (s : Store)
    : Result Store :=
  match snd <$> list_find (λ c, Contact.id c = cid) (contacts s) with
  | None => Ok s
  | Some c =>
      require (¬ Exists (contactConflict (patchContact p c))
                   (filter (λ c', Contact.id c' ≠ cid) (contacts s)))
        (UniqueViolation "contacts_channel_phone_unique");;
      require (refOk (Contact.channelId (patchContact p c))
                 (Channel.id <$> channels s))
        (ForeignKeyViolation "contacts_channel_id_channels_id_fk");;
      Ok (set_contacts
            ((λ c', if decide (Contact.id c' = cid) then patchContact p c' else c')
               <$> contacts s) s)
  end.

(** ** Statements and the stores they reach *)

Inductive Stmt : Type :=
| StInsertChannel (c : Channel.t)
| StInsertContact (c : Contact.t)
| StInsertConversation (c : Conversation.t)
| StInsertAutomation (a : Automation.t)
| StInsertAutomationNode (n : AutomationNode.t)
| StInsertAutomationEdge (e : AutomationEdge.t)
| StInsertAutomationExecution (newId : string) (v : InsertAutomationExecution)
| StInsertAutomationExecutionLog (l : AutomationExecutionLog.t)
| StDeleteAutomation (aid : string)
| StDeleteAutomationNode (rowId : string)
| StDeleteAutomationEdge (rowId : string)
| StDeleteAutomationExecution (xid : string)
| StDeleteAutomationExecutionLog (rowId : string)
| StUpdateAutomationExecution (xid : string) (p : AutomationExecutionPatch)
| StUpdateChannel (cid : string) (p : ChannelPatch).

Definition exec (st : Stmt) (s : Store) : Result Store :=
  match st with
  | StInsertChannel c => insertChannelRow c s
  | StInsertContact c => insertContactRow c s
  | StInsertConversation c => insertConversation c s
  | StInsertAutomation a => insertAutomation a s
  | StInsertAutomationNode n => insertAutomationNode n s
  | StInsertAutomationEdge e => insertAutomationEdge e s
  | StInsertAutomationExecution newId v => insertAutomationExecution newId v s
  | StInsertAutomationExecutionLog l => insertAutomationExecutionLog l s
  | StDeleteAutomation aid => deleteAutomation aid s
  | StDeleteAutomationNode rowId => deleteAutomationNode rowId s
  | StDeleteAutomationEdge rowId => deleteAutomationEdge rowId s
  | StDeleteAutomationExecution xid => deleteAutomationExecution xid s
  | StDeleteAutomationExecutionLog rowId => deleteAutomationExecutionLog rowId s
  | StUpdateAutomationExecution xid p => updateAutomationExecution xid p s
  | StUpdateChannel cid p => updateChannelRow cid p s
  end.

(** The store after a statement: a rejected statement changes nothing. *)
Definition commit (st : Stmt) (s : Store) : Store :=
  match exec st s with
  | Ok s' => s'
  | Err _ => s
  end.

Definition run (sts : list Stmt) (s : Store) : Store :=
  foldl (λ acc st, commit st acc) s sts.

Inductive reachable : Store → Prop :=
| reachable_empty : reachable emptyStore
| reachable_commit s st : reachable s → reachable (commit st s).

(** ** Integrity of the automation tables

    What the primary keys, unique indexes and foreign keys of the graph and
    execution tables state about a store. *)

Record integrity (s : Store) : Prop := mkIntegrity {
  int_automation_pk : NoDup (Automation.id <$> automations s);
  int_node_pk : NoDup (AutomationNode.id <$> automationNodes s);
  int_node_nodeId : NoDup (AutomationNode.nodeId <$> automationNodes s);
  int_node_automation :
    ∀ n, n ∈ automationNodes s →
      AutomationNode.automationId n ∈ Automation.id <$> automations s;
  int_edge_pk : NoDup (AutomationEdge.id <$> automationEdges s);
  int_edge_automation :
    ∀ e, e ∈ automationEdges s →
      AutomationEdge.automationId e ∈ Automation.id <$> automations s;
  int_edge_source :
    ∀ e, e ∈ automationEdges s →
      AutomationEdge.sourceNodeId e ∈ AutomationNode.nodeId <$> automationNodes s;
  int_edge_target :
    ∀ e, e ∈ automationEdges s →
      AutomationEdge.targetNodeId e ∈ AutomationNode.nodeId <$> automationNodes s;
  int_execution_pk :
    NoDup (AutomationExecution.id <$> automationExecutions s);
  int_execution_automation :
    ∀ x, x ∈ automationExecutions s →
      AutomationExecution.automationId x ∈ Automation.id <$> automations s;
  int_log_pk :
    NoDup (AutomationExecutionLog.id <$> automationExecutionLogs s);
  int_log_execution :
    ∀ l, l ∈ automationExecutionLogs s →
      AutomationExecutionLog.executionId l
        ∈ AutomationExecution.id <$> automationExecutions s
}.

(** ** Reading the automation tables *)

Definition nodesOf (aid : string) (s : Store) : list AutomationNode.t :=
  filter (λ n, AutomationNode.automationId n = aid) (automationNodes s).

Definition edgesOf (aid : string) (s : Store) : list AutomationEdge.t :=
  filter (λ e, AutomationEdge.automationId e = aid) (automationEdges s).

Definition executionsOf (aid : string) (s : Store) : list AutomationExecution.t :=
  filter (λ x, AutomationExecution.automationId x = aid) (automationExecutions s).

Definition logsOf (xid : string) (s : Store) : list AutomationExecutionLog.t :=
  filter (λ l, AutomationExecutionLog.executionId l = xid)
    (automationExecutionLogs s).

Definition hasTriggerNode (aid : string) (s : Store) : Prop :=
  ∃ n, n ∈ nodesOf aid s ∧ AutomationNode.type n = "trigger".

(** The stored execution with the given primary key. *)
Definition findExecution (xid : string) (s : Store) : option AutomationExecution.t :=
  snd <$> list_find (λ x, AutomationExecution.id x = xid) (automationExecutions s).

(** ** The execution engine

    The engine that creates and advances executions (spec 4.3) is not among
    the sources, which hold only the table it writes; its status machine is
    modelled from the spec.  It writes through the statements of the schema.
    What it writes besides the status, the current node and the error text
    (the execution path, the log entries) is not modelled, and neither is
    time: [Resume] stands for a resume tick that finds the execution due. *)

Module engine.

(** Modelled from the spec: the outcomes that move an execution (the engine
    is missing).  Spec 4.3, steps 4 to 6 and "States": on Advance the
    current node becomes the resolved successor; a terminal node marks the
    execution completed; Defer persists waiting; Fail persists failed with
    the error text; an external resume tick resumes a waiting execution. *)
Inductive Transition : Type :=
| Advance (nextNodeId : string)
| Complete
| Defer
| Fail (error : string)
| Resume.

(** Modelled from the spec: the status machine (the engine is missing).
    Spec 4.3: "States: running → {running | waiting | completed | failed},
    waiting → running (only via an external resume tick), completed and
    failed are terminal — no transitions out."  [target st t] is the status
    [t] leads to from [st], if the machine has that transition. *)
Definition target (status : string) (t : Transition) : option string :=
  if decide (status = "running") then
    match t with
    | Advance _ => Some "running"
    | Complete => Some "completed"
    | Defer => Some "waiting"
    | Fail _ => Some "failed"
    | Resume => None
    end
  else if decide (status = "waiting") then
    match t with
    | Resume => Some "running"
    | _ => None
    end
  else None.

(** Modelled from the spec: what the engine persists with a transition (the
    engine is missing): the new status, the new current node on Advance,
    the error text on Fail. *)
Definition persisted (t : Transition) (status : string)
    : AutomationExecutionPatch :=
  mkAutomationExecutionPatch (Some status)
    match t with
    | Advance nextNodeId => Some (Some nextNodeId)
    | _ => None
    end
    None None
    match t with
    | Fail error => Some (Some error)
    | _ => None
    end.

(** Modelled from the spec: the creation of an execution when a trigger
    matched (the engine is missing).  Spec 4.3: "Initial state on creation
    is running, immediately evaluating the matched trigger node." *)
Definition create (newId automationId : string)
    (contactId conversationId : option string) (triggerNodeId : string)
    (s : Store) : Result Store :=
  insertAutomationExecution newId
    (mkInsertAutomationExecution automationId contactId conversationId
       "running" (Some triggerNodeId) None None None) s.

(** Modelled from the spec: the engine taking a transition of a stored
    execution (the engine is missing); where the machine has no such
    transition, or there is no such execution, nothing is written. *)
Definition transition (xid : string) (t : Transition) (s : Store)
    : Result Store :=
  match findExecution xid s with
  | Some x =>
      match target (AutomationExecution.status x) t with
      | Some status => updateAutomationExecution xid (persisted t status) s
      | None => Ok s
      end
  | None => Ok s
  end.

(** The operations of the engine, and the stores they lead to. *)
Inductive Op : Type :=
| Create (newId automationId : string)
    (contactId conversationId : option string) (triggerNodeId : string)
| Take (xid : string) (t : Transition).

Definition exec (op : Op) (s : Store) : Result Store :=
  match op with
  | Create newId automationId contactId conversationId triggerNodeId =>
      create newId automationId contactId conversationId triggerNodeId s
  | Take xid t => transition xid t s
  end.

Definition commit (op : Op) (s : Store) : Store :=
  match exec op s with
  | Ok s' => s'
  | Err _ => s
  end.

Definition run (ops : list Op) (s : Store) : Store :=
  foldl (λ acc op, commit op acc) s ops.

(** The stores in which every execution was created and advanced by the
    engine: it starts on a store the statements reach that holds no
    execution. *)
Inductive reached : Store → Prop :=
| reached_start s : reachable s → automationExecutions s = [] → reached s
| reached_commit s op : reached s → reached (commit op s).

End engine.

(** ** Request handlers

    A handler runs against the store and either completes with a value or
    throws; what it wrote before throwing stays written (the controllers
    open no transaction). *)

Inductive Exception : Type :=
| AppError (status : nat) (message : string)
| ZodError
| TypeError
| FetchError
| DatabaseError (e : DbError).

Inductive Outcome (A : Type) : Type :=
| Done (a : A)
| Throw (e : Exception).
Arguments Done {A} a.
Arguments Throw {A} e.

Definition Handler (A : Type) : Type := Store → Store * Outcome A.

#[export] Instance Handler_ret : MRet Handler := fun A a s => (s, Done a).
#[export] Instance Handler_bind : MBind Handler := fun A B k m s =>
  match m s with
  | (s', Done a) => k a s'
  | (s', Throw e) => (s', Throw e)
  end.

Definition throw {A : Type} (e : Exception) : Handler A := fun s => (s, Throw e).

Definition tryCatch {A : Type} (m : Handler A) (h : Exception → Handler A)
    : Handler A :=
  fun s =>
    match m s with
    | (s', Done a) => (s', Done a)
    | (s', Throw e) => h e s'
    end.

(** [for (const x of xs) { await body(x) }] *)
Fixpoint forOf {A : Type} (xs : list A) (body : A → Handler unit) : Handler unit :=
  match xs with
  | [] => mret tt
  | x :: rest => body x;; forOf rest body
  end.

(** A statement issued by the storage layer: a rejected statement throws. *)
Definition statement (st : Store → Result Store) : Handler unit :=
  fun s =>
    match st s with
    | Ok s' => (s', Done tt)
    | Err e => (s, Throw (DatabaseError e))
    end.

Definition query {A : Type} (q : Store → A) : Handler A := fun s => (s, Done (q s)).

(** A statement that also reports a value (a row count). *)
Definition statementReturning {A : Type} (st : Store → Result (A * Store))
    : Handler A :=
  fun s =>
    match st s with
    | Ok (a, s') => (s', Done a)
    | Err e => (s, Throw (DatabaseError e))
    end.

(** ** Values of a request body

    What a client can put under a key of a JSON body, and the keys of a
    channel object and of a contact object that matter to the modelled
    columns; the other keys (among them [id]) are taken to be absent. *)

Inductive JsValue : Type :=
| JsUndefined
| JsNull
| JsBoolean (b : bool)
| JsNumber (n : Z)
| JsString (s : string).

#[export] Instance JsValue_eq_dec : EqDecision JsValue.
Proof. solve_decision. Defined.

Record ChannelBody : Type := mkChannelBody {
  cb_name : JsValue;
  cb_phoneNumberId : JsValue;
  cb_accessToken : JsValue;
  cb_isActive : JsValue;
  cb_healthStatus : JsValue
}.

Record ContactBody : Type := mkContactBody {
  ctb_channelId : JsValue;
  ctb_name : JsValue;
  ctb_phone : JsValue;
  ctb_email : JsValue;
  ctb_status : JsValue
}.

(** *** How an unvalidated object reaches the columns

    [updateChannel] and [updateContact] hand [req.body] to the storage
    layer as it came; the UPDATE then sets a column for every key that is
    not [undefined], and PostgreSQL reads each value by the type of its
    column.  A text column takes the text of any value (the driver sends a
    boolean or a number as its text); a boolean column takes a boolean or
    one of the spellings its input routine knows (any case, blanks around
    it ignored: a prefix of [true], [false], [yes], [no]; [on]; [of],
    [off]; [1]; [0]) and refuses everything else. *)

Definition isSpace (a : Ascii.ascii) : bool :=
  let n := Ascii.nat_of_ascii a in bool_decide (n = 32 ∨ 9 ≤ n ≤ 13)%nat.

Definition asciiLower (a : Ascii.ascii) : Ascii.ascii :=
  let n := Ascii.nat_of_ascii a in
  if bool_decide (65 ≤ n ≤ 90)%nat then Ascii.ascii_of_nat (n + 32) else a.

Fixpoint lowerAscii (s : string) : string :=
  match s with
  | String a rest => String (asciiLower a) (lowerAscii rest)
  | EmptyString => EmptyString
  end.

Fixpoint trimLeft (s : string) : string :=
  match s with
  | String a rest => if isSpace a then trimLeft rest else s
  | EmptyString => EmptyString
  end.

Definition trim (s : string) : string :=
  String.rev (trimLeft (String.rev (trimLeft s))).

Definition pgBoolean (s : string) : option bool :=
  let v := lowerAscii (trim s) in
  if decide (v ∈ ["t"; "tr"; "tru"; "true"; "y"; "ye"; "yes"; "on"; "1"])
  then Some true
  else if decide (v ∈ ["f"; "fa"; "fal"; "fals"; "false"; "n"; "no"; "of";
                        "off"; "0"])
  then Some false
  else None.

(** The text the driver sends for a value. *)
Definition sentText (v : JsValue) : option string :=
  match v with
  | JsUndefined | JsNull => None
  | JsBoolean b => Some (if b then "true" else "false")
  | JsNumber n => Some (pretty n)
  | JsString s => Some s
  end.

(** What a key sets a text column to: nothing, NULL or a text. *)
Definition textValue (v : JsValue) : option (option string) :=
  match v with
  | JsUndefined => None
  | _ => Some (sentText v)
  end.

(** What a key sets a boolean column to, when the column takes the value. *)
Definition booleanValue (v : JsValue) : Result (option (option bool)) :=
  match v with
  | JsUndefined => Ok None
  | JsNull => Ok (Some None)
  | JsBoolean b => Ok (Some (Some b))
  | _ =>
      match sentText v ≫= pgBoolean with
      | Some b => Ok (Some (Some b))
      | None => Err (InvalidTextRepresentation "boolean")
      end
  end.

(** The SET list of the UPDATE an object gives rise to.  A [null] under a
    key of a [notNull()] column has no entry here: the UPDATE that carries
    it is refused for every row it would change (see [updateChannelData]). *)
Definition columnValues (data : ChannelBody) : Result ChannelPatch :=
  isActive ← booleanValue (cb_isActive data);
  Ok (mkChannelPatch (mjoin (textValue (cb_name data)))
        (mjoin (textValue (cb_phoneNumberId data)))
        (mjoin (textValue (cb_accessToken data)))
        isActive
        (textValue (cb_healthStatus data))).

(** No [notNull()] column of [channels] is set to [null]. *)
Definition keepsNotNull (data : ChannelBody) : Prop :=
  cb_name data ≠ JsNull ∧ cb_phoneNumberId data ≠ JsNull
  ∧ cb_accessToken data ≠ JsNull.

(** [UPDATE channels SET ... WHERE id = cid] with the values of [data]. *)
Definition updateChannelData (cid : string) (data : ChannelBody) (s : Store)
    : Result Store :=
  values ← columnValues data;
  (if decide (cid ∈ Channel.id <$> channels s) then
     require (cb_name data ≠ JsNull) (NotNullViolation "name");;
     require (cb_phoneNumberId data ≠ JsNull)
       (NotNullViolation "phone_number_id");;
     require (cb_accessToken data ≠ JsNull) (NotNullViolation "access_token")
   else Ok tt);;
  updateChannelRow cid values s.

(** The SET list of the UPDATE of [contacts] an object gives rise to; the
    modelled columns are all text. *)
Definition contactValues (data : ContactBody) : ContactPatch :=
  mkContactPatch (textValue (ctb_channelId data))
    (mjoin (textValue (ctb_name data)))
    (mjoin (textValue (ctb_phone data)))
    (textValue (ctb_email data))
    (textValue (ctb_status data)).

(** No [notNull()] column of [contacts] is set to [null]. *)
Definition keepsContactNotNull (data : ContactBody) : Prop :=
  ctb_name data ≠ JsNull ∧ ctb_phone data ≠ JsNull.

(** [UPDATE contacts SET ... WHERE id = cid] with the values of [data]. *)
Definition updateContactData (cid : string) (data : ContactBody) (s : Store)
    : Result Store :=
  (if decide (cid ∈ Contact.id <$> contacts s) then
     require (ctb_name data ≠ JsNull) (NotNullViolation "name");;
     require (ctb_phone data ≠ JsNull) (NotNullViolation "phone")
   else Ok tt);;
  updateContactRow cid (contactValues data) s.

(** ** The storage layer *)

Module storage.

(** Modelled from the spec: [storage.getChannels] of server/storage, which is
    not among the sources (the spec leaves persistence abstract); taken as the
    query returning every row of [channels]. *)
Definition getChannels : Handler (list Channel.t) := query channels.

(** Modelled from the spec: [storage.getChannel] (server/storage is missing);
    the row of [channels] with the given primary key, if any. *)
Definition getChannel (cid : string) : Handler (option Channel.t) :=
  query (λ s, snd <$> list_find (λ c, Channel.id c = cid) (channels s)).

(** Modelled from the spec: [storage.getActiveChannel] (server/storage is
    missing); the first row of [channels] whose [isActive] is true. *)
Definition getActiveChannel : Handler (option Channel.t) :=
  query (λ s, snd <$> list_find (λ c, Channel.isActive c = Some true) (channels s)).

(** Modelled from the spec: [storage.createChannel] (server/storage is
    missing); one INSERT into [channels], returning the new row.  [newId] is
    the value [gen_random_uuid()] draws for it. *)
Definition createChannel (newId : string) (v : InsertChannel) : Handler Channel.t :=
  statement (insertChannelRow (channelRow newId v));;
  mret (channelRow newId v).

(** Modelled from the spec: [storage.updateChannel] (server/storage is
    missing); one UPDATE of the row with the given primary key, setting the
    columns the keys of [data] name, and returning the updated row, or
    nothing when there is no such row.  [data] is an object of the caller
    and is not validated on the way. *)
Definition updateChannel (cid : string) (data : ChannelBody)
    : Handler (option Channel.t) :=
  statement (updateChannelData cid data);;
  getChannel cid.

(** Modelled from the spec: [storage.getContacts] (server/storage is missing);
    every row of [contacts]. *)
Definition getContacts : Handler (list Contact.t) := query contacts.

(** Modelled from the spec: [storage.getContactsByChannel] (server/storage is
    missing); the rows of [contacts] whose [channelId] is the given one. *)
Definition getContactsByChannel (cid : string) : Handler (list Contact.t) :=
  query (λ s, filter (λ c, Contact.channelId c = Some cid) (contacts s)).

(** Modelled from the spec: [storage.createContact] (server/storage is
    missing); one INSERT into [contacts], returning the new row.  [newId] is
    the value [gen_random_uuid()] draws for it. *)
Definition createContact (newId : string) (v : InsertContact) : Handler Contact.t :=
  statement (insertContactRow (contactRow newId v));;
  mret (contactRow newId v).

(** Modelled from the spec: [storage.getContact] (server/storage is missing);
    the row of [contacts] with the given primary key, if any. *)
Definition getContact (cid : string) : Handler (option Contact.t) :=
  query (λ s, snd <$> list_find (λ c, Contact.id c = cid) (contacts s)).

(** Modelled from the spec: [storage.updateContact] (server/storage is
    missing); one UPDATE of the row with the given primary key, setting the
    columns the keys of [data] name, and returning the updated row, or
    nothing when there is no such row.  [data] is an object of the caller
    and is not validated on the way. *)
Definition updateContact (cid : string) (data : ContactBody)
    : Handler (option Contact.t) :=
  statement (updateContactData cid data);;
  getContact cid.

(** Modelled from the spec: [storage.deleteContact] (server/storage is
    missing); one DELETE of the row with the given primary key, telling
    whether a row was deleted. *)
Definition deleteContact (cid : string) : Handler bool :=
  rowCount ← statementReturning (deleteContactsIn [cid]);
  mret (bool_decide (0 < rowCount)).

End storage.

(** ** Request bodies and their validation *)

(** JavaScript truthiness of the values the controllers test. *)
Definition truthyString (v : option string) : bool :=
  match v with
  | Some s => bool_decide (s ≠ "")
  | None => false
  end.

Definition truthyBoolean (v : option bool) : bool :=
  match v with
  | Some true => true
  | _ => false
  end.

Definition zString (v : JsValue) : option string :=
  match v with
  | JsString s => Some s
  | _ => None
  end.

Definition zBoolean (v : JsValue) : option bool :=
  match v with
  | JsBoolean b => Some b
  | _ => None
  end.

(** [.optional().nullable()]: absent, null, or a value of the base type. *)
Definition zNullish {A : Type} (base : JsValue → option A) (v : JsValue)
    : option (option (option A)) :=
  match v with
  | JsUndefined => Some None
  | JsNull => Some (Some None)
  | _ => a ← base v; Some (Some (Some a))
  end.


(** [insertChannelSchema.parse] *)
Definition parseChannel (b : ChannelBody) : option InsertChannel :=
  name ← zString (cb_name b);
  phoneNumberId ← zString (cb_phoneNumberId b);
  accessToken ← zString (cb_accessToken b);
  isActive ← zNullish zBoolean (cb_isActive b);
  healthStatus ← zNullish zString (cb_healthStatus b);
  Some (mkInsertChannel name phoneNumberId accessToken isActive healthStatus).

(** [insertContactSchema.parse] *)
Definition parseContact (b : ContactBody) : option InsertContact :=
  channelId ← zNullish zString (ctb_channelId b);
  name ← zString (ctb_name b);
  phone ← zString (ctb_phone b);
  email ← zNullish zString (ctb_email b);
  status ← zNullish zString (ctb_status b);
  Some (mkInsertContact (mjoin channelId) name phone (mjoin email) status).

Definition parse {B V : Type} (schema : B → option V) (b : B) : Handler V :=
  match schema b with
  | Some v => mret v
  | None => throw ZodError
  end.

(** ** Channel controller *)

(** What the health request to the Graph API came back with. *)
Inductive HealthResponse : Type :=
| ResponseOk
| ResponseNotOk
| FetchThrew.

(** The object literals [{ isActive: b }] and [{ healthStatus: h, ... }]
    (the other keys of the latter name columns that are not modelled). *)
Definition isActiveObject (b : bool) : ChannelBody :=
  mkChannelBody JsUndefined JsUndefined JsUndefined (JsBoolean b) JsUndefined.

Definition healthStatusObject (h : string) : ChannelBody :=
  mkChannelBody JsUndefined JsUndefined JsUndefined JsUndefined (JsString h).

(** The SET lists they give rise to. *)
Definition setIsActive (b : bool) : ChannelPatch :=
  mkChannelPatch None None None (Some (Some b)) None.

Definition setHealthStatus (h : string) : ChannelPatch :=
  mkChannelPatch None None None None (Some (Some h)).

Definition createChannel (body : ChannelBody) (newId : string)
    (health : HealthResponse) : Handler (option Channel.t) :=
  validatedChannel ← parse parseChannel body;
  (* If this is set as active, deactivate all other channels *)
  (if truthyBoolean (mjoin (ic_isActive validatedChannel)) then
     channels ← storage.getChannels;
     forOf channels (λ channel,
       if truthyBoolean (Channel.isActive channel)
       then storage.updateChannel (Channel.id channel) (isActiveObject false);;
            mret tt
       else mret tt)
   else mret tt);;
  (* Create the channel *)
  channel ← storage.createChannel newId validatedChannel;
  (* Immediately check channel health after creation *)
  tryCatch
    (match health with
     | ResponseOk =>
         storage.updateChannel (Channel.id channel)
           (healthStatusObject "healthy");;
         mret tt
     | ResponseNotOk =>
         storage.updateChannel (Channel.id channel)
           (healthStatusObject "error");;
         mret tt
     | FetchThrew => throw FetchError
     end)
    (λ _, mret tt);;
  (* Return the created channel with updated health status *)
  storage.getChannel (Channel.id channel).

(** [body] is [req.body] as the client sent it; the guard is the strict
    [req.body.isActive === true]. *)
Definition updateChannel (id : string) (body : ChannelBody) : Handler Channel.t :=
  (* If setting this channel as active, deactivate all others *)
  (if decide (cb_isActive body = JsBoolean true) then
     channels ← storage.getChannels;
     forOf channels (λ channel,
       if decide (Channel.id channel ≠ id ∧ truthyBoolean (Channel.isActive channel))
       then storage.updateChannel (Channel.id channel) (isActiveObject false);;
            mret tt
       else mret tt)
   else mret tt);;
  channel ← storage.updateChannel id body;
  match channel with
  | None => throw (AppError 404 "Channel not found")
  | Some channel => mret channel
  end.

(** ** Contact controller *)

(** [a || b] on channel identifiers. *)
Definition orElse (a b : option string) : option string :=
  if truthyString a then a else b.

(** Use channelId from the request or the active channel. *)
Definition resolveChannelId (requested : option string) : Handler (option string) :=
  if truthyString requested then mret requested
  else
    activeChannel ← storage.getActiveChannel;
    match activeChannel with
    | Some c => mret (Some (Channel.id c))
    | None => mret requested
    end.

(** The contacts the duplicate check looks at. *)
Definition existingContactsFor (channelId : option string) : Handler (list Contact.t) :=
  match channelId with
  | Some cid =>
      if truthyString channelId then storage.getContactsByChannel cid
      else storage.getContacts
  | None => storage.getContacts
  end.

Definition withChannelId (channelId : option string) (v : InsertContact)
    : InsertContact :=
  mkInsertContact channelId (ict_name v) (ict_phone v) (ict_email v)
    (ict_status v).

Definition createContact (body : ContactBody) (queryChannelId : option string)
    (newId : string) : Handler Contact.t :=
  validatedContact ← parse parseContact body;
  (* Use channelId from query or active channel *)
  channelId ← resolveChannelId queryChannelId;
  (* Check for duplicate phone number *)
  existingContacts ← existingContactsFor channelId;
  match list_find (λ c, Contact.phone c = ict_phone validatedContact)
          existingContacts with
  | Some _ =>
      throw (AppError 409 "Contact with this phone number already exists")
  | None =>
      storage.createContact newId (withChannelId channelId validatedContact)
  end.

(** An element of the [contacts] array of an import: [null] and [undefined]
    have no properties to read; anything else is read through the keys the
    insert schema knows. *)
Inductive ImportItem : Type :=
| ItemNullish
| ItemObject (b : ContactBody).

Definition optionToJs (v : option string) : JsValue :=
  match v with
  | Some s => JsString s
  | None => JsUndefined
  end.

(** [{ ...contact, channelId }] *)
Definition spreadWithChannelId (b : ContactBody) (channelId : option string)
    : ContactBody :=
  mkContactBody (optionToJs channelId) (ctb_name b) (ctb_phone b) (ctb_email b)
    (ctb_status b).

(** [existingPhones.has(v)] for a set that only ever holds strings. *)
Definition hasPhone (phones : gset string) (v : JsValue) : bool :=
  match v with
  | JsString p => bool_decide (p ∈ phones)
  | _ => false
  end.

Definition errorMessage (e : Exception) : string :=
  match e with
  | AppError _ m => m
  | ZodError => "Validation error"
  | TypeError => "Cannot read properties of null"
  | FetchError => "fetch failed"
  | DatabaseError (UniqueViolation c) =>
      "duplicate key value violates unique constraint " ++ c
  | DatabaseError (ForeignKeyViolation c) =>
      "insert or update violates foreign key constraint " ++ c
  | DatabaseError (NotNullViolation c) =>
      "null value violates not-null constraint of column " ++ c
  | DatabaseError (InvalidTextRepresentation t) =>
      "invalid input syntax for type " ++ t
  end.

(** The local arrays and the set of the import loop. *)
Record ImportState : Type := mkImportState {
  existingPhones : gset string;
  createdContacts : list Contact.t;
  duplicates : list (ImportItem * string);
  errors : list (ImportItem * string)
}.

(** One turn of [for (const contact of contacts)]; [newId] is the identifier
    the store draws if this turn reaches the insert. *)
Definition importOne (channelId : option string) (st : ImportState)
    (contact : ImportItem) (newId : string) : Handler ImportState :=
  tryCatch
    (match contact with
     | ItemNullish => throw TypeError
     | ItemObject b =>
         (* Check for duplicate phone number *)
         if hasPhone (existingPhones st) (ctb_phone b) then
           mret (mkImportState (existingPhones st) (createdContacts st)
                   (duplicates st ++ [(contact, "Phone number already exists")])
                   (errors st))
         else
           validatedContact ← parse parseContact (spreadWithChannelId b channelId);
           created ← storage.createContact newId validatedContact;
           mret (mkImportState ({[Contact.phone created]} ∪ existingPhones st)
                   (createdContacts st ++ [created])
                   (duplicates st) (errors st))
     end)
    (λ error,
       mret (mkImportState (existingPhones st) (createdContacts st)
               (duplicates st) (errors st ++ [(contact, errorMessage error)]))).

Fixpoint importLoop (channelId : option string) (st : ImportState)
    (contacts : list (ImportItem * string)) : Handler ImportState :=
  match contacts with
  | [] => mret st
  | (contact, newId) :: rest =>
      st' ← importOne channelId st contact newId;
      importLoop channelId st' rest
  end.

Record ImportDetails : Type := mkImportDetails {
  d_created : nat;
  d_duplicates : list (ImportItem * string);
  d_errors : list (ImportItem * string)
}.

Record ImportReport : Type := mkImportReport {
  r_created : nat;
  r_duplicates : nat;
  r_failed : nat;
  r_total : nat;
  r_details : ImportDetails
}.

(** [contacts] is the [contacts] key of the body, [None] when it is not an
    array; each element comes with the identifier drawn for its insert. *)
Definition importContacts (contacts : option (list (ImportItem * string)))
    (bodyChannelId queryChannelId : option string) : Handler ImportReport :=
  match contacts with
  | None => throw (AppError 400 "Contacts must be an array")
  | Some contacts =>
      (* Use channelId from body, query or active channel *)
      channelId ← resolveChannelId (orElse bodyChannelId queryChannelId);
      (* Get existing contacts for duplicate check *)
      existingContacts ← existingContactsFor channelId;
      st ← importLoop channelId
             (mkImportState (list_to_set (Contact.phone <$> existingContacts))
                [] [] [])
             contacts;
      mret (mkImportReport
              (length (createdContacts st))
              (length (duplicates st))
              (length (errors st))
              (length contacts)
              (mkImportDetails (length (createdContacts st))
                 (take 10 (duplicates st)) (take 10 (errors st))))
  end.

(** ** The other handlers of the two controllers *)

Definition getActiveChannel : Handler Channel.t :=
  channel ← storage.getActiveChannel;
  match channel with
  | None => throw (AppError 404 "No active channel found")
  | Some channel => mret channel
  end.

(** The status the handler reports; [health] is what the request to the
    Graph API came back with. *)
Definition checkChannelHealth (id : string) (health : HealthResponse)
    : Handler string :=
  channel ← storage.getChannel id;
  match channel with
  | None => throw (AppError 404 "Channel not found")
  | Some _ =>
      tryCatch
        (match health with
         | ResponseOk =>
             storage.updateChannel id (healthStatusObject "healthy");;
             mret "healthy"
         | ResponseNotOk =>
             storage.updateChannel id (healthStatusObject "error");;
             mret "error"
         | FetchThrew => throw FetchError
         end)
        (λ _,
           storage.updateChannel id (healthStatusObject "error");;
           mret "error")
  end.

(** [s.includes(sub)] *)
Fixpoint includes (s sub : string) : bool :=
  String.prefix sub s
  || match s with
     | EmptyString => false
     | String _ rest => includes rest sub
     end.

Section Search.

(** [String.prototype.toLowerCase], left abstract. *)
Variable toLowerCase : string → string.

Definition matchesSearch (search : string) (contact : Contact.t) : bool :=
  let searchLower := toLowerCase search in
  includes (toLowerCase (Contact.name contact)) searchLower
  || includes (Contact.phone contact) search
  || match Contact.email contact with
     | Some email => includes (toLowerCase email) searchLower
     | None => false
     end.

Definition getContacts (search channelId : option string)
    : Handler (list Contact.t) :=
  contacts ← match channelId with
             | Some cid =>
                 if truthyString channelId then storage.getContactsByChannel cid
                 else storage.getContacts
             | None => storage.getContacts
             end;
  (* Apply search filter if provided *)
  match search with
  | Some term =>
      if truthyString search
      then mret (filter (λ contact, matchesSearch term contact) contacts)
      else mret contacts
  | None => mret contacts
  end.

End Search.

Definition getContact (id : string) : Handler Contact.t :=
  contact ← storage.getContact id;
  match contact with
  | None => throw (AppError 404 "Contact not found")
  | Some contact => mret contact
  end.

(** [body] is [req.body] as the client sent it. *)
Definition updateContact (id : string) (body : ContactBody) : Handler Contact.t :=
  contact ← storage.updateContact id body;
  match contact with
  | None => throw (AppError 404 "Contact not found")
  | Some contact => mret contact
  end.

Definition deleteContact (id : string) : Handler unit :=
  success ← storage.deleteContact id;
  if success : bool then mret tt
  else throw (AppError 404 "Contact not found").

(** [ids] is the [ids] key of the body, [None] when it is not an array. *)
Definition deleteBulkContacts (ids : option (list string)) : Handler unit :=
  match ids with
  | None | Some [] => throw (AppError 400 "No contact IDs provided")
  | Some ids =>
      rowCount ← statementReturning (deleteContactsIn ids);
      (* Optionally check how many rows were affected *)
      if decide (rowCount = 0)
      then throw (AppError 404 "No contacts found to delete")
      else mret tt
  end.

(** ** Permissions *)

Definition PERMISSIONS : list (string * string) :=
  [ ("DASHBOARD_VIEW", "dashboard:view");
    ("DASHBOARD_EXPORT", "dashboard:export");
    ("CONTACTS_VIEW", "contacts:view");
    ("CONTACTS_CREATE", "contacts:create");
    ("CONTACTS_EDIT", "contacts:edit");
    ("CONTACTS_DELETE", "contacts:delete");
    ("CONTACTS_IMPORT", "contacts:import");
    ("CONTACTS_EXPORT", "contacts:export");
    ("CAMPAIGNS_VIEW", "campaigns:view");
    ("CAMPAIGNS_CREATE", "campaigns:create");
    ("CAMPAIGNS_EDIT", "campaigns:edit");
    ("CAMPAIGNS_DELETE", "campaigns:delete");
    ("CAMPAIGNS_SEND", "campaigns:send");
    ("CAMPAIGNS_SCHEDULE", "campaigns:schedule");
    ("TEMPLATES_VIEW", "templates:view");
    ("TEMPLATES_CREATE", "templates:create");
    ("TEMPLATES_EDIT", "templates:edit");
    ("TEMPLATES_DELETE", "templates:delete");
    ("TEMPLATES_SYNC", "templates:sync");
    ("INBOX_VIEW", "inbox:view");
    ("INBOX_SEND_MESSAGE", "inbox:send");
    ("INBOX_ASSIGN", "inbox:assign");
    ("INBOX_CLOSE", "inbox:close");
    ("INBOX_DELETE", "inbox:delete");
    ("ANALYTICS_VIEW", "analytics:view");
    ("ANALYTICS_EXPORT", "analytics:export");
    ("SETTINGS_VIEW", "settings:view");
    ("SETTINGS_CHANNELS", "settings:channels");
    ("SETTINGS_WEBHOOK", "settings:webhook");
    ("SETTINGS_TEAM", "settings:team");
    ("SETTINGS_API", "settings:api");
    ("TEAM_VIEW", "team:view");
    ("TEAM_CREATE", "team:create");
    ("TEAM_EDIT", "team:edit");
    ("TEAM_DELETE", "team:delete");
    ("TEAM_PERMISSIONS", "team:permissions");
    ("LOGS_VIEW", "logs:view");
    ("AUTOMATIONS_VIEW", "automations:view");
    ("AUTOMATIONS_CREATE", "automations:create");
    ("AUTOMATIONS_EDIT", "automations:edit");
    ("AUTOMATIONS_DELETE", "automations:delete") ].

(** [Object.values(PERMISSIONS)] *)
Definition permissionValues : list string := snd <$> PERMISSIONS.

(** [PERMISSIONS.KEY] *)
Definition permission (key : string) : string :=
  default "" (snd ∘ snd <$> list_find (λ kv, fst kv = key) PERMISSIONS).

(** Default permissions by role: the own properties of the object; a role
    that is not one of its keys has none. *)
Definition DEFAULT_PERMISSIONS (role : string) : option (list string) :=
  if decide (role = "admin") then Some permissionValues
  else if decide (role = "manager") then
    Some (permission <$>
            [ "DASHBOARD_VIEW"; "DASHBOARD_EXPORT"; "CONTACTS_VIEW";
              "CONTACTS_CREATE"; "CONTACTS_EDIT"; "CONTACTS_IMPORT";
              "CONTACTS_EXPORT"; "CAMPAIGNS_VIEW"; "CAMPAIGNS_CREATE";
              "CAMPAIGNS_EDIT"; "CAMPAIGNS_SEND"; "CAMPAIGNS_SCHEDULE";
              "TEMPLATES_VIEW"; "TEMPLATES_CREATE"; "TEMPLATES_EDIT";
              "TEMPLATES_SYNC"; "INBOX_VIEW"; "INBOX_SEND_MESSAGE";
              "INBOX_ASSIGN"; "INBOX_CLOSE"; "ANALYTICS_VIEW";
              "ANALYTICS_EXPORT"; "SETTINGS_VIEW"; "TEAM_VIEW" ])
  else if decide (role = "agent") then
    Some (permission <$>
            [ "DASHBOARD_VIEW"; "CONTACTS_VIEW"; "CAMPAIGNS_VIEW";
              "TEMPLATES_VIEW"; "INBOX_VIEW"; "INBOX_SEND_MESSAGE";
              "ANALYTICS_VIEW" ])
  else None.

(** ** Predicates the statements are phrased with *)

Definition active (c : Channel.t) : Prop := Channel.isActive c = Some true.

Definition atMostOneActive (s : Store) : Prop :=
  ∀ c1 c2, c1 ∈ channels s → c2 ∈ channels s → active c1 → active c2 → c1 = c2.


(** A channel row after [{ isActive: false }] was written to it, and a table
    of channels after that was written to every row whose id is listed. *)
Definition deactivated (c : Channel.t) : Channel.t :=
  patchChannel (setIsActive false) c.

Definition updatedRows (cid : string) (p : ChannelPatch) (l : list Channel.t)
    : list Channel.t :=
  (λ c, if decide (Channel.id c = cid) then patchChannel p c else c) <$> l.

Definition deactivateAll (ids : list string) (l : list Channel.t)
    : list Channel.t :=
  (λ c, if decide (Channel.id c ∈ ids) then deactivated c else c) <$> l.

(** The channel and the contacts the duplicate check of the contact
    controller resolves to: the requested channel, else the active one, else
    none, in which case every contact is looked at. *)
Definition resolvedChannelId (requested : option string) (s : Store) : option string :=
  if truthyString requested then requested
  else match list_find active (channels s) with
       | Some (_, c) => Some (Channel.id c)
       | None => requested
       end.

Definition resolvedContacts (requested : option string) (s : Store) : list Contact.t :=
  let channelId := resolvedChannelId requested s in
  if truthyString channelId
  then filter (λ c, Contact.channelId c = channelId) (contacts s)
  else contacts s.

(** The statuses of an execution the spec names. *)
Definition executionStatuses : list string :=
  ["running"; "waiting"; "completed"; "failed"].

(** The state of the import loop before its first turn, and the number of
    elements it has filed so far. *)
Definition importStart (existingContacts : list Contact.t) : ImportState :=
  mkImportState (list_to_set (Contact.phone <$> existingContacts)) [] [] [].

Definition filed (st : ImportState) : nat :=
  length (createdContacts st) + length (duplicates st) + length (errors st).

(** The state after a turn that found the element's phone in the set. *)
Definition asDuplicate (contact : ImportItem) (st : ImportState) : ImportState :=
  mkImportState (existingPhones st) (createdContacts st)
    (duplicates st ++ [(contact, "Phone number already exists")]) (errors st).

(** ** Sample stores *)

Definition automationA : Automation.t :=
  Automation.mk "a1" None "Welcome flow" "message_received" (Some "active").
Definition automationB : Automation.t :=
  Automation.mk "a2" None "Follow-up" "keyword" (Some "inactive").
Definition nodeT1 : AutomationNode.t :=
  AutomationNode.mk "r1" "a1" "T1" "trigger" None.
Definition nodeA1 : AutomationNode.t :=
  AutomationNode.mk "r2" "a1" "A1" "action" (Some "send_message").
Definition edgeT1A1 : AutomationEdge.t :=
  AutomationEdge.mk "e1" "a1" "T1" "A1" None.
Definition executionX1 : InsertAutomationExecution :=
  mkInsertAutomationExecution "a1" None None "running" (Some "T1") None None None.
Definition logL1 : AutomationExecutionLog.t :=
  AutomationExecutionLog.mk "l1" "x1" "T1" "trigger" "started" None.
Definition logL2 : AutomationExecutionLog.t :=
  AutomationExecutionLog.mk "l2" "x1" "T1" "trigger" "completed" None.

(** An automation with two nodes, one edge, and one execution with its two
    log entries. *)
Definition sampleRun : list Stmt :=
  [ StInsertAutomation automationA;
    StInsertAutomationNode nodeT1;
    StInsertAutomationNode nodeA1;
    StInsertAutomationEdge edgeT1A1;
    StInsertAutomationExecution "x1" executionX1;
    StInsertAutomationExecutionLog logL1;
    StInsertAutomationExecutionLog logL2 ].

Definition sampleStore : Store := run sampleRun emptyStore.

(** Two channels, the first of them active, and one contact of it. *)
Definition channelC1 : Channel.t :=
  Channel.mk "c1" "Main" "1001" "token-1" (Some true) (Some "healthy").
Definition channelC2 : Channel.t :=
  Channel.mk "c2" "Second" "1002" "token-2" (Some false) None.
Definition contactK0 : Contact.t :=
  Contact.mk "k0" (Some "c1") "Zoe" "+100" None (Some "active").
Definition channelStore : Store :=
  set_contacts [contactK0] (set_channels [channelC1; channelC2] emptyStore).

Definition newChannelBody : ChannelBody :=
  mkChannelBody (JsString "Third") (JsString "1003") (JsString "token-3")
    (JsBoolean true) JsUndefined.

Definition annBody : ContactBody :=
  mkContactBody JsUndefined (JsString "Ann") (JsString "+1") JsUndefined
    JsUndefined.
Definition zoeBody : ContactBody :=
  mkContactBody JsUndefined (JsString "Zoe again") (JsString "+100") JsUndefined
    JsUndefined.

(** The phone of [annBody], but no name: the insert schema rejects it. *)
Definition namelessBody : ContactBody :=
  mkContactBody JsUndefined JsUndefined (JsString "+1") JsUndefined JsUndefined.

(** The sample run followed by a second automation with an execution and a
    log entry of its own. *)
Definition executionX3 : InsertAutomationExecution :=
  mkInsertAutomationExecution "a2" None None "running" None None None None.
Definition logL3 : AutomationExecutionLog.t :=
  AutomationExecutionLog.mk "l3" "x3" "B1" "trigger" "started" None.

Definition twoRuns : list Stmt :=
  sampleRun ++ [StInsertAutomation automationB;
                StInsertAutomationExecution "x3" executionX3;
                StInsertAutomationExecutionLog logL3].

(** A second automation, and an edge filed under it that joins the two
    nodes of the first. *)
Definition crossEdge : AutomationEdge.t :=
  AutomationEdge.mk "e9" "a2" "T1" "A1" None.

Definition crossRun : list Stmt :=
  sampleRun ++ [StInsertAutomation automationB; StInsertAutomationEdge crossEdge].

(** An edge to a node that is not stored, and a node that repeats the
    identifier of a stored node of its automation. *)
Definition danglingEdge : AutomationEdge.t :=
  AutomationEdge.mk "e7" "a1" "T1" "Z9" None.

Definition repeatedNode : AutomationNode.t :=
  AutomationNode.mk "r7" "a1" "T1" "action" None.

(** ** Predicates of the further properties *)

(** The stored contacts a delete of [ids] removes, the conversations that
    go with them, and whether an execution still refers to one of either. *)
Definition goneContactIds (ids : list string) (s : Store) : list string :=
  Contact.id <$> filter (λ c, Contact.id c ∈ ids) (contacts s).

Definition goneConversationIds (ids : list string) (s : Store) : list string :=
  Conversation.id <$>
    filter (λ c, refersTo (Conversation.contactId c) (goneContactIds ids s))
      (conversations s).

Definition deleteBlocked (ids : list string) (s : Store) : Prop :=
  Exists (λ x, refersTo (AutomationExecution.contactId x) (goneContactIds ids s))
    (automationExecutions s)
  ∨ Exists (λ x, refersTo (AutomationExecution.conversationId x)
                   (goneConversationIds ids s))
      (automationExecutions s).

(** The row [createChannel] answers with, given what the health request
    came back with, and the status [checkChannelHealth] reports. *)
Definition afterHealthCheck (health : HealthResponse) (c : Channel.t) : Channel.t :=
  match health with
  | ResponseOk => patchChannel (setHealthStatus "healthy") c
  | ResponseNotOk => patchChannel (setHealthStatus "error") c
  | FetchThrew => c
  end.

Definition reportedStatus (health : HealthResponse) : string :=
  match health with
  | ResponseOk => "healthy"
  | ResponseNotOk | FetchThrew => "error"
  end.

(** The foreign keys around contacts hold: contacts lie in stored channels,
    conversations and executions refer to stored contacts, contact ids are
    unique, and no two contacts of one channel share a phone. *)
Record contactIntegrity (s : Store) : Prop := mkContactIntegrity {
  ci_contact_pk : NoDup (Contact.id <$> contacts s);
  ci_contact_channel :
    ∀ c, c ∈ contacts s → refOk (Contact.channelId c) (Channel.id <$> channels s);
  ci_contact_unique :
    ∀ c1 c2, c1 ∈ contacts s → c2 ∈ contacts s →
      contactConflict c1 c2 → c1 = c2;
  ci_conversation_contact :
    ∀ c, c ∈ conversations s →
      refOk (Conversation.contactId c) (Contact.id <$> contacts s);
  ci_execution_contact :
    ∀ x, x ∈ automationExecutions s →
      refOk (AutomationExecution.contactId x) (Contact.id <$> contacts s)
}.

(** [sub] occurs in [s]. *)
Definition occursIn (sub s : string) : Prop :=
  ∃ pre post : string, s = (pre +:+ sub +:+ post)%string.

(** The contacts [getContacts] starts from: those of the requested channel,
    or all when no channel is requested. *)
Definition contactsOf (channelId : option string) (s : Store) : list Contact.t :=
  if truthyString channelId
  then filter (λ c, Contact.channelId c = channelId) (contacts s)
  else contacts s.

(** A second contact of the sample channel, and the body that gives a
    contact the phone of the first. *)
Definition contactK1 : Contact.t :=
  Contact.mk "k1" (Some "c1") "Ann" "+1" None (Some "active").
Definition twoContactsStore : Store :=
  set_contacts [contactK0; contactK1] channelStore.

(** A conversation of the sample contact, and an execution that refers to
    the contact. *)
Definition conversationV1 : Conversation.t :=
  Conversation.mk "v1" (Some "c1") (Some "k0").
Definition conversationStore : Store :=
  set_conversations [conversationV1] channelStore.
Definition executionOfK0 : AutomationExecution.t :=
  AutomationExecution.mk "x9" "a1" (Some "k0") None "running" None [] None None.
Definition referencedStore : Store :=
  set_automationExecutions [executionOfK0]
    (set_automations [automationA] conversationStore).

(** * Properties *)

Local Open Scope list_scope.

(** ** Lists of rows and their keys *)

Section keys.
Context {A B : Type} (f : A → B).

Lemma NoDup_fmap_snoc (l : list A) (x : A) :
  NoDup (f <$> l) → f x ∉ f <$> l → NoDup (f <$> (l ++ [x])).
Proof.
  intros Hl Hx. rewrite fmap_app. apply NoDup_app. split; [done|]. split.
  - intros y Hy Hin. apply list_elem_of_singleton in Hin. by subst.
  - apply NoDup_singleton.
Qed.

Lemma elem_of_fmap_snoc (l : list A) (x : A) (y : B) :
  y ∈ f <$> l → y ∈ f <$> (l ++ [x]).
Proof. rewrite fmap_app, elem_of_app. by left. Qed.

Lemma NoDup_fmap_filter (P : A → Prop) `{∀ x, Decision (P x)} (l : list A) :
  NoDup (f <$> l) → NoDup (f <$> filter P l).
Proof.
  induction l as [|a l IH]; [done|].
  rewrite fmap_cons, NoDup_cons. intros [Ha Hl].
  rewrite filter_cons. case_decide; [|by apply IH].
  rewrite fmap_cons, NoDup_cons. split; [|by apply IH].
  intros Hin. apply Ha.
  apply list_elem_of_fmap in Hin as (a' & -> & Hin).
  apply list_elem_of_filter in Hin as [_ Hin].
  by apply list_elem_of_fmap_2.
Qed.

Lemma elem_of_fmap_filter (P : A → Prop) `{∀ x, Decision (P x)} (l : list A) (y : B) :
  y ∈ f <$> filter P l ↔ ∃ x, y = f x ∧ P x ∧ x ∈ l.
Proof.
  rewrite list_elem_of_fmap. split.
  - intros (x & -> & [HP Hx]%list_elem_of_filter). eauto.
  - intros (x & -> & HP & Hx). exists x. split; [done|].
    by apply list_elem_of_filter.
Qed.

Lemma filter_nil_iff (P : A → Prop) `{∀ x, Decision (P x)} (l : list A) :
  filter P l = [] ↔ ∀ x, x ∈ l → ¬ P x.
Proof.
  split.
  - intros Hnil x Hx HP.
    assert (x ∈ filter P l) as Hin by by apply list_elem_of_filter.
    rewrite Hnil in Hin. by apply not_elem_of_nil in Hin.
  - intros Hall. induction l as [|a l IH]; [done|].
    rewrite filter_cons. case_decide as HP.
    + exfalso. eapply Hall; [|done]. by left.
    + apply IH. intros x Hx. apply Hall. by right.
Qed.

End keys.

Lemma NoDup_fmap_elem_inj {A B : Type} (f : A → B) (l : list A) (x y : A) :
  NoDup (f <$> l) → x ∈ l → y ∈ l → f x = f y → x = y.
Proof.
  induction l as [|a l IH]; intros Hnd Hx Hy Hf.
  - by apply not_elem_of_nil in Hx.
  - rewrite fmap_cons in Hnd. apply NoDup_cons in Hnd as [Ha Hnd].
    apply elem_of_cons in Hx as [->|Hx]; apply elem_of_cons in Hy as [->|Hy];
      auto.
    + exfalso. apply Ha. rewrite Hf. by apply list_elem_of_fmap_2.
    + exfalso. apply Ha. rewrite <- Hf. by apply list_elem_of_fmap_2.
Qed.

(** ** Statements that pass their checks *)

Lemma require_Ok {A : Type} (P : Prop) `{Decision P} (e : DbError)
    (k : Result A) (a : A) :
  (require P e;; k) = Ok a ↔ P ∧ k = Ok a.
Proof.
  unfold require. case_decide; simpl.
  - split; [by intros ->|by intros [_ ->]].
  - split; [discriminate|tauto].
Qed.

Ltac requires H :=
  repeat match type of H with
         | mbind _ (require _ _) = Ok _ =>
             apply require_Ok in H; destruct H as [? H]
         end;
  injection H as <-.

Lemma deleteAutomation_eq (aid : string) (s : Store) :
  deleteAutomation aid s =
  Ok (mkStore (channels s) (contacts s) (conversations s)
        (filter (λ a, Automation.id a ≠ aid) (automations s))
        (filter (λ n, ¬ AutomationNode.automationId n = aid) (automationNodes s))
        (filter (λ e, ¬ AutomationEdge.targetNodeId e
                        ∈ AutomationNode.nodeId <$> nodesOf aid s)
           (filter (λ e, ¬ AutomationEdge.sourceNodeId e
                           ∈ AutomationNode.nodeId <$> nodesOf aid s)
              (filter (λ e, ¬ AutomationEdge.automationId e = aid)
                 (automationEdges s))))
        (filter (λ x, ¬ AutomationExecution.automationId x = aid)
           (automationExecutions s))
        (filter (λ l, ¬ AutomationExecutionLog.executionId l
                        ∈ AutomationExecution.id <$> executionsOf aid s)
           (automationExecutionLogs s))).
Proof. done. Qed.

Lemma deleteAutomationNode_eq (rowId : string) (s : Store) :
  deleteAutomationNode rowId s =
  Ok (set_automationEdges
        (filter (λ e, ¬ AutomationEdge.targetNodeId e
                        ∈ AutomationNode.nodeId <$>
                            filter (λ n, AutomationNode.id n = rowId)
                              (automationNodes s))
           (filter (λ e, ¬ AutomationEdge.sourceNodeId e
                           ∈ AutomationNode.nodeId <$>
                               filter (λ n, AutomationNode.id n = rowId)
                                 (automationNodes s))
              (automationEdges s)))
        (set_automationNodes
           (filter (λ n, AutomationNode.id n ≠ rowId) (automationNodes s)) s)).
Proof. done. Qed.

Lemma deleteAutomationExecution_eq (xid : string) (s : Store) :
  deleteAutomationExecution xid s =
  Ok (set_automationExecutionLogs
        (filter (λ l, ¬ AutomationExecutionLog.executionId l
                        ∈ AutomationExecution.id <$>
                            filter (λ x, AutomationExecution.id x = xid)
                              (automationExecutions s))
           (automationExecutionLogs s))
        (set_automationExecutions
           (filter (λ x, AutomationExecution.id x ≠ xid)
              (automationExecutions s)) s)).
Proof. done. Qed.

(** ** The constraints keep the automation tables consistent *)

Lemma integrity_empty : integrity emptyStore.
Proof. split; simpl; try apply NoDup_nil_2; intros ? Hin; by apply not_elem_of_nil in Hin. Qed.

Lemma insertAutomation_integrity (a : Automation.t) (s s' : Store) :
  integrity s → insertAutomation a s = Ok s' → integrity s'.
Proof.
  intros [] H. unfold insertAutomation in H. requires H.
  split; simpl; auto using NoDup_fmap_snoc, elem_of_fmap_snoc.
Qed.

Lemma insertAutomationNode_integrity (n : AutomationNode.t) (s s' : Store) :
  integrity s → insertAutomationNode n s = Ok s' → integrity s'.
Proof.
  intros [] H. unfold insertAutomationNode in H. requires H.
  split; simpl; auto using NoDup_fmap_snoc, elem_of_fmap_snoc.
  intros m [Hm | Hm%list_elem_of_singleton]%elem_of_app; [auto|by subst].
Qed.

Lemma insertAutomationEdge_integrity (e : AutomationEdge.t) (s s' : Store) :
  integrity s → insertAutomationEdge e s = Ok s' → integrity s'.
Proof.
  intros [] H. unfold insertAutomationEdge in H. requires H.
  split; simpl; auto using NoDup_fmap_snoc;
    intros m [Hm | Hm%list_elem_of_singleton]%elem_of_app; subst; auto.
Qed.

Lemma insertAutomationExecution_integrity (newId : string)
    (v : InsertAutomationExecution) (s s' : Store) :
  integrity s → insertAutomationExecution newId v s = Ok s' → integrity s'.
Proof.
  intros [] H. unfold insertAutomationExecution, insertAutomationExecutionRow in H.
  requires H.
  split; simpl; auto using NoDup_fmap_snoc, elem_of_fmap_snoc.
  intros m [Hm | Hm%list_elem_of_singleton]%elem_of_app; subst; auto.
Qed.

Lemma insertAutomationExecutionLog_integrity (l : AutomationExecutionLog.t)
    (s s' : Store) :
  integrity s → insertAutomationExecutionLog l s = Ok s' → integrity s'.
Proof.
  intros [] H. unfold insertAutomationExecutionLog in H. requires H.
  split; simpl; auto using NoDup_fmap_snoc.
  intros m [Hm | Hm%list_elem_of_singleton]%elem_of_app; subst; auto.
Qed.

(** A key that survives a delete of other keys is still there. *)
Lemma surviving_key {A : Type} (f : A → string) (P : A → Prop)
    `{∀ x, Decision (P x)} (l : list A) (k : string) :
  k ∈ f <$> l → (∀ x, x ∈ l → f x = k → P x) → k ∈ f <$> filter P l.
Proof.
  intros (x & -> & Hx)%list_elem_of_fmap HP.
  apply elem_of_fmap_filter. exists x. auto.
Qed.

Lemma deleteAutomation_integrity (aid : string) (s s' : Store) :
  integrity s → deleteAutomation aid s = Ok s' → integrity s'.
Proof.
  intros [] H. rewrite deleteAutomation_eq in H. injection H as <-.
  split; simpl; auto using NoDup_fmap_filter.
  - intros n [Hn Hin]%list_elem_of_filter.
    apply surviving_key; [auto|]. intros a _ Ha. congruence.
  - intros e Hin. repeat (apply list_elem_of_filter in Hin as [? Hin]).
    apply surviving_key; [auto|]. intros a _ Ha. congruence.
  - intros e Hin. repeat (apply list_elem_of_filter in Hin as [? Hin]).
    apply surviving_key; [auto|]. intros n Hn Hk Haid.
    match goal with Hs : ¬ AutomationEdge.sourceNodeId e ∈ _ |- _ => apply Hs end.
    rewrite <- Hk. apply list_elem_of_fmap_2. by apply list_elem_of_filter.
  - intros e Hin. repeat (apply list_elem_of_filter in Hin as [? Hin]).
    apply surviving_key; [auto|]. intros n Hn Hk Haid.
    match goal with Hs : ¬ AutomationEdge.targetNodeId e ∈ _ |- _ => apply Hs end.
    rewrite <- Hk. apply list_elem_of_fmap_2. by apply list_elem_of_filter.
  - intros x [Hx Hin]%list_elem_of_filter.
    apply surviving_key; [auto|]. intros a _ Ha. congruence.
  - intros l [Hl Hin]%list_elem_of_filter.
    apply surviving_key; [auto|]. intros x Hx Hk Haid. apply Hl.
    rewrite <- Hk. apply list_elem_of_fmap_2. by apply list_elem_of_filter.
Qed.

Lemma deleteAutomationNode_integrity (rowId : string) (s s' : Store) :
  integrity s → deleteAutomationNode rowId s = Ok s' → integrity s'.
Proof.
  intros [] H. rewrite deleteAutomationNode_eq in H. injection H as <-.
  split; simpl; auto using NoDup_fmap_filter.
  - intros n [_ Hin]%list_elem_of_filter. auto.
  - intros e Hin. repeat (apply list_elem_of_filter in Hin as [? Hin]). auto.
  - intros e Hin. repeat (apply list_elem_of_filter in Hin as [? Hin]).
    apply surviving_key; [auto|]. intros n Hn Hk Hid.
    match goal with Hs : ¬ AutomationEdge.sourceNodeId e ∈ _ |- _ => apply Hs end.
    rewrite <- Hk. apply list_elem_of_fmap_2. by apply list_elem_of_filter.
  - intros e Hin. repeat (apply list_elem_of_filter in Hin as [? Hin]).
    apply surviving_key; [auto|]. intros n Hn Hk Hid.
    match goal with Hs : ¬ AutomationEdge.targetNodeId e ∈ _ |- _ => apply Hs end.
    rewrite <- Hk. apply list_elem_of_fmap_2. by apply list_elem_of_filter.
Qed.

Lemma deleteAutomationEdge_integrity (rowId : string) (s s' : Store) :
  integrity s → deleteAutomationEdge rowId s = Ok s' → integrity s'.
Proof.
  intros [] H. injection H as <-.
  split; simpl; auto using NoDup_fmap_filter;
    intros e [_ Hin]%list_elem_of_filter; auto.
Qed.

Lemma deleteAutomationExecution_integrity (xid : string) (s s' : Store) :
  integrity s → deleteAutomationExecution xid s = Ok s' → integrity s'.
Proof.
  intros [] H. rewrite deleteAutomationExecution_eq in H. injection H as <-.
  split; simpl; auto using NoDup_fmap_filter.
  - intros x [_ Hin]%list_elem_of_filter. auto.
  - intros l [Hl Hin]%list_elem_of_filter.
    apply surviving_key; [auto|]. intros x Hx Hk Hid. apply Hl.
    rewrite <- Hk. apply list_elem_of_fmap_2. by apply list_elem_of_filter.
Qed.

Lemma deleteAutomationExecutionLog_integrity (rowId : string) (s s' : Store) :
  integrity s → deleteAutomationExecutionLog rowId s = Ok s' → integrity s'.
Proof.
  intros [] H. injection H as <-.
  split; simpl; auto using NoDup_fmap_filter.
  intros l [_ Hin]%list_elem_of_filter. auto.
Qed.

Lemma patchExecution_id (p : AutomationExecutionPatch) (xid : string)
    (l : list AutomationExecution.t) :
  AutomationExecution.id <$>
    ((λ x, if decide (AutomationExecution.id x = xid)
           then patchExecution p x else x) <$> l)
  = AutomationExecution.id <$> l.
Proof.
  rewrite <- list_fmap_compose. apply list_fmap_ext.
  intros i x _. simpl. by case_decide.
Qed.

Lemma updateAutomationExecution_integrity (xid : string)
    (p : AutomationExecutionPatch) (s s' : Store) :
  integrity s → updateAutomationExecution xid p s = Ok s' → integrity s'.
Proof.
  intros [] H. injection H as <-.
  split; simpl; auto; try by rewrite patchExecution_id.
  intros x (y & -> & Hy)%list_elem_of_fmap.
  case_decide; simpl; auto.
Qed.

Lemma exec_integrity (st : Stmt) (s s' : Store) :
  integrity s → exec st s = Ok s' → integrity s'.
Proof.
  destruct st; simpl.
  - intros [] H. unfold insertChannelRow in H. requires H. by split.
  - intros [] H. unfold insertContactRow in H. requires H. by split.
  - intros [] H. unfold insertConversation in H. requires H. by split.
  - apply insertAutomation_integrity.
  - apply insertAutomationNode_integrity.
  - apply insertAutomationEdge_integrity.
  - apply insertAutomationExecution_integrity.
  - apply insertAutomationExecutionLog_integrity.
  - apply deleteAutomation_integrity.
  - apply deleteAutomationNode_integrity.
  - apply deleteAutomationEdge_integrity.
  - apply deleteAutomationExecution_integrity.
  - apply deleteAutomationExecutionLog_integrity.
  - apply updateAutomationExecution_integrity.
  - intros [] H. injection H as <-. by split.
Qed.

Lemma commit_integrity (st : Stmt) (s : Store) :
  integrity s → integrity (commit st s).
Proof.
  intros Hs. unfold commit. destruct (exec st s) eqn:E; [|done].
  by eapply exec_integrity.
Qed.

Lemma reachable_integrity (s : Store) : reachable s → integrity s.
Proof. induction 1; auto using integrity_empty, commit_integrity. Qed.

Lemma run_reachable (sts : list Stmt) (s : Store) :
  reachable s → reachable (run sts s).
Proof.
  revert s. induction sts as [|st sts IH]; intros s Hs; [done|].
  simpl. apply IH. by constructor.
Qed.

(** ** Deleting an automation *)

Lemma deleteAutomation_leaves_nothing (aid : string) (s s' : Store) :
  deleteAutomation aid s = Ok s' →
  filter (λ a, Automation.id a = aid) (automations s') = []
  ∧ nodesOf aid s' = []
  ∧ edgesOf aid s' = []
  ∧ executionsOf aid s' = []
  ∧ filter (λ e, AutomationEdge.sourceNodeId e
                   ∈ AutomationNode.nodeId <$> nodesOf aid s
                 ∨ AutomationEdge.targetNodeId e
                   ∈ AutomationNode.nodeId <$> nodesOf aid s)
      (automationEdges s') = [].
Proof.
  rewrite deleteAutomation_eq. intros [= <-].
  repeat split; unfold nodesOf, edgesOf, executionsOf; simpl;
    apply filter_nil_iff.
  - intros a [Ha _]%list_elem_of_filter. done.
  - intros n [Hn _]%list_elem_of_filter. done.
  - intros e Hin. repeat (apply list_elem_of_filter in Hin as [? Hin]). done.
  - intros x [Hx _]%list_elem_of_filter. done.
  - intros e Hin. repeat (apply list_elem_of_filter in Hin as [? Hin]).
    unfold nodesOf in *. tauto.
Qed.

(** C5. Deleting an automation always succeeds and removes the automation
    together with every node and every edge that references it: afterwards
    the automation has no node and no edge left, and no edge starts or ends
    at one of its former nodes. *)
Theorem deleteAutomation_cascades_to_graph (aid : string) (s : Store) :
  ∃ s', deleteAutomation aid s = Ok s'
    ∧ filter (λ a, Automation.id a = aid) (automations s') = []
    ∧ nodesOf aid s' = []
    ∧ edgesOf aid s' = []
    ∧ filter (λ e, AutomationEdge.sourceNodeId e
                     ∈ AutomationNode.nodeId <$> nodesOf aid s
                   ∨ AutomationEdge.targetNodeId e
                     ∈ AutomationNode.nodeId <$> nodesOf aid s)
        (automationEdges s') = [].
Proof.
  eexists. split; [apply deleteAutomation_eq|].
  edestruct deleteAutomation_leaves_nothing as (Ha & Hn & He & _ & Hd);
    [apply deleteAutomation_eq|].
  by repeat split.
Qed.

(** C1, as stated, fails: in the sample store the execution [x1] of
    automation [a1] has two log entries, and deleting [a1] deletes them. *)
Lemma deleteAutomation_drops_the_logs :
  reachable sampleStore
  ∧ AutomationExecution.automationId <$> findExecution "x1" sampleStore = Some "a1"
  ∧ logsOf "x1" sampleStore = [logL1; logL2]
  ∧ ∃ s', deleteAutomation "a1" sampleStore = Ok s'
      ∧ logsOf "x1" s' = []
      ∧ automationExecutionLogs s' = [].
Proof.
  split; [apply run_reachable, reachable_empty|].
  split; [by vm_compute|]. split; [by vm_compute|].
  eexists. split; [apply deleteAutomation_eq|]. by vm_compute.
Qed.

(** C1, amended. Deleting an automation removes its nodes, its edges and
    also its executions, and with each deleted execution its log entries;
    the log entries that remain are exactly those of the executions that were
    not deleted, so in a store the statements reach every execution of
    another automation keeps its log entries.  Deleting one execution
    likewise removes exactly its own log entries.  So a cascade removes a log
    entry only together with the execution that owns it. *)
Theorem deleteAutomation_cascades_to_executions (aid : string) (s : Store) :
  (∃ s', deleteAutomation aid s = Ok s'
     ∧ nodesOf aid s' = []
     ∧ edgesOf aid s' = []
     ∧ executionsOf aid s' = []
     ∧ automationExecutions s'
       = filter (λ x, AutomationExecution.automationId x ≠ aid)
           (automationExecutions s)
     ∧ automationExecutionLogs s'
       = filter (λ l, AutomationExecutionLog.executionId l
                        ∉ AutomationExecution.id <$> executionsOf aid s)
           (automationExecutionLogs s)
     ∧ (reachable s →
        ∀ x, x ∈ automationExecutions s →
          AutomationExecution.automationId x ≠ aid →
          x ∈ automationExecutions s'
          ∧ logsOf (AutomationExecution.id x) s'
            = logsOf (AutomationExecution.id x) s))
  ∧ (∀ xid, ∃ s', deleteAutomationExecution xid s = Ok s'
       ∧ automationExecutions s'
         = filter (λ x, AutomationExecution.id x ≠ xid) (automationExecutions s)
       ∧ automationExecutionLogs s'
         = filter (λ l, AutomationExecutionLog.executionId l
                          ∉ AutomationExecution.id <$>
                              filter (λ x, AutomationExecution.id x = xid)
                                (automationExecutions s))
             (automationExecutionLogs s)).
Proof.
  split.
  - eexists. split; [apply deleteAutomation_eq|].
    edestruct deleteAutomation_leaves_nothing as (_ & Hn & He & Hx & _);
      [apply deleteAutomation_eq|].
    split; [done|]. split; [done|]. split; [done|].
    split; [done|]. split; [done|].
    intros [] %reachable_integrity x Hin Hne. simpl.
    split; [by apply list_elem_of_filter|].
    unfold logsOf. simpl. rewrite list_filter_filter.
    apply list_filter_iff. intros l. split; [tauto|].
    intros Hl. split; [done|].
    intros (y & Hy & [Hya Hyin]%list_elem_of_filter)%list_elem_of_fmap.
    apply Hne. rewrite <- Hya. f_equal.
    eapply (NoDup_fmap_elem_inj AutomationExecution.id); eauto. congruence.
  - intros xid. eexists. split; [apply deleteAutomationExecution_eq|]. done.
Qed.

Lemma deleteAutomation_cascades_to_executions_witness :
  reachable (run twoRuns emptyStore)
  ∧ ∃ s', deleteAutomation "a1" (run twoRuns emptyStore) = Ok s'
      ∧ logsOf "x1" s' = []
      ∧ logsOf "x3" s' = [logL3].
Proof.
  assert (reachable (run twoRuns emptyStore)) as Hr
    by apply run_reachable, reachable_empty.
  split; [exact Hr|].
  destruct (proj1 (deleteAutomation_cascades_to_executions "a1"
                     (run twoRuns emptyStore)))
    as (s' & Heq & _ & _ & _ & _ & Hlogs & Hkeep).
  exists s'. split; [exact Heq|]. split.
  - unfold logsOf. rewrite Hlogs. by vm_compute.
  - destruct (Hkeep Hr (executionRow "x3" executionX3)) as [_ Hsame].
    + vm_compute. right. by left.
    + discriminate.
    + simpl in Hsame. rewrite Hsame. by vm_compute.
Defined.

(** ** Edges and their endpoints *)

(** C3, as stated, fails: an edge is stored under automation [a2] although
    both of its endpoints are nodes of automation [a1]; [a2] has no node. *)
Lemma edge_joins_nodes_of_another_automation :
  reachable (run crossRun emptyStore)
  ∧ automationEdges (run crossRun emptyStore) = [edgeT1A1; crossEdge]
  ∧ AutomationEdge.automationId crossEdge = "a2"
  ∧ nodesOf "a2" (run crossRun emptyStore) = []
  ∧ ¬ ∃ n, n ∈ nodesOf (AutomationEdge.automationId crossEdge)
                  (run crossRun emptyStore)
           ∧ AutomationNode.nodeId n = AutomationEdge.sourceNodeId crossEdge.
Proof.
  split; [apply run_reachable, reachable_empty|].
  split; [by vm_compute|]. split; [done|].
  assert (nodesOf "a2" (run crossRun emptyStore) = []) as Hn by by vm_compute.
  split; [done|]. intros (n & Hin & _).
  change (AutomationEdge.automationId crossEdge) with "a2" in Hin.
  rewrite Hn in Hin. by apply not_elem_of_nil in Hin.
Qed.

(** C3, amended. In every store the statements reach, the automation of
    every edge is stored and both endpoints of the edge are node identifiers
    of stored nodes (of whichever automation); inserting an edge whose
    automation or one of whose endpoints is not stored is rejected and
    changes nothing. *)
Theorem edge_endpoints_are_stored_nodes (s : Store) :
  reachable s →
  (∀ e, e ∈ automationEdges s →
     AutomationEdge.automationId e ∈ Automation.id <$> automations s
     ∧ AutomationEdge.sourceNodeId e ∈ AutomationNode.nodeId <$> automationNodes s
     ∧ AutomationEdge.targetNodeId e ∈ AutomationNode.nodeId <$> automationNodes s)
  ∧ (∀ e,
       ¬ (AutomationEdge.automationId e ∈ Automation.id <$> automations s
          ∧ AutomationEdge.sourceNodeId e
              ∈ AutomationNode.nodeId <$> automationNodes s
          ∧ AutomationEdge.targetNodeId e
              ∈ AutomationNode.nodeId <$> automationNodes s) →
       (∃ err, insertAutomationEdge e s = Err err)
       ∧ commit (StInsertAutomationEdge e) s = s).
Proof.
  intros [] %reachable_integrity. split; [auto|].
  intros e Hbad.
  assert (∃ err, insertAutomationEdge e s = Err err) as [err Herr].
  { destruct (insertAutomationEdge e s) as [s'|err] eqn:E; [|by eexists].
    exfalso. apply Hbad. unfold insertAutomationEdge in E.
    repeat match type of E with
           | mbind _ (require _ _) = Ok _ =>
               apply require_Ok in E; destruct E as [? E]
           end.
    auto. }
  split; [by eexists|]. unfold commit. simpl. by rewrite Herr.
Qed.

Lemma edge_endpoints_are_stored_nodes_witness :
  reachable sampleStore
  ∧ (∀ e, e ∈ automationEdges sampleStore →
       AutomationEdge.automationId e ∈ Automation.id <$> automations sampleStore
       ∧ AutomationEdge.sourceNodeId e
           ∈ AutomationNode.nodeId <$> automationNodes sampleStore
       ∧ AutomationEdge.targetNodeId e
           ∈ AutomationNode.nodeId <$> automationNodes sampleStore)
  ∧ (∃ err, insertAutomationEdge danglingEdge sampleStore = Err err)
  ∧ commit (StInsertAutomationEdge danglingEdge) sampleStore = sampleStore.
Proof.
  assert (reachable sampleStore) as Hr by apply run_reachable, reachable_empty.
  split; [exact Hr|].
  destruct (edge_endpoints_are_stored_nodes sampleStore Hr) as [Hall Hrej].
  split; [exact Hall|].
  apply Hrej. intros (_ & _ & Hin). vm_compute in Hin.
  apply list_elem_of_In in Hin. simpl in Hin. intuition discriminate.
Defined.

(** ** Node identifiers *)

(** C6. In every store the statements reach, the node identifiers of the
    nodes of an automation are pairwise distinct, and inserting a node whose
    identifier a node of the same automation already has is rejected and
    changes nothing. *)
Theorem node_identifiers_unique_per_automation (s : Store) :
  reachable s →
  (∀ aid, NoDup (AutomationNode.nodeId <$> nodesOf aid s))
  ∧ (∀ aid n1 n2, n1 ∈ nodesOf aid s → n2 ∈ nodesOf aid s →
       AutomationNode.nodeId n1 = AutomationNode.nodeId n2 → n1 = n2)
  ∧ (∀ n m, m ∈ nodesOf (AutomationNode.automationId n) s →
       AutomationNode.nodeId m = AutomationNode.nodeId n →
       (∃ err, insertAutomationNode n s = Err err)
       ∧ commit (StInsertAutomationNode n) s = s).
Proof.
  intros [] %reachable_integrity.
  assert (∀ aid, NoDup (AutomationNode.nodeId <$> nodesOf aid s)) as Hnd.
  { intros aid. by apply NoDup_fmap_filter. }
  split; [done|]. split.
  - intros aid n1 n2 H1 H2 Heq.
    exact (NoDup_fmap_elem_inj AutomationNode.nodeId _ n1 n2 (Hnd aid) H1 H2 Heq).
  - intros n m [_ Hm]%list_elem_of_filter Heq.
    assert (∃ err, insertAutomationNode n s = Err err) as [err Herr].
    { destruct (insertAutomationNode n s) as [s'|err] eqn:E; [|by eexists].
      exfalso. unfold insertAutomationNode in E.
      repeat match type of E with
             | mbind _ (require _ _) = Ok _ =>
                 apply require_Ok in E; destruct E as [? E]
             end.
      match goal with
      | Hn : AutomationNode.nodeId n ∉ _ |- _ => apply Hn
      end.
      rewrite <- Heq. by apply list_elem_of_fmap_2. }
    split; [by eexists|]. unfold commit. simpl. by rewrite Herr.
Qed.

Lemma node_identifiers_unique_per_automation_witness :
  reachable sampleStore
  ∧ (∀ aid, NoDup (AutomationNode.nodeId <$> nodesOf aid sampleStore))
  ∧ (∃ err, insertAutomationNode repeatedNode sampleStore = Err err)
  ∧ commit (StInsertAutomationNode repeatedNode) sampleStore = sampleStore.
Proof.
  assert (reachable sampleStore) as Hr by apply run_reachable, reachable_empty.
  split; [exact Hr|].
  destruct (node_identifiers_unique_per_automation sampleStore Hr)
    as (Hnd & _ & Hrej).
  split; [exact Hnd|].
  apply (Hrej repeatedNode nodeT1); [|reflexivity].
  vm_compute. by left.
Defined.

(** ** Trigger nodes *)

(** C7, as stated, fails: an automation is stored without any node. *)
Lemma automation_without_trigger_node :
  reachable (run [StInsertAutomation automationA] emptyStore)
  ∧ automations (run [StInsertAutomation automationA] emptyStore) = [automationA]
  ∧ ¬ hasTriggerNode (Automation.id automationA)
        (run [StInsertAutomation automationA] emptyStore).
Proof.
  split; [apply run_reachable, reachable_empty|].
  split; [by vm_compute|].
  intros (n & Hin & _). vm_compute in Hin. by apply not_elem_of_nil in Hin.
Qed.

(** C7, amended. An automation records its trigger in its own [trigger]
    column; the store asks for no node of type trigger: an accepted insert of
    an automation stores the row as given, leaves the node table as it was,
    and the new automation has no node at all. *)
Theorem new_automation_has_no_nodes (s s' : Store) (a : Automation.t) :
  reachable s →
  insertAutomation a s = Ok s' →
  automations s' = automations s ++ [a]
  ∧ automationNodes s' = automationNodes s
  ∧ nodesOf (Automation.id a) s' = []
  ∧ ¬ hasTriggerNode (Automation.id a) s'.
Proof.
  intros [] %reachable_integrity H. unfold insertAutomation in H. requires H.
  simpl.
  assert (nodesOf (Automation.id a)
            (set_automations (automations s ++ [a]) s) = []) as Hn.
  { apply filter_nil_iff. intros n Hin Heq. simpl in Hin.
    match goal with
    | Hfresh : Automation.id a ∉ _ |- _ => apply Hfresh
    end.
    rewrite <- Heq. auto. }
  repeat split; try done.
  intros (n & Hin & _). rewrite Hn in Hin. by apply not_elem_of_nil in Hin.
Qed.

Lemma new_automation_has_no_nodes_witness :
  reachable sampleStore
  ∧ insertAutomation automationB sampleStore
    = Ok (set_automations (automations sampleStore ++ [automationB]) sampleStore)
  ∧ nodesOf "a2" (set_automations (automations sampleStore ++ [automationB])
                    sampleStore) = [].
Proof.
  assert (reachable sampleStore) as Hr by apply run_reachable, reachable_empty.
  assert (insertAutomation automationB sampleStore
          = Ok (set_automations (automations sampleStore ++ [automationB])
                  sampleStore)) as Hi by by vm_compute.
  split; [exact Hr|]. split; [exact Hi|].
  exact (proj1 (proj2 (proj2
           (new_automation_has_no_nodes _ _ automationB Hr Hi)))).
Defined.

(** ** Looking up a row by its key *)

Lemma find_snoc_fresh {A : Type} (P : A → Prop) `{∀ x, Decision (P x)}
    (l : list A) (x : A) :
  (∀ y, y ∈ l → ¬ P y) → P x → snd <$> list_find P (l ++ [x]) = Some x.
Proof.
  intros Hl Hx. rewrite list_find_app_r.
  - simpl. by rewrite decide_True.
  - apply list_find_None, Forall_forall. exact Hl.
Qed.

(** ** The status machine of the execution engine *)

Lemma findExecution_Some (xid : string) (s : Store) (x : AutomationExecution.t) :
  findExecution xid s = Some x →
  x ∈ automationExecutions s ∧ AutomationExecution.id x = xid.
Proof.
  unfold findExecution.
  destruct (list_find _ (automationExecutions s)) as [[i y]|] eqn:E; [|done].
  intros [= <-]. apply list_find_Some in E as (Hl & Hid & _).
  split; [by eapply list_elem_of_lookup_2|done].
Qed.

Lemma findExecution_stored (s : Store) (x : AutomationExecution.t) :
  NoDup (AutomationExecution.id <$> automationExecutions s) →
  x ∈ automationExecutions s →
  findExecution (AutomationExecution.id x) s = Some x.
Proof.
  intros Hnd Hx. unfold findExecution.
  destruct (list_find (λ y, AutomationExecution.id y = AutomationExecution.id x)
              (automationExecutions s)) as [[i y]|] eqn:E.
  - apply list_find_Some in E as (Hl & Hid & _). simpl. f_equal.
    eapply (NoDup_fmap_elem_inj AutomationExecution.id); eauto.
    by eapply list_elem_of_lookup_2.
  - apply list_find_None in E. rewrite Forall_forall in E.
    by destruct (E x Hx).
Qed.

Lemma engine_target_status (status status' : string) (t : engine.Transition) :
  engine.target status t = Some status' → status' ∈ executionStatuses.
Proof.
  unfold engine.target, executionStatuses. repeat case_decide; [| |done].
  - destruct t; intros [= <-]; compute_done.
  - destruct t; intros [= <-]; compute_done.
Qed.

Lemma engine_target_terminal (status : string) (t : engine.Transition) :
  status = "completed" ∨ status = "failed" → engine.target status t = None.
Proof. by intros [-> | ->]. Qed.

Lemma engine_commit_reachable (op : engine.Op) (s : Store) :
  reachable s → reachable (engine.commit op s).
Proof.
  intros Hs. unfold engine.commit. destruct op as [newId aid c v n|xid t].
  - apply (reachable_commit s (StInsertAutomationExecution newId
             (mkInsertAutomationExecution aid c v "running" (Some n)
                None None None)) Hs).
  - simpl. unfold engine.transition.
    destruct (findExecution xid s) as [x|]; [|done].
    destruct (engine.target (AutomationExecution.status x) t) as [st|]; [|done].
    apply (reachable_commit s
             (StUpdateAutomationExecution xid (engine.persisted t st)) Hs).
Qed.

Lemma engine_reached_reachable (s : Store) : engine.reached s → reachable s.
Proof. induction 1; [done|by apply engine_commit_reachable]. Qed.

(** The rows after an operation of the engine: a new running row at the
    end, or the rows with the execution's id taking the status the machine
    allows, or nothing. *)
Lemma engine_commit_rows (op : engine.Op) (s : Store)
    (y : AutomationExecution.t) :
  y ∈ automationExecutions (engine.commit op s) →
  y ∈ automationExecutions s
  ∨ AutomationExecution.status y = "running"
  ∨ ∃ x t, x ∈ automationExecutions s
      ∧ engine.target (AutomationExecution.status x) t
        = Some (AutomationExecution.status y).
Proof.
  unfold engine.commit. destruct op as [newId aid c v n|xid t]; simpl.
  - unfold engine.create.
    destruct (insertAutomationExecution _ _ s) as [s'|e] eqn:E; [|by left].
    unfold insertAutomationExecution, insertAutomationExecutionRow in E.
    requires E. simpl.
    intros [Hy| ->%list_elem_of_singleton]%elem_of_app; [by left|].
    right. by left.
  - unfold engine.transition.
    destruct (findExecution xid s) as [x|] eqn:Hfind; [|by left].
    destruct (engine.target (AutomationExecution.status x) t) as [st|] eqn:Ht;
      [|by left].
    simpl. intros (o & -> & Ho)%list_elem_of_fmap.
    case_decide; [|by left]. right. right.
    apply findExecution_Some in Hfind as [Hx _].
    by exists x, t.
Qed.

(** A transition the machine has is taken: the row of the execution gets
    the new status, under the same id. *)
Lemma engine_transition_taken (s : Store) (x : AutomationExecution.t)
    (t : engine.Transition) (status : string) :
  NoDup (AutomationExecution.id <$> automationExecutions s) →
  x ∈ automationExecutions s →
  engine.target (AutomationExecution.status x) t = Some status →
  ∃ s' x',
    engine.transition (AutomationExecution.id x) t s = Ok s'
    ∧ findExecution (AutomationExecution.id x) s' = Some x'
    ∧ x' ∈ automationExecutions s'
    ∧ AutomationExecution.id x' = AutomationExecution.id x
    ∧ AutomationExecution.status x' = status
    ∧ NoDup (AutomationExecution.id <$> automationExecutions s').
Proof.
  intros Hnd Hx Ht.
  exists (set_automationExecutions
            ((λ y, if decide (AutomationExecution.id y = AutomationExecution.id x)
                   then patchExecution (engine.persisted t status) y else y)
               <$> automationExecutions s) s),
         (patchExecution (engine.persisted t status) x).
  assert (patchExecution (engine.persisted t status) x
          ∈ (λ y, if decide (AutomationExecution.id y = AutomationExecution.id x)
                  then patchExecution (engine.persisted t status) y else y)
              <$> automationExecutions s) as Hin.
  { apply list_elem_of_fmap. exists x. by rewrite decide_True. }
  assert (NoDup (AutomationExecution.id <$>
                   ((λ y, if decide (AutomationExecution.id y
                                     = AutomationExecution.id x)
                          then patchExecution (engine.persisted t status) y
                          else y) <$> automationExecutions s))) as Hnd'
    by by rewrite patchExecution_id.
  split.
  { unfold engine.transition.
    by rewrite (findExecution_stored s x Hnd Hx), Ht. }
  split.
  { change (AutomationExecution.id x)
      with (AutomationExecution.id
              (patchExecution (engine.persisted t status) x)) at 1.
    by apply findExecution_stored. }
  split; [done|]. split; [done|]. split; [done|done].
Qed.

(** C4 (spec-modelled).  In every store whose executions the engine created
    and advanced: the status of every execution is one of running, waiting,
    completed, failed; no operation of the engine changes an execution that
    is completed or failed; and a running execution can be deferred to
    waiting and from there resumed to running, as it can be completed or
    failed. *)
Theorem execution_status_machine (s : Store) :
  engine.reached s →
  (∀ x, x ∈ automationExecutions s →
     AutomationExecution.status x ∈ executionStatuses)
  ∧ (∀ x op,
       x ∈ automationExecutions s →
       AutomationExecution.status x = "completed"
       ∨ AutomationExecution.status x = "failed" →
       findExecution (AutomationExecution.id x) (engine.commit op s) = Some x)
  ∧ (∀ x,
       x ∈ automationExecutions s →
       AutomationExecution.status x = "running" →
       ∃ s1 s2 x1 x2,
         engine.transition (AutomationExecution.id x) engine.Defer s = Ok s1
         ∧ findExecution (AutomationExecution.id x) s1 = Some x1
         ∧ AutomationExecution.status x1 = "waiting"
         ∧ engine.transition (AutomationExecution.id x) engine.Resume s1 = Ok s2
         ∧ findExecution (AutomationExecution.id x) s2 = Some x2
         ∧ AutomationExecution.status x2 = "running"
         ∧ ∀ t status,
             (t = engine.Complete ∧ status = "completed")
             ∨ (∃ error, t = engine.Fail error ∧ status = "failed") →
             ∃ s3 x3,
               engine.transition (AutomationExecution.id x) t s = Ok s3
               ∧ findExecution (AutomationExecution.id x) s3 = Some x3
               ∧ AutomationExecution.status x3 = status).
Proof.
  intros Hs. split; [|split].
  - induction Hs as [s Hr Hnone|s op Hs IH].
    + rewrite Hnone. intros x Hx. by apply not_elem_of_nil in Hx.
    + intros y [Hy|[Hy|(x & t & Hx & Ht)]]%engine_commit_rows.
      * by apply IH.
      * rewrite Hy. compute_done.
      * by eapply engine_target_status.
  - intros x op Hx Hterminal.
    pose proof (engine_reached_reachable _ (engine.reached_commit _ op Hs))
      as Hnd%reachable_integrity%int_execution_pk.
    pose proof (engine_reached_reachable _ Hs)
      as Hnd0%reachable_integrity%int_execution_pk.
    apply findExecution_stored; [done|].
    unfold engine.commit. destruct op as [newId aid c v n|xid t]; simpl.
    + unfold engine.create.
      destruct (insertAutomationExecution _ _ s) as [s'|e] eqn:E; [|done].
      unfold insertAutomationExecution, insertAutomationExecutionRow in E.
      requires E. simpl. apply elem_of_app. by left.
    + unfold engine.transition.
      destruct (findExecution xid s) as [x'|] eqn:Hfind; [|done].
      destruct (decide (AutomationExecution.id x = xid)) as [<-|Hne].
      * rewrite (findExecution_stored s x Hnd0 Hx) in Hfind.
        injection Hfind as <-.
        by rewrite engine_target_terminal.
      * destruct (engine.target _ t); [|done]. simpl.
        apply list_elem_of_fmap. exists x. by rewrite decide_False.
  - intros x Hx Hrunning.
    pose proof (engine_reached_reachable _ Hs)
      as Hnd%reachable_integrity%int_execution_pk.
    destruct (engine_transition_taken s x engine.Defer "waiting" Hnd Hx)
      as (s1 & x1 & H1 & Hfind1 & Hx1 & Hid1 & Hst1 & Hnd1).
    { by rewrite Hrunning. }
    destruct (engine_transition_taken s1 x1 engine.Resume "running" Hnd1 Hx1)
      as (s2 & x2 & H2 & Hfind2 & _ & _ & Hst2 & _).
    { by rewrite Hst1. }
    rewrite Hid1 in H2, Hfind2.
    exists s1, s2, x1, x2. repeat (split; [done|]).
    intros t status Ht.
    destruct (engine_transition_taken s x t status Hnd Hx)
      as (s3 & x3 & H3 & Hfind3 & _ & _ & Hst3 & _).
    { rewrite Hrunning. by destruct Ht as [[-> ->]|(error & -> & ->)]. }
    by exists s3, x3.
Qed.

Lemma execution_status_machine_witness :
  engine.reached
    (engine.run [engine.Create "x1" "a1" None None "T1";
                 engine.Take "x1" (engine.Advance "A1");
                 engine.Take "x1" engine.Complete]
       (run [StInsertAutomation automationA] emptyStore))
  ∧ findExecution "x1"
      (engine.commit (engine.Take "x1" engine.Resume)
         (engine.run [engine.Create "x1" "a1" None None "T1";
                      engine.Take "x1" (engine.Advance "A1");
                      engine.Take "x1" engine.Complete]
            (run [StInsertAutomation automationA] emptyStore)))
    = Some (AutomationExecution.mk "x1" "a1" None None "completed" (Some "A1")
              [] None None).
Proof.
  assert (engine.reached
            (engine.run [engine.Create "x1" "a1" None None "T1";
                         engine.Take "x1" (engine.Advance "A1");
                         engine.Take "x1" engine.Complete]
               (run [StInsertAutomation automationA] emptyStore))) as Hs.
  { repeat apply engine.reached_commit. apply engine.reached_start.
    - apply run_reachable, reachable_empty.
    - reflexivity. }
  split; [exact Hs|].
  apply (proj1 (proj2 (execution_status_machine _ Hs))
           (AutomationExecution.mk "x1" "a1" None None "completed" (Some "A1")
              [] None None)).
  - vm_compute. by left.
  - by left.
Defined.

(** ** Channels *)

Lemma set_channels_same (s : Store) : set_channels (channels s) s = s.
Proof. by destruct s. Qed.

Lemma truthyBoolean_active (c : Channel.t) :
  truthyBoolean (Channel.isActive c) = true ↔ active c.
Proof.
  unfold active. destruct (Channel.isActive c) as [[]|]; simpl;
    split; intros; congruence.
Qed.

(** An object whose values the columns take, and that sets no [notNull()]
    column of a stored row to [null], is written as its SET list says. *)
Lemma storage_updateChannel_eq (cid : string) (data : ChannelBody)
    (p : ChannelPatch) (s : Store) :
  columnValues data = Ok p →
  (cid ∈ Channel.id <$> channels s → keepsNotNull data) →
  storage.updateChannel cid data s
  = (set_channels (updatedRows cid p (channels s)) s,
     Done (snd <$> list_find (λ c, Channel.id c = cid)
                     (updatedRows cid p (channels s)))).
Proof.
  intros Hvalues Hnull.
  unfold storage.updateChannel, statement, updateChannelData.
  unfold mbind at 1. unfold Handler_bind at 1. rewrite Hvalues.
  unfold mbind at 1. unfold Result_bind at 1.
  destruct (decide (cid ∈ Channel.id <$> channels s)) as [Hin|Hin]; [|done].
  destruct (Hnull Hin) as (H1 & H2 & H3).
  unfold require. by rewrite !decide_True.
Qed.

Lemma storage_updateChannel_isActive (cid : string) (b : bool) (s : Store) :
  storage.updateChannel cid (isActiveObject b) s
  = (set_channels (updatedRows cid (setIsActive b) (channels s)) s,
     Done (snd <$> list_find (λ c, Channel.id c = cid)
                     (updatedRows cid (setIsActive b) (channels s)))).
Proof. by apply storage_updateChannel_eq. Qed.

Lemma storage_updateChannel_healthStatus (cid h : string) (s : Store) :
  storage.updateChannel cid (healthStatusObject h) s
  = (set_channels (updatedRows cid (setHealthStatus h) (channels s)) s,
     Done (snd <$> list_find (λ c, Channel.id c = cid)
                     (updatedRows cid (setHealthStatus h) (channels s)))).
Proof. by apply storage_updateChannel_eq. Qed.

Lemma deactivated_id (c : Channel.t) : Channel.id (deactivated c) = Channel.id c.
Proof. done. Qed.

Lemma deactivated_inactive (c : Channel.t) : ¬ active (deactivated c).
Proof. unfold active. simpl. discriminate. Qed.

Lemma deactivateAll_nil (l : list Channel.t) : deactivateAll [] l = l.
Proof.
  unfold deactivateAll. rewrite <- (list_fmap_id l) at 2.
  apply list_fmap_ext. intros i c _. rewrite decide_False; [done|].
  apply not_elem_of_nil.
Qed.

Lemma deactivateAll_cons (i : string) (ids : list string) (l : list Channel.t) :
  deactivateAll ids (updatedRows i (setIsActive false) l)
  = deactivateAll (i :: ids) l.
Proof.
  unfold deactivateAll, updatedRows. rewrite <- list_fmap_compose.
  apply list_fmap_ext. intros k c _. unfold compose.
  destruct (decide (Channel.id c = i)) as [Hi|Hi].
  - rewrite (decide_True (P := Channel.id c ∈ i :: ids))
      by (rewrite Hi; apply elem_of_cons; by left).
    fold (deactivated c). rewrite deactivated_id.
    by destruct (decide (Channel.id c ∈ ids)).
  - destruct (decide (Channel.id c ∈ ids)) as [Hin|Hin].
    + rewrite decide_True; [done|]. apply elem_of_cons. by right.
    + rewrite decide_False; [done|].
      intros [?|?]%elem_of_cons; contradiction.
Qed.

Lemma deactivateAll_ids (ids : list string) (l : list Channel.t) :
  Channel.id <$> deactivateAll ids l = Channel.id <$> l.
Proof.
  unfold deactivateAll. rewrite <- list_fmap_compose.
  apply list_fmap_ext. intros i c _. simpl. by case_decide.
Qed.

(** The loop of both controllers: every listed channel that is selected
    gets [{ isActive: false }] written to the rows with its id. *)
Lemma forOf_deactivate (sel : Channel.t → Prop) `{∀ c, Decision (sel c)}
    (body : Channel.t → Handler unit) :
  (∀ c s, body c s
          = if decide (sel c)
            then (set_channels
                    (updatedRows (Channel.id c) (setIsActive false) (channels s))
                    s, Done tt)
            else (s, Done tt)) →
  ∀ xs s, forOf xs body s
          = (set_channels
               (deactivateAll (Channel.id <$> filter sel xs) (channels s)) s,
             Done tt).
Proof.
  intros Hbody xs. induction xs as [|x xs IH]; intros s.
  - simpl. rewrite deactivateAll_nil. by rewrite set_channels_same.
  - simpl. unfold mbind, Handler_bind. rewrite Hbody, filter_cons.
    destruct (decide (sel x)).
    + rewrite IH. simpl. by rewrite deactivateAll_cons.
    + by rewrite IH.
Qed.

Lemma createChannel_loop (s : Store) :
  forOf (channels s)
    (λ channel,
       if truthyBoolean (Channel.isActive channel)
       then storage.updateChannel (Channel.id channel) (isActiveObject false);;
            mret tt
       else mret tt) s
  = (set_channels
       (deactivateAll (Channel.id <$> filter active (channels s)) (channels s)) s,
     Done tt).
Proof.
  apply (forOf_deactivate active). intros c s0.
  destruct (decide (active c)) as [Hc|Hc].
  - apply truthyBoolean_active in Hc. rewrite Hc.
    unfold mbind, Handler_bind. by rewrite storage_updateChannel_isActive.
  - destruct (truthyBoolean (Channel.isActive c)) eqn:E; [|done].
    by apply truthyBoolean_active in E.
Qed.

Lemma updateChannel_loop (cid : string) (s : Store) :
  forOf (channels s)
    (λ channel,
       if decide (Channel.id channel ≠ cid
                  ∧ truthyBoolean (Channel.isActive channel))
       then storage.updateChannel (Channel.id channel) (isActiveObject false);;
            mret tt
       else mret tt) s
  = (set_channels
       (deactivateAll
          (Channel.id <$>
             filter (λ c, Channel.id c ≠ cid ∧ truthyBoolean (Channel.isActive c))
               (channels s))
          (channels s)) s,
     Done tt).
Proof.
  apply (forOf_deactivate
           (λ c, Channel.id c ≠ cid ∧ truthyBoolean (Channel.isActive c))).
  intros c s0. case_decide; [|done].
  unfold mbind, Handler_bind. by rewrite storage_updateChannel_isActive.
Qed.

Lemma storage_createChannel_eq (newId : string) (v : InsertChannel) (s : Store) :
  newId ∉ Channel.id <$> channels s →
  storage.createChannel newId v s
  = (set_channels (channels s ++ [channelRow newId v]) s,
     Done (channelRow newId v)).
Proof.
  intros Hfresh. unfold storage.createChannel, statement, insertChannelRow.
  unfold mbind at 1, Handler_bind at 1. unfold require.
  by rewrite decide_True.
Qed.

Lemma updatedRows_fresh (cid : string) (p : ChannelPatch) (l : list Channel.t) :
  cid ∉ Channel.id <$> l → updatedRows cid p l = l.
Proof.
  intros Hfresh. unfold updatedRows. rewrite <- (list_fmap_id l) at 2.
  apply list_fmap_ext. intros i c Hc. rewrite decide_False; [done|].
  intros Heq. apply Hfresh. rewrite <- Heq.
  apply list_elem_of_fmap_2. by eapply list_elem_of_lookup_2.
Qed.

Lemma deactivateAll_inactive (l : list Channel.t) (c : Channel.t) :
  c ∈ deactivateAll (Channel.id <$> filter active l) l → ¬ active c.
Proof.
  intros (o & -> & Ho)%list_elem_of_fmap.
  case_decide as Hin; [apply deactivated_inactive|].
  intros Hact. apply Hin. apply list_elem_of_fmap_2.
  by apply list_elem_of_filter.
Qed.



(** The SET list of a body whose [isActive] is the boolean [true]. *)
Lemma columnValues_active (body : ChannelBody) :
  cb_isActive body = JsBoolean true →
  ∃ p, columnValues body = Ok p ∧ cp_isActive p = Some (Some true).
Proof. intros Hact. unfold columnValues. rewrite Hact. by eexists. Qed.







(** ** Contacts *)

Lemma resolveChannelId_eq (requested : option string) (s : Store) :
  resolveChannelId requested s = (s, Done (resolvedChannelId requested s)).
Proof.
  unfold resolveChannelId, resolvedChannelId.
  destruct (truthyString requested); [done|].
  unfold mbind, Handler_bind, storage.getActiveChannel, query.
  fold active.
  change (λ c : Channel.t, Channel.isActive c = Some true) with active.
  by destruct (list_find active (channels s)) as [[i c]|].
Qed.

Lemma existingContactsFor_eq (requested : option string) (s : Store) :
  existingContactsFor (resolvedChannelId requested s) s
  = (s, Done (resolvedContacts requested s)).
Proof.
  unfold existingContactsFor, resolvedContacts.
  destruct (resolvedChannelId requested s) as [cid|] eqn:E; [|done].
  by destruct (truthyString (Some cid)).
Qed.

Lemma list_find_phone (p : string) (l : list Contact.t) :
  is_Some (list_find (λ c, Contact.phone c = p) l) ↔ p ∈ Contact.phone <$> l.
Proof.
  split.
  - intros [[i c] (Hl & Hp & _)%list_find_Some].
    rewrite <- Hp. apply list_elem_of_fmap_2. by eapply list_elem_of_lookup_2.
  - intros (c & -> & Hc)%list_elem_of_fmap. by eapply list_find_elem_of.
Qed.

(** After the duplicate check passed, the unique index on
    [(channelId, phone)] cannot be what rejects the insert. *)
Lemma no_contactConflict (requested : option string) (v : InsertContact)
    (newId : string) (s : Store) :
  ict_phone v ∉ Contact.phone <$> resolvedContacts requested s →
  ¬ Exists (contactConflict
              (contactRow newId
                 (withChannelId (resolvedChannelId requested s) v)))
      (contacts s).
Proof.
  intros Hnew (c & Hc & Hch & Hsame & Hphone)%Exists_exists.
  simpl in Hch, Hsame, Hphone. apply Hnew. rewrite <- Hphone.
  apply list_elem_of_fmap_2. unfold resolvedContacts.
  destruct (truthyString (resolvedChannelId requested s)); [|done].
  by apply list_elem_of_filter.
Qed.

Lemma createContact_eq (body : ContactBody) (v : InsertContact)
    (requested : option string) (newId : string) (s : Store) :
  parseContact body = Some v →
  createContact body requested newId s
  = if decide (ict_phone v ∈ Contact.phone <$> resolvedContacts requested s)
    then (s, Throw (AppError 409 "Contact with this phone number already exists"))
    else storage.createContact newId
           (withChannelId (resolvedChannelId requested s) v) s.
Proof.
  intros Hparse. unfold createContact, parse. rewrite Hparse.
  unfold mbind at 1. unfold Handler_bind at 1. unfold mret at 1, Handler_ret at 1.
  unfold mbind at 1. unfold Handler_bind at 1. rewrite resolveChannelId_eq.
  unfold mbind at 1. unfold Handler_bind at 1. rewrite existingContactsFor_eq.
  destruct (list_find _ (resolvedContacts requested s)) as [[i c]|] eqn:E.
  - rewrite decide_True; [done|]. apply list_find_phone. by rewrite E.
  - rewrite decide_False; [done|]. intros Hin%list_find_phone.
    rewrite E in Hin. by destruct Hin.
Qed.

Lemma storage_createContact_eq (newId : string) (v : InsertContact) (s : Store) :
  storage.createContact newId v s
  = match insertContactRow (contactRow newId v) s with
    | Ok s' => (s', Done (contactRow newId v))
    | Err e => (s, Throw (DatabaseError e))
    end.
Proof.
  unfold storage.createContact, statement, mbind, Handler_bind.
  by destruct (insertContactRow (contactRow newId v) s).
Qed.

(** C9, as stated, fails: the phone number is new, but the request names a
    channel that is not stored; the insert is rejected by the foreign key of
    [contacts.channelId] and no contact is created. *)
Lemma createContact_unknown_channel :
  parseContact annBody
  = Some (mkInsertContact None "Ann" "+1" None None)
  ∧ ("+1" ∉ Contact.phone <$> resolvedContacts (Some "c9") channelStore)
  ∧ createContact annBody (Some "c9") "k1" channelStore
    = (channelStore,
       Throw (DatabaseError
                (ForeignKeyViolation "contacts_channel_id_channels_id_fk"))).
Proof.
  split; [done|]. split; [|by vm_compute].
  intros Hin. vm_compute in Hin. by apply not_elem_of_nil in Hin.
Qed.

(** C9, amended. For a body the insert schema accepts: if the resolved
    contacts (those of the requested channel, else of the active channel,
    else all contacts) hold the requested phone number, [createContact]
    answers 409 and the store is unchanged; otherwise, when the resolved
    channel is absent or is a stored channel (and the drawn id is fresh), it
    appends the new contact, filed under the resolved channel, and answers
    with it. *)
Theorem createContact_duplicate_check (body : ContactBody) (v : InsertContact)
    (requested : option string) (newId : string) (s : Store) :
  parseContact body = Some v →
  (ict_phone v ∈ Contact.phone <$> resolvedContacts requested s →
   createContact body requested newId s
   = (s, Throw (AppError 409 "Contact with this phone number already exists")))
  ∧ (ict_phone v ∉ Contact.phone <$> resolvedContacts requested s →
     refOk (resolvedChannelId requested s) (Channel.id <$> channels s) →
     newId ∉ Contact.id <$> contacts s →
     ∃ c, createContact body requested newId s
          = (set_contacts (contacts s ++ [c]) s, Done c)
       ∧ c = contactRow newId (withChannelId (resolvedChannelId requested s) v)
       ∧ Contact.phone c = ict_phone v
       ∧ Contact.channelId c = resolvedChannelId requested s).
Proof.
  intros Hparse. split.
  - intros Hdup. rewrite (createContact_eq _ _ _ _ _ Hparse).
    by rewrite decide_True.
  - intros Hnew Hch Hfresh. eexists. split; [|done].
    rewrite (createContact_eq _ _ _ _ _ Hparse), decide_False by done.
    rewrite storage_createContact_eq. unfold insertContactRow, require.
    rewrite decide_True by done. simpl.
    rewrite decide_True by by apply no_contactConflict.
    simpl. by rewrite decide_True.
Qed.

Lemma createContact_duplicate_check_witness :
  parseContact zoeBody = Some (mkInsertContact None "Zoe again" "+100" None None)
  ∧ createContact zoeBody None "k1" channelStore
    = (channelStore,
       Throw (AppError 409 "Contact with this phone number already exists"))
  ∧ parseContact annBody = Some (mkInsertContact None "Ann" "+1" None None)
  ∧ ∃ c, createContact annBody None "k1" channelStore
         = (set_contacts (contacts channelStore ++ [c]) channelStore, Done c)
      ∧ Contact.phone c = "+1"
      ∧ Contact.channelId c = Some "c1".
Proof.
  split; [reflexivity|]. split.
  - apply (proj1 (createContact_duplicate_check zoeBody _ None "k1" channelStore
                    eq_refl)).
    vm_compute. by left.
  - split; [reflexivity|].
    destruct (proj2 (createContact_duplicate_check annBody _ None "k1"
                       channelStore eq_refl))
      as (c & Heq & _ & Hphone & Hch).
    + intros Hin. vm_compute in Hin. apply list_elem_of_In in Hin.
      simpl in Hin. intuition discriminate.
    + vm_compute. by left.
    + intros Hin. vm_compute in Hin. apply list_elem_of_In in Hin.
      simpl in Hin. intuition discriminate.
    + exists c. split; [exact Heq|]. split; [exact Hphone|exact Hch].
Defined.

(** ** Import *)

Lemma importOne_duplicate (channelId : option string) (st : ImportState)
    (b : ContactBody) (newId : string) (s : Store) :
  hasPhone (existingPhones st) (ctb_phone b) = true →
  importOne channelId st (ItemObject b) newId s
  = (s, Done (asDuplicate (ItemObject b) st)).
Proof. intros Hdup. unfold importOne, tryCatch. by rewrite Hdup. Qed.

(** A turn never throws, files its element in exactly one of the three
    arrays, and keeps the set equal to the phones it started from plus the
    phones of the contacts created so far. *)
Lemma importOne_step (channelId : option string) (st : ImportState)
    (contact : ImportItem) (newId : string) (s : Store) :
  ∃ s' st', importOne channelId st contact newId s = (s', Done st')
    ∧ filed st' = S (filed st)
    ∧ ∀ known : list string,
        (∀ p, p ∈ existingPhones st
              ↔ p ∈ known ∨ p ∈ Contact.phone <$> createdContacts st) →
        (∀ p, p ∈ existingPhones st'
              ↔ p ∈ known ∨ p ∈ Contact.phone <$> createdContacts st').
Proof.
  unfold importOne, tryCatch, filed.
  destruct contact as [|b].
  { eexists _, _. split; [reflexivity|]. simpl.
    split; [rewrite length_app; simpl; lia|done]. }
  destruct (hasPhone (existingPhones st) (ctb_phone b)).
  { eexists _, _. split; [reflexivity|]. simpl.
    split; [rewrite length_app; simpl; lia|done]. }
  unfold mbind at 1. unfold Handler_bind at 1. unfold parse.
  destruct (parseContact (spreadWithChannelId b channelId)) as [v|].
  2:{ eexists _, _. split; [reflexivity|]. simpl.
      split; [rewrite length_app; simpl; lia|done]. }
  unfold mret at 1, Handler_ret at 1.
  unfold mbind at 1. unfold Handler_bind at 1.
  rewrite storage_createContact_eq.
  destruct (insertContactRow (contactRow newId v) s) as [s'|e].
  2:{ eexists _, _. split; [reflexivity|]. simpl.
      split; [rewrite length_app; simpl; lia|done]. }
  eexists _, _. split; [reflexivity|]. simpl.
  split; [rewrite length_app; simpl; lia|].
  intros known Hinv p. rewrite elem_of_union, elem_of_singleton, Hinv.
  rewrite fmap_app, elem_of_app. simpl. rewrite list_elem_of_singleton.
  tauto.
Qed.

Lemma importLoop_total (channelId : option string)
    (contacts : list (ImportItem * string)) :
  ∀ st s, ∃ s' st', importLoop channelId st contacts s = (s', Done st')
    ∧ filed st' = filed st + length contacts
    ∧ ∀ known : list string,
        (∀ p, p ∈ existingPhones st
              ↔ p ∈ known ∨ p ∈ Contact.phone <$> createdContacts st) →
        (∀ p, p ∈ existingPhones st'
              ↔ p ∈ known ∨ p ∈ Contact.phone <$> createdContacts st').
Proof.
  induction contacts as [|[contact newId] rest IH]; intros st s.
  - exists s, st. split; [done|]. split; [simpl; lia|done].
  - destruct (importOne_step channelId st contact newId s)
      as (s1 & st1 & H1 & Hfiled1 & Hinv1).
    destruct (IH st1 s1) as (s' & st' & H' & Hfiled' & Hinv').
    exists s', st'. split.
    { simpl. unfold mbind, Handler_bind. by rewrite H1. }
    split; [simpl; lia|]. intros known Hinv. by apply Hinv', Hinv1.
Qed.

Lemma importLoop_app (channelId : option string)
    (before after : list (ImportItem * string)) (st st1 : ImportState)
    (s s1 : Store) :
  importLoop channelId st before s = (s1, Done st1) →
  importLoop channelId st (before ++ after) s
  = importLoop channelId st1 after s1.
Proof.
  revert st s. induction before as [|[contact newId] rest IH]; intros st s.
  - simpl. by intros [= -> ->].
  - simpl. unfold mbind, Handler_bind.
    destruct (importOne channelId st contact newId s) as [s2 [st2|e]];
      [|done].
    apply IH.
Qed.

Lemma importContacts_eq (contacts : list (ImportItem * string))
    (bodyChannelId queryChannelId : option string) (s : Store) :
  importContacts (Some contacts) bodyChannelId queryChannelId s
  = match importLoop (resolvedChannelId (orElse bodyChannelId queryChannelId) s)
            (importStart
               (resolvedContacts (orElse bodyChannelId queryChannelId) s))
            contacts s with
    | (s', Done st) =>
        (s', Done (mkImportReport
                     (length (createdContacts st)) (length (duplicates st))
                     (length (errors st)) (length contacts)
                     (mkImportDetails (length (createdContacts st))
                        (take 10 (duplicates st)) (take 10 (errors st)))))
    | (s', Throw e) => (s', Throw e)
    end.
Proof.
  unfold importContacts.
  unfold mbind at 1. unfold Handler_bind at 1. rewrite resolveChannelId_eq.
  unfold mbind at 1. unfold Handler_bind at 1. rewrite existingContactsFor_eq.
  unfold mbind at 1. unfold Handler_bind at 1. fold (importStart
    (resolvedContacts (orElse bodyChannelId queryChannelId) s)).
  by destruct (importLoop _ _ contacts s) as [s' [st|e]].
Qed.

(** C10, as stated, fails: the second element has the phone of the first,
    which the insert schema rejected; the second is created, not counted as
    a duplicate. *)
Lemma import_creates_after_failed_twin :
  ctb_phone annBody = ctb_phone namelessBody
  ∧ ∃ s' r, importContacts
              (Some [(ItemObject namelessBody, "k1"); (ItemObject annBody, "k2")])
              None None channelStore = (s', Done r)
      ∧ r_created r = 1 ∧ r_duplicates r = 0 ∧ r_failed r = 1 ∧ r_total r = 2
      ∧ contacts s'
        = contacts channelStore
          ++ [Contact.mk "k2" (Some "c1") "Ann" "+1" None (Some "active")].
Proof.
  split; [done|]. eexists _, _. split; [by vm_compute|]. by vm_compute.
Qed.

(** C10, amended. For a body whose [contacts] is an array, [importContacts]
    answers with a report whose created, duplicates and failed counts add up
    to its total, the length of the array.  An element whose phone is that of
    a resolved existing contact, or of a contact created by an earlier turn
    of the same import, is filed as a duplicate at its turn: the store and
    the created contacts stay as they were. *)
Theorem importContacts_partitions (contacts : list (ImportItem * string))
    (bodyChannelId queryChannelId : option string) (s : Store) :
  ∃ s' r, importContacts (Some contacts) bodyChannelId queryChannelId s
          = (s', Done r)
    ∧ r_created r + r_duplicates r + r_failed r = r_total r
    ∧ r_total r = length contacts
    ∧ ∀ before b newId after p s1 st1,
        contacts = before ++ (ItemObject b, newId) :: after →
        ctb_phone b = JsString p →
        importLoop (resolvedChannelId (orElse bodyChannelId queryChannelId) s)
          (importStart (resolvedContacts (orElse bodyChannelId queryChannelId) s))
          before s = (s1, Done st1) →
        p ∈ Contact.phone <$>
              resolvedContacts (orElse bodyChannelId queryChannelId) s
        ∨ p ∈ Contact.phone <$> createdContacts st1 →
        importOne (resolvedChannelId (orElse bodyChannelId queryChannelId) s)
          st1 (ItemObject b) newId s1
        = (s1, Done (asDuplicate (ItemObject b) st1))
        ∧ createdContacts (asDuplicate (ItemObject b) st1) = createdContacts st1
        ∧ length (duplicates (asDuplicate (ItemObject b) st1))
          = S (length (duplicates st1))
        ∧ importLoop
            (resolvedChannelId (orElse bodyChannelId queryChannelId) s)
            (importStart
               (resolvedContacts (orElse bodyChannelId queryChannelId) s))
            contacts s
          = importLoop
              (resolvedChannelId (orElse bodyChannelId queryChannelId) s)
              (asDuplicate (ItemObject b) st1) after s1.
Proof.
  set (channelId := resolvedChannelId (orElse bodyChannelId queryChannelId) s).
  set (existing := resolvedContacts (orElse bodyChannelId queryChannelId) s).
  assert (∀ p, p ∈ existingPhones (importStart existing)
               ↔ p ∈ Contact.phone <$> existing
                 ∨ p ∈ Contact.phone <$> createdContacts (importStart existing))
    as Hstart.
  { intros p. simpl. rewrite elem_of_list_to_set, elem_of_nil. tauto. }
  destruct (importLoop_total channelId contacts (importStart existing) s)
    as (s' & st' & Hloop & Hfiled & _).
  eexists s', _. split.
  { rewrite importContacts_eq. fold channelId existing. by rewrite Hloop. }
  split; [exact Hfiled|]. split; [done|].
  intros before b newId after p s1 st1 -> Hphone Hbefore Hknown.
  destruct (importLoop_total channelId before (importStart existing) s)
    as (s1' & st1' & Hbefore' & _ & Hinv).
  rewrite Hbefore in Hbefore'. injection Hbefore' as <- <-.
  assert (hasPhone (existingPhones st1) (ctb_phone b) = true) as Hhas.
  { rewrite Hphone. simpl. apply bool_decide_eq_true.
    by apply (Hinv _ Hstart). }
  assert (importOne channelId st1 (ItemObject b) newId s1
          = (s1, Done (asDuplicate (ItemObject b) st1))) as Hone
    by by apply importOne_duplicate.
  split; [exact Hone|]. split; [done|].
  split; [simpl; rewrite length_app; simpl; lia|].
  rewrite (importLoop_app _ _ _ _ _ _ _ Hbefore). simpl.
  unfold mbind, Handler_bind. by rewrite Hone.
Qed.

Lemma importContacts_partitions_witness :
  ∃ s' r, importContacts
            (Some [(ItemObject annBody, "k1"); (ItemObject annBody, "k2")])
            None None channelStore = (s', Done r)
    ∧ r_created r + r_duplicates r + r_failed r = r_total r
    ∧ r_total r = 2
    ∧ importOne (Some "c1")
        (mkImportState {["+1"; "+100"]}
           [Contact.mk "k1" (Some "c1") "Ann" "+1" None (Some "active")] [] [])
        (ItemObject annBody) "k2"
        (set_contacts
           (contacts channelStore
            ++ [Contact.mk "k1" (Some "c1") "Ann" "+1" None (Some "active")])
           channelStore)
      = (set_contacts
           (contacts channelStore
            ++ [Contact.mk "k1" (Some "c1") "Ann" "+1" None (Some "active")])
           channelStore,
         Done (asDuplicate (ItemObject annBody)
                 (mkImportState {["+1"; "+100"]}
                    [Contact.mk "k1" (Some "c1") "Ann" "+1" None (Some "active")]
                    [] []))).
Proof.
  destruct (importContacts_partitions
              [(ItemObject annBody, "k1"); (ItemObject annBody, "k2")]
              None None channelStore)
    as (s' & r & Heq & Hsum & Htotal & Hdup).
  exists s', r. split; [exact Heq|]. split; [exact Hsum|].
  split; [exact Htotal|].
  refine (proj1 (Hdup [(ItemObject annBody, "k1")] annBody "k2" [] "+1"
                   _ _ eq_refl eq_refl _ _)).
  - by vm_compute.
  - right. simpl. by left.
Defined.

(** * Further properties *)

(** ** The automation tables *)

(** X1. The constraints keep the automation tables consistent.  Run from
    a store in which they are consistent (the empty store is), any sequence
    of the statements INSERT (into any of the eight tables), DELETE (of an
    automation, a node, an edge, an execution or a log entry, with its
    cascades) and UPDATE (of an execution or of a channel), each accepted
    or rejected, leaves them consistent: the primary keys of automations,
    nodes, edges, executions and log entries and the node identifiers are
    unique, every node, edge and execution belongs to a stored automation,
    every edge joins stored nodes, and every log entry belongs to a stored
    execution. *)
Theorem run_keeps_integrity (sts : list Stmt) (s : Store) :
  integrity s → integrity (run sts s).
Proof.
  revert s. induction sts as [|st sts IH]; intros s Hs; [done|].
  simpl. apply IH. by apply commit_integrity.
Qed.

Lemma run_keeps_integrity_witness : integrity sampleStore.
Proof. exact (run_keeps_integrity sampleRun emptyStore integrity_empty). Defined.

(** X2. Deleting a stored node removes it and every edge that starts or ends
    at its node identifier, and nothing else: the other nodes and the edges
    that do not touch it stay, as do automations, executions and logs. *)
Theorem deleteAutomationNode_removes_its_edges (s : Store)
    (n : AutomationNode.t) :
  reachable s →
  n ∈ automationNodes s →
  ∃ s', deleteAutomationNode (AutomationNode.id n) s = Ok s'
    ∧ (∀ m, m ∈ automationNodes s' ↔ m ∈ automationNodes s ∧ m ≠ n)
    ∧ (∀ e, e ∈ automationEdges s' ↔
         e ∈ automationEdges s
         ∧ AutomationEdge.sourceNodeId e ≠ AutomationNode.nodeId n
         ∧ AutomationEdge.targetNodeId e ≠ AutomationNode.nodeId n)
    ∧ automations s' = automations s
    ∧ automationExecutions s' = automationExecutions s
    ∧ automationExecutionLogs s' = automationExecutionLogs s.
Proof.
  intros [] %reachable_integrity Hn.
  eexists. split; [apply deleteAutomationNode_eq|]. simpl.
  assert (∀ m, m ∈ automationNodes s →
            AutomationNode.id m = AutomationNode.id n ↔ m = n) as Hsame.
  { intros m Hm. split; [|by intros ->]. intros Heq.
    by eapply (NoDup_fmap_elem_inj AutomationNode.id). }
  assert (∀ k, k ∈ AutomationNode.nodeId <$>
                     filter (λ m, AutomationNode.id m = AutomationNode.id n)
                       (automationNodes s)
               ↔ k = AutomationNode.nodeId n) as Hgone.
  { intros k. rewrite elem_of_fmap_filter. split.
    - intros (m & -> & Hid & Hm). apply Hsame in Hid; [by subst|done].
    - intros ->. by exists n. }
  split.
  { intros m. rewrite list_elem_of_filter. split.
    - intros [Hid Hm]. split; [done|]. by intros ->.
    - intros [Hm Hne]. split; [|done]. intros Hid. by apply Hsame in Hid. }
  split; [|done].
  intros e. rewrite !list_elem_of_filter, !Hgone. tauto.
Qed.

Lemma deleteAutomationNode_removes_its_edges_witness :
  reachable sampleStore
  ∧ nodeA1 ∈ automationNodes sampleStore
  ∧ ∃ s', deleteAutomationNode "r2" sampleStore = Ok s'
      ∧ automationNodes s' = [nodeT1]
      ∧ automationEdges s' = [].
Proof.
  assert (reachable sampleStore) as Hr by apply run_reachable, reachable_empty.
  assert (nodeA1 ∈ automationNodes sampleStore) as Hin
    by (vm_compute; right; by left).
  split; [exact Hr|]. split; [exact Hin|].
  destruct (deleteAutomationNode_removes_its_edges sampleStore nodeA1 Hr Hin)
    as (s' & Heq & _).
  exists s'. split; [exact Heq|].
  vm_compute in Heq. injection Heq as <-. by vm_compute.
Defined.

(** X3. Deleting an automation leaves channels, contacts and conversations
    alone and keeps the nodes of every other automation; an edge survives
    exactly when it is filed under another automation and neither of its
    endpoints is a node of the deleted one, so an edge of another automation
    that touches a deleted node goes with it. *)
Theorem deleteAutomation_spares_the_rest (aid : string) (s : Store) :
  ∃ s', deleteAutomation aid s = Ok s'
    ∧ channels s' = channels s
    ∧ contacts s' = contacts s
    ∧ conversations s' = conversations s
    ∧ (∀ n, n ∈ automationNodes s' ↔
         n ∈ automationNodes s ∧ AutomationNode.automationId n ≠ aid)
    ∧ (∀ e, e ∈ automationEdges s' ↔
         e ∈ automationEdges s
         ∧ AutomationEdge.automationId e ≠ aid
         ∧ ∀ n, n ∈ automationNodes s →
             AutomationNode.nodeId n = AutomationEdge.sourceNodeId e
             ∨ AutomationNode.nodeId n = AutomationEdge.targetNodeId e →
             AutomationNode.automationId n ≠ aid).
Proof.
  eexists. split; [apply deleteAutomation_eq|]. simpl.
  split; [done|]. split; [done|]. split; [done|]. split.
  - intros n. rewrite list_elem_of_filter. tauto.
  - intros e. rewrite !list_elem_of_filter. unfold nodesOf.
    rewrite !elem_of_fmap_filter. split.
    + intros (Ht & Hs & Ha & He). split; [done|]. split; [done|].
      intros n Hn [Heq|Heq] Haid.
      * apply Hs. by exists n.
      * apply Ht. by exists n.
    + intros (He & Ha & Hn). repeat split; try done.
      * intros (n & Heq & Haid & Hin). by apply (Hn n Hin); [right|].
      * intros (n & Heq & Haid & Hin). by apply (Hn n Hin); [left|].
Qed.

Lemma filter_all {A : Type} (P : A → Prop) `{∀ x, Decision (P x)} (l : list A) :
  (∀ x, x ∈ l → P x) → filter P l = l.
Proof.
  induction l as [|a l IH]; intros Hall; [done|].
  rewrite filter_cons, decide_True by (apply Hall; by left).
  f_equal. apply IH. intros x Hx. apply Hall. by right.
Qed.

Lemma filter_snoc_key {A : Type} (f : A → string) (l : list A) (x : A) :
  f x ∉ f <$> l → filter (λ y, f y ≠ f x) (l ++ [x]) = l.
Proof.
  intros Hfresh. rewrite filter_app, filter_cons, decide_False by auto.
  rewrite filter_nil, app_nil_r. apply filter_all.
  intros y Hy Heq. apply Hfresh. rewrite <- Heq. by apply list_elem_of_fmap_2.
Qed.

Lemma Store_ext (s1 s2 : Store) :
  channels s1 = channels s2 → contacts s1 = contacts s2 →
  conversations s1 = conversations s2 → automations s1 = automations s2 →
  automationNodes s1 = automationNodes s2 →
  automationEdges s1 = automationEdges s2 →
  automationExecutions s1 = automationExecutions s2 →
  automationExecutionLogs s1 = automationExecutionLogs s2 →
  s1 = s2.
Proof. destruct s1, s2. simpl. by intros -> -> -> -> -> -> -> ->. Qed.

(** X4. In a store the statements reach, an accepted insert followed by the
    delete of the same row gives back the store as it was, for automations,
    nodes, edges, executions and log entries alike: the delete cascades to
    nothing else. *)
Theorem insert_then_delete_restores (s : Store) :
  reachable s →
  (∀ a s1, insertAutomation a s = Ok s1 →
     deleteAutomation (Automation.id a) s1 = Ok s)
  ∧ (∀ n s1, insertAutomationNode n s = Ok s1 →
       deleteAutomationNode (AutomationNode.id n) s1 = Ok s)
  ∧ (∀ e s1, insertAutomationEdge e s = Ok s1 →
       deleteAutomationEdge (AutomationEdge.id e) s1 = Ok s)
  ∧ (∀ newId v s1, insertAutomationExecution newId v s = Ok s1 →
       deleteAutomationExecution newId s1 = Ok s)
  ∧ (∀ l s1, insertAutomationExecutionLog l s = Ok s1 →
       deleteAutomationExecutionLog (AutomationExecutionLog.id l) s1 = Ok s).
Proof.
  intros [] %reachable_integrity. repeat split.
  - intros a s1 H. unfold insertAutomation in H. requires H.
    assert (∀ k, k ∈ Automation.id <$> automations s → k ≠ Automation.id a)
      as Hfresh by (intros k Hk ->; contradiction).
    rewrite deleteAutomation_eq. f_equal.
    assert (nodesOf (Automation.id a)
              (set_automations (automations s ++ [a]) s) = []) as Hn.
    { apply filter_nil_iff. intros n Hn. simpl in Hn. auto. }
    assert (executionsOf (Automation.id a)
              (set_automations (automations s ++ [a]) s) = []) as Hx.
    { apply filter_nil_iff. intros x Hx. simpl in Hx. auto. }
    rewrite Hn, Hx. apply Store_ext; simpl; try done.
    + by apply (filter_snoc_key Automation.id).
    + apply filter_all. intros n Hn'. auto.
    + rewrite !filter_all; try done;
        intros e He Hbad;
        first [ by apply not_elem_of_nil in Hbad
              | revert Hbad; apply Hfresh; auto ].
    + apply filter_all. intros x Hx'. auto.
    + apply filter_all. intros l _ Hin. by apply not_elem_of_nil in Hin.
  - intros n s1 H. unfold insertAutomationNode in H. requires H.
    rewrite deleteAutomationNode_eq. f_equal.
    assert (filter (λ m, AutomationNode.id m = AutomationNode.id n)
              (automationNodes (set_automationNodes (automationNodes s ++ [n]) s))
            = [n]) as ->.
    { simpl. rewrite filter_app, filter_cons, decide_True, filter_nil by done.
      assert (filter (λ m, AutomationNode.id m = AutomationNode.id n)
                (automationNodes s) = []) as ->; [|done].
      apply filter_nil_iff. intros m Hm Heq.
      match goal with Hf : AutomationNode.id n ∉ _ |- _ => apply Hf end.
      rewrite <- Heq. by apply list_elem_of_fmap_2. }
    apply Store_ext; simpl; try done.
    + by apply (filter_snoc_key AutomationNode.id).
    + rewrite !filter_all; try done;
        intros e He Hbad%list_elem_of_singleton;
        try (apply list_elem_of_filter in He as [_ He]);
        match goal with
        | Hf : AutomationNode.nodeId n ∉ _ |- _ => apply Hf
        end;
        rewrite <- Hbad; auto.
  - intros e s1 H. unfold insertAutomationEdge in H. requires H.
    unfold deleteAutomationEdge. f_equal. apply Store_ext; simpl; try done.
    by apply (filter_snoc_key AutomationEdge.id).
  - intros newId v s1 H.
    unfold insertAutomationExecution, insertAutomationExecutionRow in H.
    requires H. rewrite deleteAutomationExecution_eq. f_equal.
    apply Store_ext; simpl; try done.
    + by apply (filter_snoc_key AutomationExecution.id _ (executionRow newId v)).
    + apply filter_all. intros l Hl Hin.
      apply elem_of_fmap_filter in Hin as (x & Hx & Hid & _).
      match goal with Hf : AutomationExecution.id _ ∉ _ |- _ => apply Hf end.
      simpl. rewrite <- Hid, <- Hx. auto.
  - intros l s1 H. unfold insertAutomationExecutionLog in H. requires H.
    unfold deleteAutomationExecutionLog. f_equal.
    apply Store_ext; simpl; try done.
    by apply (filter_snoc_key AutomationExecutionLog.id).
Qed.

Lemma insert_then_delete_restores_witness :
  reachable sampleStore
  ∧ (∃ s1, insertAutomation automationB sampleStore = Ok s1
        ∧ deleteAutomation "a2" s1 = Ok sampleStore).
Proof.
  assert (reachable sampleStore) as Hr by apply run_reachable, reachable_empty.
  split; [exact Hr|].
  eexists. split; [by vm_compute|].
  apply (proj1 (insert_then_delete_restores sampleStore Hr) automationB).
  by vm_compute.
Defined.

(** ** Deleting contacts *)

Lemma deleteContactsIn_eq (ids : list string) (s : Store) :
  deleteContactsIn ids s
  = if decide (Exists (λ x, refersTo (AutomationExecution.contactId x)
                              (goneContactIds ids s))
                 (automationExecutions s))
    then Err (ForeignKeyViolation
                "automation_executions_contact_id_contacts_id_fk")
    else if decide (Exists (λ x, refersTo (AutomationExecution.conversationId x)
                                   (goneConversationIds ids s))
                      (automationExecutions s))
    then Err (ForeignKeyViolation
                "automation_executions_conversation_id_conversations_id_fk")
    else Ok (length (goneContactIds ids s),
             mkStore (channels s)
               (filter (λ c, Contact.id c ∉ ids) (contacts s))
               (filter (λ c, ¬ refersTo (Conversation.contactId c)
                               (goneContactIds ids s))
                  (conversations s))
               (automations s) (automationNodes s) (automationEdges s)
               (automationExecutions s) (automationExecutionLogs s)).
Proof.
  unfold deleteContactsIn, referentialAction,
    conversations_contactId_onDelete, automationExecutions_contactId_onDelete,
    automationExecutions_conversationId_onDelete.
  fold (goneContactIds ids s). fold (goneConversationIds ids s).
  unfold mbind, Result_bind.
  destruct (decide (Exists _ (automationExecutions s))); [done|].
  by destruct (decide (Exists _ (automationExecutions s))).
Qed.

Lemma deleteContactsIn_none (ids : list string) (s : Store) :
  goneContactIds ids s = [] → deleteContactsIn ids s = Ok (0, s).
Proof.
  intros Hnone. rewrite deleteContactsIn_eq.
  assert (goneConversationIds ids s = []) as Hconv.
  { unfold goneConversationIds. rewrite Hnone.
    assert (filter (λ c, refersTo (Conversation.contactId c) [])
              (conversations s) = []) as ->; [|done].
    apply filter_nil_iff. intros c _. destruct (Conversation.contactId c); simpl;
      [apply not_elem_of_nil|tauto]. }
  rewrite Hnone, Hconv.
  assert (∀ k, ¬ refersTo k []) as Hno.
  { intros [k|]; simpl; [apply not_elem_of_nil|tauto]. }
  rewrite !decide_False by (rewrite Exists_exists; intros (x & _ & Hx);
                            by apply Hno in Hx).
  simpl. f_equal. f_equal. apply Store_ext; simpl; try done.
  - apply filter_all. intros c Hc Hin.
    assert (Contact.id c ∈ goneContactIds ids s) as Hg
      by (apply list_elem_of_fmap_2; by apply list_elem_of_filter).
    rewrite Hnone in Hg. by apply not_elem_of_nil in Hg.
  - apply filter_all. intros c _. apply Hno.
Qed.

(** X5. [deleteBulkContacts] is all or nothing.  Without a non-empty array
    it answers 400; when none of the ids is a stored contact it answers 404;
    when an automation execution refers to one of the contacts, or to one
    of their conversations, the delete is refused; in all three cases the
    store is unchanged.  Otherwise it removes exactly the stored contacts
    among the ids together with their conversations. *)
Theorem deleteBulkContacts_all_or_nothing (s : Store) :
  deleteBulkContacts None s = (s, Throw (AppError 400 "No contact IDs provided"))
  ∧ deleteBulkContacts (Some []) s
    = (s, Throw (AppError 400 "No contact IDs provided"))
  ∧ ∀ ids, ids ≠ [] →
      (goneContactIds ids s = [] →
       deleteBulkContacts (Some ids) s
       = (s, Throw (AppError 404 "No contacts found to delete")))
      ∧ (deleteBlocked ids s →
         ∃ fk, deleteBulkContacts (Some ids) s
               = (s, Throw (DatabaseError (ForeignKeyViolation fk))))
      ∧ (goneContactIds ids s ≠ [] → ¬ deleteBlocked ids s →
         ∃ s', deleteBulkContacts (Some ids) s = (s', Done tt)
           ∧ (∀ c, c ∈ contacts s' ↔ c ∈ contacts s ∧ Contact.id c ∉ ids)
           ∧ (∀ c, c ∈ conversations s' ↔
                c ∈ conversations s
                ∧ ¬ refersTo (Conversation.contactId c) (goneContactIds ids s))
           ∧ channels s' = channels s
           ∧ automationExecutions s' = automationExecutions s).
Proof.
  split; [done|]. split; [done|].
  intros ids Hne.
  assert (deleteBulkContacts (Some ids) s
          = match deleteContactsIn ids s with
            | Ok (n, s') =>
                if decide (n = 0)
                then (s', Throw (AppError 404 "No contacts found to delete"))
                else (s', Done tt)
            | Err e => (s, Throw (DatabaseError e))
            end) as Heq.
  { destruct ids as [|i ids]; [done|].
    unfold deleteBulkContacts, mbind, Handler_bind, statementReturning.
    destruct (deleteContactsIn (i :: ids) s) as [[n s']|e]; [|done].
    by case_decide. }
  rewrite Heq. split; [|split].
  - intros Hnone. by rewrite deleteContactsIn_none.
  - intros [Hb|Hb]; rewrite deleteContactsIn_eq.
    + rewrite decide_True by done. by eexists.
    + case_decide; [by eexists|]. rewrite decide_True by done. by eexists.
  - intros Hsome Hfree. rewrite deleteContactsIn_eq.
    rewrite !decide_False by (intros Hb; apply Hfree; by (left + right)).
    rewrite decide_False by (by destruct (goneContactIds ids s)).
    eexists. split; [done|]. simpl.
    split; [intros c; rewrite list_elem_of_filter; tauto|].
    split; [intros c; rewrite list_elem_of_filter; tauto|done].
Qed.

Lemma deleteBulkContacts_all_or_nothing_witness :
  (∃ fk, deleteBulkContacts (Some ["k0"; "k7"]) referencedStore
         = (referencedStore, Throw (DatabaseError (ForeignKeyViolation fk))))
  ∧ (∃ s', deleteBulkContacts (Some ["k0"; "k7"]) conversationStore
           = (s', Done tt)
       ∧ contacts s' = [] ∧ conversations s' = []).
Proof.
  split.
  - apply (proj2 (proj2 (deleteBulkContacts_all_or_nothing referencedStore))
             ["k0"; "k7"]); [done|].
    left. apply Exists_exists. exists executionOfK0.
    split; [by left|]. vm_compute. by left.
  - destruct (proj2 (proj2 (proj2 (proj2
                (deleteBulkContacts_all_or_nothing conversationStore))
                ["k0"; "k7"] ltac:(done))))
      as (s' & Heq & _).
    + by vm_compute.
    + intros [Hb|Hb]; apply Exists_exists in Hb as (x & Hx & _);
        by apply not_elem_of_nil in Hx.
    + exists s'. split; [exact Heq|].
      vm_compute in Heq. injection Heq as <-. by vm_compute.
Defined.

(** ** Creating, reading and deleting one contact *)

(** What [createContact] can come back with. *)
Lemma createContact_outcome (body : ContactBody) (requested : option string)
    (newId : string) (s s' : Store) (r : Outcome Contact.t) :
  createContact body requested newId s = (s', r) →
  (∃ v, parseContact body = Some v
        ∧ (ict_phone v ∉ Contact.phone <$> resolvedContacts requested s)
        ∧ r = Done (contactRow newId
                      (withChannelId (resolvedChannelId requested s) v))
        ∧ insertContactRow
            (contactRow newId (withChannelId (resolvedChannelId requested s) v))
            s = Ok s')
  ∨ (∃ e, r = Throw e ∧ s' = s).
Proof.
  destruct (parseContact body) as [v|] eqn:Hparse.
  2:{ unfold createContact, parse. rewrite Hparse.
      intros [= <- <-]. right. by eexists. }
  rewrite (createContact_eq _ _ _ _ _ Hparse).
  case_decide as Hdup.
  - intros [= <- <-]. right. by eexists.
  - rewrite storage_createContact_eq.
    destruct (insertContactRow _ s) as [s1|e] eqn:Hins.
    + intros [= <- <-]. left. by exists v.
    + intros [= <- <-]. right. by eexists.
Qed.

Lemma insertContactRow_Ok (c : Contact.t) (s s' : Store) :
  insertContactRow c s = Ok s' →
  s' = set_contacts (contacts s ++ [c]) s
  ∧ (Contact.id c ∉ Contact.id <$> contacts s)
  ∧ ¬ Exists (contactConflict c) (contacts s)
  ∧ refOk (Contact.channelId c) (Channel.id <$> channels s).
Proof. intros H. unfold insertContactRow in H. requires H. done. Qed.

(** X6. [createContact] writes all or nothing: when it answers with a
    contact, the store is the old one with exactly that contact appended
    (under the drawn id, filed under the resolved channel); whenever it throws
    (validation, 409, rejected insert) the store is unchanged. *)
Theorem createContact_all_or_nothing (body : ContactBody)
    (requested : option string) (newId : string) (s s' : Store)
    (r : Outcome Contact.t) :
  createContact body requested newId s = (s', r) →
  (∃ c, r = Done c
        ∧ s' = set_contacts (contacts s ++ [c]) s
        ∧ Contact.id c = newId
        ∧ Contact.channelId c = resolvedChannelId requested s)
  ∨ (∃ e, r = Throw e ∧ s' = s).
Proof.
  intros [(v & _ & _ & -> & Hins)|Hthrow]%createContact_outcome; [|by right].
  left. apply insertContactRow_Ok in Hins as (-> & _). by eexists.
Qed.

Lemma createContact_all_or_nothing_witness :
  createContact annBody None "k1" channelStore
  = (set_contacts
       (contacts channelStore
        ++ [contactRow "k1" (mkInsertContact (Some "c1") "Ann" "+1" None None)])
       channelStore,
     Done (contactRow "k1" (mkInsertContact (Some "c1") "Ann" "+1" None None)))
  ∧ ∃ c, set_contacts
           (contacts channelStore
            ++ [contactRow "k1"
                  (mkInsertContact (Some "c1") "Ann" "+1" None None)])
           channelStore
         = set_contacts (contacts channelStore ++ [c]) channelStore
      ∧ Contact.id c = "k1"
      ∧ Contact.channelId c = Some "c1".
Proof.
  assert (createContact annBody None "k1" channelStore
          = (set_contacts
               (contacts channelStore
                ++ [contactRow "k1"
                      (mkInsertContact (Some "c1") "Ann" "+1" None None)])
               channelStore,
             Done (contactRow "k1"
                     (mkInsertContact (Some "c1") "Ann" "+1" None None))))
    as H1 by by vm_compute.
  split; [exact H1|].
  destruct (createContact_all_or_nothing _ _ _ _ _ _ H1)
    as [(c & _ & Hs & Hid & Hch)|(e & He & _)]; [|discriminate He].
  exists c. split; [exact Hs|]. split; [exact Hid|]. exact Hch.
Defined.

Lemma resolved_after_insert (requested : option string) (c : Contact.t)
    (s : Store) :
  resolvedChannelId requested (set_contacts (contacts s ++ [c]) s)
  = resolvedChannelId requested s.
Proof. done. Qed.

(** X7. The duplicate check sees what [createContact] wrote: after a
    contact was created, the same request (whatever id is drawn) answers
    409 and changes nothing. *)
Theorem createContact_twice_conflicts (body : ContactBody)
    (requested : option string) (newId newId' : string) (s s' : Store)
    (c : Contact.t) :
  createContact body requested newId s = (s', Done c) →
  createContact body requested newId' s'
  = (s', Throw (AppError 409 "Contact with this phone number already exists")).
Proof.
  intros [(v & Hparse & _ & [= ->] & Hins)|(e & [=] & _)]%createContact_outcome.
  apply insertContactRow_Ok in Hins as (-> & _).
  rewrite (createContact_eq _ _ _ _ _ Hparse). rewrite decide_True; [done|].
  unfold resolvedContacts. rewrite resolved_after_insert. simpl contacts.
  apply (list_elem_of_fmap_2' _ _
           (contactRow newId (withChannelId (resolvedChannelId requested s) v)));
    [|done].
  destruct (truthyString (resolvedChannelId requested s)).
  - apply list_elem_of_filter. split; [done|]. apply elem_of_app. right. by left.
  - apply elem_of_app. right. by left.
Qed.

Lemma createContact_twice_conflicts_witness :
  createContact annBody None "k1" channelStore
  = (set_contacts
       (contacts channelStore
        ++ [contactRow "k1" (mkInsertContact (Some "c1") "Ann" "+1" None None)])
       channelStore,
     Done (contactRow "k1" (mkInsertContact (Some "c1") "Ann" "+1" None None)))
  ∧ createContact annBody None "k2"
      (set_contacts
         (contacts channelStore
          ++ [contactRow "k1" (mkInsertContact (Some "c1") "Ann" "+1" None None)])
         channelStore)
    = (set_contacts
         (contacts channelStore
          ++ [contactRow "k1" (mkInsertContact (Some "c1") "Ann" "+1" None None)])
         channelStore,
       Throw (AppError 409 "Contact with this phone number already exists")).
Proof.
  assert (createContact annBody None "k1" channelStore
          = (set_contacts
               (contacts channelStore
                ++ [contactRow "k1"
                      (mkInsertContact (Some "c1") "Ann" "+1" None None)])
               channelStore,
             Done (contactRow "k1"
                     (mkInsertContact (Some "c1") "Ann" "+1" None None))))
    as H1 by by vm_compute.
  split; [exact H1|].
  exact (createContact_twice_conflicts annBody None "k1" "k2" _ _ _ H1).
Defined.

(** X8. [getContact] answers 404 for an id that is not stored, and after
    [createContact] answered with a contact, [getContact] of its id answers
    with that same contact. *)
Theorem getContact_after_createContact (s : Store) :
  (∀ cid, cid ∉ Contact.id <$> contacts s →
     getContact cid s = (s, Throw (AppError 404 "Contact not found")))
  ∧ (∀ body requested newId s' c,
       createContact body requested newId s = (s', Done c) →
       getContact (Contact.id c) s' = (s', Done c)).
Proof.
  split.
  - intros cid Hcid. unfold getContact, mbind, Handler_bind, storage.getContact,
      query.
    assert (list_find (λ c, Contact.id c = cid) (contacts s) = None) as ->;
      [|done].
    apply list_find_None, Forall_forall. intros c Hc Heq. apply Hcid.
    rewrite <- Heq. by apply list_elem_of_fmap_2.
  - intros body requested newId s' c
      [(v & _ & _ & [= ->] & Hins)|(e & [=] & _)]%createContact_outcome.
    apply insertContactRow_Ok in Hins as (-> & Hfresh & _).
    unfold getContact, mbind, Handler_bind, storage.getContact, query.
    cbn [contacts set_contacts]. rewrite find_snoc_fresh; [done| |done].
    intros y Hy Heq. apply Hfresh. rewrite <- Heq. by apply list_elem_of_fmap_2.
Qed.

Lemma deleteContact_eq (cid : string) (s : Store) :
  deleteContact cid s
  = match deleteContactsIn [cid] s with
    | Ok (n, s') =>
        if decide (n = 0)
        then (s', Throw (AppError 404 "Contact not found"))
        else (s', Done tt)
    | Err e => (s, Throw (DatabaseError e))
    end.
Proof.
  unfold deleteContact, storage.deleteContact, mbind, Handler_bind,
    statementReturning.
  destruct (deleteContactsIn [cid] s) as [[n s']|e]; [|done].
  unfold mret, Handler_ret. destruct n; [done|].
  rewrite bool_decide_eq_true_2 by lia. by rewrite decide_False.
Qed.

(** X9. [deleteContact] answers 404 and changes nothing for an id that is
    not stored; it refuses (foreign key, store unchanged) while an automation
    execution refers to the contact or to one of its conversations; otherwise
    it removes the contact and the conversations of that contact, nothing
    else. *)
Theorem deleteContact_cases (cid : string) (s : Store) :
  (cid ∉ Contact.id <$> contacts s →
   deleteContact cid s = (s, Throw (AppError 404 "Contact not found")))
  ∧ (deleteBlocked [cid] s →
     ∃ fk, deleteContact cid s
           = (s, Throw (DatabaseError (ForeignKeyViolation fk))))
  ∧ (cid ∈ Contact.id <$> contacts s → ¬ deleteBlocked [cid] s →
     ∃ s', deleteContact cid s = (s', Done tt)
       ∧ (∀ c, c ∈ contacts s' ↔ c ∈ contacts s ∧ Contact.id c ≠ cid)
       ∧ (∀ c, c ∈ conversations s' ↔
            c ∈ conversations s ∧ Conversation.contactId c ≠ Some cid)
       ∧ channels s' = channels s
       ∧ automationExecutions s' = automationExecutions s).
Proof.
  rewrite deleteContact_eq.
  assert (cid ∈ Contact.id <$> contacts s → goneContactIds [cid] s ≠ []
          ∧ ∀ k, refersTo k (goneContactIds [cid] s) ↔ k = Some cid) as Hgone.
  { intros (c & -> & Hc)%list_elem_of_fmap.
    assert (∀ i, i ∈ goneContactIds [Contact.id c] s ↔ i = Contact.id c) as Hi.
    { intros i. unfold goneContactIds. rewrite elem_of_fmap_filter. split.
      - intros (c' & -> & Hin%list_elem_of_singleton & _). done.
      - intros ->. exists c. split; [done|]. split; [by left|done]. }
    split.
    - intros Hnil. assert (Contact.id c ∈ goneContactIds [Contact.id c] s)
        as Hin by by apply Hi.
      rewrite Hnil in Hin. by apply not_elem_of_nil in Hin.
    - intros [k|]; simpl.
      + rewrite Hi. split; [by intros ->|by intros [= ->]].
      + split; [tauto|discriminate]. }
  split; [|split].
  - intros Hcid. rewrite deleteContactsIn_none; [done|].
    unfold goneContactIds.
    assert (filter (λ c, Contact.id c ∈ [cid]) (contacts s) = []) as ->;
      [|done].
    apply filter_nil_iff. intros c Hc Hin%list_elem_of_singleton.
    apply Hcid. rewrite <- Hin. by apply list_elem_of_fmap_2.
  - intros [Hb|Hb]; rewrite deleteContactsIn_eq.
    + rewrite decide_True by done. by eexists.
    + case_decide; [by eexists|]. rewrite decide_True by done. by eexists.
  - intros Hcid Hfree. destruct (Hgone Hcid) as [Hsome Hrefers].
    rewrite deleteContactsIn_eq.
    rewrite !decide_False by (intros Hb; apply Hfree; by (left + right)).
    rewrite decide_False by (by destruct (goneContactIds [cid] s)).
    eexists. split; [done|]. simpl.
    split.
    { intros c. rewrite list_elem_of_filter, list_elem_of_singleton. tauto. }
    split; [|done].
    intros c. rewrite list_elem_of_filter, Hrefers. tauto.
Qed.

Lemma deleteContact_cases_witness :
  (∃ fk, deleteContact "k0" referencedStore
         = (referencedStore, Throw (DatabaseError (ForeignKeyViolation fk))))
  ∧ (∃ s', deleteContact "k0" conversationStore = (s', Done tt)
       ∧ contacts s' = [] ∧ conversations s' = [])
  ∧ deleteContact "k7" conversationStore
    = (conversationStore, Throw (AppError 404 "Contact not found")).
Proof.
  split; [|split].
  - apply (proj1 (proj2 (deleteContact_cases "k0" referencedStore))).
    left. apply Exists_exists. exists executionOfK0.
    split; [by left|]. vm_compute. by left.
  - destruct (proj2 (proj2 (deleteContact_cases "k0" conversationStore)))
      as (s' & Heq & _).
    + vm_compute. by left.
    + intros [Hb|Hb]; apply Exists_exists in Hb as (x & Hx & _);
        by apply not_elem_of_nil in Hx.
    + exists s'. split; [exact Heq|].
      vm_compute in Heq. injection Heq as <-. by vm_compute.
  - apply (proj1 (deleteContact_cases "k7" conversationStore)).
    vm_compute. intros Hin%list_elem_of_singleton. discriminate.
Defined.

Lemma getContact_after_createContact_witness :
  getContact "k7" channelStore
  = (channelStore, Throw (AppError 404 "Contact not found")).
Proof.
  apply (proj1 (getContact_after_createContact channelStore)).
  vm_compute. intros Hin%list_elem_of_singleton. discriminate.
Defined.

(** X10. Where conversations and executions refer to stored contacts only,
    deleting the contact that [createContact] has just answered with gives
    back the store as it was before the create. *)
Theorem createContact_then_deleteContact (body : ContactBody)
    (requested : option string) (newId : string) (s s' : Store)
    (c : Contact.t) :
  contactIntegrity s →
  createContact body requested newId s = (s', Done c) →
  deleteContact (Contact.id c) s' = (s, Done tt).
Proof.
  intros []
    [(v & _ & _ & [= ->] & Hins)|(e & [=] & _)]%createContact_outcome.
  apply insertContactRow_Ok in Hins as (-> & Hfresh & _).
  set (c := contactRow newId _) in *.
  change (Contact.id c) with newId in *.
  assert (∀ k, refOk k (Contact.id <$> contacts s) → ¬ refersTo k [newId])
    as Hno.
  { intros [k|]; simpl; [|tauto]. intros Hk Hin%list_elem_of_singleton.
    by subst. }
  assert (goneContactIds [newId] (set_contacts (contacts s ++ [c]) s)
          = [newId]) as Hgone.
  { unfold goneContactIds. cbn [contacts set_contacts].
    rewrite filter_app, filter_cons, decide_True, filter_nil
      by (apply list_elem_of_singleton; done).
    assert (filter (λ c0, Contact.id c0 ∈ [newId]) (contacts s) = []) as ->;
      [|done].
    apply filter_nil_iff. intros y Hy Hin%list_elem_of_singleton.
    apply Hfresh. rewrite <- Hin. by apply list_elem_of_fmap_2. }
  assert (goneConversationIds [newId] (set_contacts (contacts s ++ [c]) s)
          = []) as Hconv.
  { unfold goneConversationIds. rewrite Hgone.
    cbn [conversations set_contacts].
    assert (filter (λ c0, refersTo (Conversation.contactId c0) [newId])
              (conversations s) = []) as ->; [|done].
    apply filter_nil_iff. intros y Hy. auto. }
  rewrite deleteContact_eq, deleteContactsIn_eq, Hgone, Hconv.
  rewrite decide_False.
  2:{ rewrite Exists_exists. intros (x & Hx & Href). revert Href.
      apply Hno. auto. }
  rewrite decide_False.
  2:{ rewrite Exists_exists. intros (x & Hx & Href).
      destruct (AutomationExecution.conversationId x); simpl in Href;
        [by apply not_elem_of_nil in Href|done]. }
  simpl. f_equal. apply Store_ext; simpl; try done.
  - rewrite filter_app, filter_cons, decide_False, filter_nil, app_nil_r
      by (intros Hn; apply Hn; by left).
    apply filter_all. intros y Hy Hin%list_elem_of_singleton.
    apply Hfresh. rewrite <- Hin. by apply list_elem_of_fmap_2.
  - apply filter_all. intros y Hy. auto.
Qed.

Lemma contactIntegrity_channelStore : contactIntegrity channelStore.
Proof.
  split; simpl.
  - apply NoDup_singleton.
  - intros c ->%list_elem_of_singleton. simpl. by left.
  - intros c1 c2 ->%list_elem_of_singleton ->%list_elem_of_singleton. done.
  - intros c Hc. by apply not_elem_of_nil in Hc.
  - intros x Hx. by apply not_elem_of_nil in Hx.
Qed.

Lemma createContact_then_deleteContact_witness :
  contactIntegrity channelStore
  ∧ deleteContact "k1"
      (set_contacts
         (contacts channelStore
          ++ [contactRow "k1" (mkInsertContact (Some "c1") "Ann" "+1" None None)])
         channelStore)
    = (channelStore, Done tt).
Proof.
  split; [exact contactIntegrity_channelStore|].
  apply (createContact_then_deleteContact annBody None "k1" channelStore _
           (contactRow "k1" (mkInsertContact (Some "c1") "Ann" "+1" None None))
           contactIntegrity_channelStore).
  by vm_compute.
Defined.

(** ** The contact tables stay consistent *)

Lemma contactConflict_sym (c1 c2 : Contact.t) :
  contactConflict c1 c2 → contactConflict c2 c1.
Proof.
  intros (Hsome & Hch & Hph). split; [by rewrite Hch|]. by split.
Qed.

Lemma refOk_snoc {A : Type} (f : A → string) (k : option string) (l : list A)
    (x : A) :
  refOk k (f <$> l) → refOk k (f <$> (l ++ [x])).
Proof. destruct k; simpl; [apply elem_of_fmap_snoc|done]. Qed.

Lemma insertContactRow_contactIntegrity (c : Contact.t) (s s' : Store) :
  contactIntegrity s → insertContactRow c s = Ok s' → contactIntegrity s'.
Proof.
  intros [] (-> & Hfresh & Hconf & Hch)%insertContactRow_Ok.
  rewrite Exists_exists in Hconf.
  split; simpl; auto using NoDup_fmap_snoc, refOk_snoc.
  - intros y [Hy| ->%list_elem_of_singleton]%elem_of_app; auto.
  - intros c1 c2 [H1| ->%list_elem_of_singleton]%elem_of_app
      [H2| ->%list_elem_of_singleton]%elem_of_app Hc; auto.
    + exfalso. apply Hconf. exists c1. split; [done|].
      by apply contactConflict_sym.
    + exfalso. apply Hconf. by exists c2.
Qed.

Lemma deleteContactsIn_contactIntegrity (ids : list string) (s s' : Store)
    (n : nat) :
  contactIntegrity s → deleteContactsIn ids s = Ok (n, s') → contactIntegrity s'.
Proof.
  intros [] H. rewrite deleteContactsIn_eq in H.
  case_decide as Hx1; [done|]. case_decide as Hx2; [done|].
  injection H as <- <-.
  assert (∀ k, refOk k (Contact.id <$> contacts s) →
            ¬ refersTo k (goneContactIds ids s) →
            refOk k (Contact.id <$> filter (λ c, Contact.id c ∉ ids) (contacts s)))
    as Hkeep.
  { intros [k|]; simpl; [|done]. intros Hk Hnot.
    apply surviving_key; [done|]. intros c Hc Heq Hin. apply Hnot.
    rewrite <- Heq. apply list_elem_of_fmap_2. by apply list_elem_of_filter. }
  split; simpl; auto using NoDup_fmap_filter.
  - intros c [_ Hc]%list_elem_of_filter. auto.
  - intros c1 c2 [_ H1]%list_elem_of_filter [_ H2]%list_elem_of_filter. auto.
  - intros c [Hnot Hc]%list_elem_of_filter. auto.
  - intros x Hx. apply Hkeep; [auto|]. intros Href. apply Hx1.
    apply Exists_exists. by exists x.
Qed.

Lemma updateContactRow_cases (cid : string) (p : ContactPatch) (s : Store) :
  NoDup (Contact.id <$> contacts s) →
  ((cid ∉ Contact.id <$> contacts s) ∧ updateContactRow cid p s = Ok s)
  ∨ ∃ c, c ∈ contacts s ∧ Contact.id c = cid
      ∧ updateContactRow cid p s
        = (require (¬ Exists (contactConflict (patchContact p c))
                        (filter (λ c', Contact.id c' ≠ cid) (contacts s)))
             (UniqueViolation "contacts_channel_phone_unique");;
           require (refOk (Contact.channelId (patchContact p c))
                      (Channel.id <$> channels s))
             (ForeignKeyViolation "contacts_channel_id_channels_id_fk");;
           Ok (set_contacts
                 ((λ c', if decide (Contact.id c' = cid)
                         then patchContact p c' else c') <$> contacts s) s)).
Proof.
  intros Hnd. unfold updateContactRow.
  destruct (list_find (λ c, Contact.id c = cid) (contacts s)) as [[i c]|] eqn:E.
  - right. apply list_find_Some in E as (Hl & Hid & _). exists c.
    split; [by eapply list_elem_of_lookup_2|]. by split.
  - left. split; [|done]. apply list_find_None in E.
    rewrite Forall_forall in E. intros (c & Heq & Hc)%list_elem_of_fmap.
    by apply (E c Hc).
Qed.

Lemma updateContactRow_contactIntegrity (cid : string) (p : ContactPatch)
    (s s' : Store) :
  contactIntegrity s → updateContactRow cid p s = Ok s' → contactIntegrity s'.
Proof.
  intros Hint H. pose proof Hint as [].
  destruct (updateContactRow_cases cid p s) as [[_ Heq]|(c & Hc & Hid & Heq)];
    [done|congruence|].
  rewrite Heq in H. requires H.
  match goal with Hx : ¬ Exists _ _ |- _ => rename Hx into Hconf end.
  rewrite Exists_exists in Hconf.
  assert (Contact.id <$>
            ((λ c', if decide (Contact.id c' = cid) then patchContact p c' else c')
               <$> contacts s) = Contact.id <$> contacts s) as Hids.
  { rewrite <- list_fmap_compose. apply list_fmap_ext. intros i y _. simpl.
    by case_decide. }
  assert (∀ y, y ∈ contacts s → Contact.id y = cid → y = c) as Hc_only.
  { intros y Hy Hyid. eapply (NoDup_fmap_elem_inj Contact.id); eauto.
    congruence. }
  split; simpl; rewrite ?Hids; auto.
  - intros y (o & -> & Ho)%list_elem_of_fmap. case_decide as Hoid; [|auto].
    by rewrite (Hc_only o Ho Hoid).
  - intros c1 c2 (o1 & -> & Ho1)%list_elem_of_fmap
      (o2 & -> & Ho2)%list_elem_of_fmap.
    destruct (decide (Contact.id o1 = cid)) as [Hd1|Hd1];
      destruct (decide (Contact.id o2 = cid)) as [Hd2|Hd2].
    + intros _. by rewrite (Hc_only o1 Ho1 Hd1), (Hc_only o2 Ho2 Hd2).
    + rewrite (Hc_only o1 Ho1 Hd1). intros Hcf. exfalso. apply Hconf.
      exists o2. split; [by apply list_elem_of_filter|done].
    + rewrite (Hc_only o2 Ho2 Hd2). intros Hcf. exfalso. apply Hconf.
      exists o1. split; [by apply list_elem_of_filter|].
      by apply contactConflict_sym.
    + auto.
Qed.

(** ** What an import writes *)

Lemma parseContact_spread (b : ContactBody) (channelId : option string)
    (v : InsertContact) :
  parseContact (spreadWithChannelId b channelId) = Some v →
  ict_channelId v = channelId ∧ ctb_phone b = JsString (ict_phone v).
Proof.
  unfold parseContact, spreadWithChannelId. simpl. intros H.
  destruct channelId as [ch|]; simpl in H;
    destruct (zString (ctb_name b)); simpl in H; try done;
    destruct (ctb_phone b); simpl in H; try done;
    destruct (zNullish zString (ctb_email b)); simpl in H; try done;
    destruct (zNullish zString (ctb_status b)); simpl in H; try done;
    by injection H as <-.
Qed.

(** The two ways a turn of the import loop can end. *)
Lemma importOne_cases (channelId : option string) (st st' : ImportState)
    (contact : ImportItem) (newId : string) (s s' : Store) :
  importOne channelId st contact newId s = (s', Done st') →
  (∃ b v, contact = ItemObject b
        ∧ hasPhone (existingPhones st) (ctb_phone b) = false
        ∧ parseContact (spreadWithChannelId b channelId) = Some v
        ∧ insertContactRow (contactRow newId v) s = Ok s'
        ∧ st' = mkImportState ({[ict_phone v]} ∪ existingPhones st)
                  (createdContacts st ++ [contactRow newId v])
                  (duplicates st) (errors st))
  ∨ (s' = s
     ∧ existingPhones st' = existingPhones st
     ∧ createdContacts st' = createdContacts st
     ∧ ((∃ b, contact = ItemObject b
              ∧ hasPhone (existingPhones st) (ctb_phone b) = true
              ∧ st' = asDuplicate contact st)
        ∨ (∃ msg, duplicates st' = duplicates st
                  ∧ errors st' = errors st ++ [(contact, msg)]
                  ∧ ∀ b, contact = ItemObject b →
                      hasPhone (existingPhones st) (ctb_phone b) = false
                      ∧ ∀ v, parseContact (spreadWithChannelId b channelId)
                              = Some v →
                          ∃ e, insertContactRow (contactRow newId v) s
                               = Err e))).
Proof.
  unfold importOne, tryCatch.
  destruct contact as [|b].
  { intros [= <- <-]. right. repeat split; try done. right. eexists.
    repeat split; try done. }
  destruct (hasPhone (existingPhones st) (ctb_phone b)) eqn:Hhas.
  { intros [= <- <-]. right. repeat split; try done. left. by exists b. }
  unfold mbind at 1. unfold Handler_bind at 1. unfold parse.
  destruct (parseContact (spreadWithChannelId b channelId)) as [v|] eqn:Hparse.
  2:{ intros [= <- <-]. right. repeat split; try done. right. eexists.
      split; [done|]. split; [done|]. intros b' [= <-]. split; [done|].
      intros v. by rewrite Hparse. }
  unfold mret at 1, Handler_ret at 1.
  unfold mbind at 1. unfold Handler_bind at 1.
  rewrite storage_createContact_eq.
  destruct (insertContactRow (contactRow newId v) s) as [s1|e] eqn:Hins.
  - intros [= <- <-]. left. exists b, v. by repeat split.
  - intros [= <- <-]. right. repeat split; try done. right. eexists.
    split; [done|]. split; [done|]. intros b' [= <-]. split; [done|].
    intros v'. rewrite Hparse. intros [= <-]. by eexists.
Qed.

(** Every property of stores that accepted inserts of contacts keep is kept
    by the import loop. *)
Lemma importLoop_inserts (I : Store → Prop) (channelId : option string)
    (contacts : list (ImportItem * string)) :
  (∀ c sA sB, I sA → insertContactRow c sA = Ok sB → I sB) →
  ∀ st s s' st',
    importLoop channelId st contacts s = (s', Done st') → I s → I s'.
Proof.
  intros Hins. induction contacts as [|[contact newId] rest IH];
    intros st s s' st' Hloop Hs.
  - by injection Hloop as <- <-.
  - simpl in Hloop. unfold mbind, Handler_bind in Hloop.
    destruct (importOne channelId st contact newId s) as [s1 [st1|e]] eqn:H1;
      [|done].
    apply (IH _ _ _ _ Hloop).
    apply importOne_cases in H1 as [(b & v & _ & _ & _ & Hi & _)|(-> & _)];
      eauto.
Qed.

(** The contacts a run of the loop appends are those it lists as created;
    they lie in the given channel, their phones are new to the set the loop
    started from and differ from each other. *)
Lemma importLoop_store (channelId : option string)
    (items : list (ImportItem * string)) :
  ∀ st s s' st',
    importLoop channelId st items s = (s', Done st') →
    ∃ added,
      s' = set_contacts (contacts s ++ added) s
      ∧ createdContacts st' = createdContacts st ++ added
      ∧ NoDup (Contact.phone <$> added)
      ∧ ∀ c, c ∈ added →
          Contact.channelId c = channelId
          ∧ Contact.phone c ∉ existingPhones st.
Proof.
  induction items as [|[contact newId] rest IH]; intros st s s' st' Hloop.
  - injection Hloop as <- <-. exists []. rewrite !app_nil_r.
    split; [by destruct s|]. split; [done|]. split; [apply NoDup_nil_2|].
    intros c Hc. by apply not_elem_of_nil in Hc.
  - simpl in Hloop. unfold mbind, Handler_bind in Hloop.
    destruct (importOne channelId st contact newId s) as [s1 [st1|e]] eqn:H1;
      [|done].
    destruct (IH _ _ _ _ Hloop) as (added & -> & Hcreated & Hnd & Hall).
    apply importOne_cases in H1
      as [(b & v & -> & Hhas & Hparse & Hi & ->)|(-> & Hph & Hcr & _)].
    + apply insertContactRow_Ok in Hi as (-> & _).
      apply parseContact_spread in Hparse as [Hch Hraw].
      exists (contactRow newId v :: added). simpl in *.
      split; [by rewrite <- app_assoc|]. split; [by rewrite <- app_assoc in Hcreated|].
      split.
      * apply NoDup_cons. split; [|done].
        intros (c & Heq & Hc)%list_elem_of_fmap.
        destruct (Hall c Hc) as [_ Hnot]. apply Hnot. rewrite <- Heq.
        apply elem_of_union. left. by apply elem_of_singleton.
      * intros c [->|Hc]%elem_of_cons.
        -- split; [done|]. simpl. rewrite Hraw in Hhas. simpl in Hhas.
           by apply bool_decide_eq_false in Hhas.
        -- destruct (Hall c Hc) as [? Hnot]. split; [done|].
           intros Hin. apply Hnot. apply elem_of_union. by right.
    + exists added. rewrite Hcr in Hcreated.
      split; [done|]. split; [done|]. split; [done|].
      intros c Hc. rewrite <- Hph. auto.
Qed.

Lemma deleteBulkContacts_eq (ids : list string) (s : Store) :
  ids ≠ [] →
  deleteBulkContacts (Some ids) s
  = match deleteContactsIn ids s with
    | Ok (n, s') =>
        if decide (n = 0)
        then (s', Throw (AppError 404 "No contacts found to delete"))
        else (s', Done tt)
    | Err e => (s, Throw (DatabaseError e))
    end.
Proof.
  intros Hne. destruct ids as [|i ids]; [done|].
  unfold deleteBulkContacts, mbind, Handler_bind, statementReturning.
  destruct (deleteContactsIn (i :: ids) s) as [[n s']|e]; [|done].
  by case_decide.
Qed.

(** The UPDATE of a contact with the values of an object: the checks of
    the [notNull()] columns come first, and apply to a stored row only. *)
Lemma updateContactData_eq (cid : string) (data : ContactBody) (s : Store) :
  (cid ∈ Contact.id <$> contacts s → keepsContactNotNull data) →
  updateContactData cid data s = updateContactRow cid (contactValues data) s.
Proof.
  intros Hnull. unfold updateContactData.
  destruct (decide (cid ∈ Contact.id <$> contacts s)) as [Hin|Hin]; [|done].
  destruct (Hnull Hin) as [H1 H2]. unfold require. by rewrite !decide_True.
Qed.

Lemma updateContactData_null (cid : string) (data : ContactBody) (s : Store) :
  cid ∈ Contact.id <$> contacts s → ¬ keepsContactNotNull data →
  ∃ column, updateContactData cid data s = Err (NotNullViolation column).
Proof.
  intros Hin Hnull. unfold updateContactData, require.
  rewrite decide_True by done.
  destruct (decide (ctb_name data ≠ JsNull)); [|by eexists].
  destruct (decide (ctb_phone data ≠ JsNull)); [|by eexists].
  by destruct Hnull.
Qed.

Lemma updateContactData_Ok (cid : string) (data : ContactBody) (s s' : Store) :
  updateContactData cid data s = Ok s' →
  updateContactRow cid (contactValues data) s = Ok s'.
Proof.
  intros H. rewrite <- H. symmetry. apply updateContactData_eq. intros Hin.
  destruct (decide (keepsContactNotNull data)) as [|Hnull]; [done|].
  destruct (updateContactData_null cid data s Hin Hnull) as [column He].
  congruence.
Qed.

Lemma updateContact_eq (cid : string) (body : ContactBody) (s : Store) :
  updateContact cid body s
  = match updateContactData cid body s with
    | Ok s' =>
        match snd <$> list_find (λ c, Contact.id c = cid) (contacts s') with
        | Some c => (s', Done c)
        | None => (s', Throw (AppError 404 "Contact not found"))
        end
    | Err e => (s, Throw (DatabaseError e))
    end.
Proof.
  unfold updateContact, storage.updateContact, mbind, Handler_bind, statement,
    storage.getContact, query.
  destruct (updateContactData cid body s) as [s'|e]; [|done].
  by destruct (list_find _ (contacts s')) as [[i c]|].
Qed.

(** X11. The handlers of the contact controller keep the contact tables
    consistent, whatever they answer: contact ids stay unique, contacts stay
    filed under stored channels, no two contacts of one channel share a
    phone, and conversations and executions keep referring to stored
    contacts. *)
Theorem contact_handlers_keep_integrity (s : Store) :
  contactIntegrity s →
  (∀ body requested newId s' r,
     createContact body requested newId s = (s', r) → contactIntegrity s')
  ∧ (∀ items bodyChannelId queryChannelId s' r,
       importContacts items bodyChannelId queryChannelId s = (s', r) →
       contactIntegrity s')
  ∧ (∀ cid body s' r, updateContact cid body s = (s', r) → contactIntegrity s')
  ∧ (∀ cid s' r, deleteContact cid s = (s', r) → contactIntegrity s')
  ∧ (∀ ids s' r, deleteBulkContacts ids s = (s', r) → contactIntegrity s').
Proof.
  intros Hs. split; [|split; [|split; [|split]]].
  - intros body requested newId s' r
      [(v & _ & _ & _ & Hins)|(e & _ & ->)]%createContact_outcome; [|done].
    by eapply insertContactRow_contactIntegrity.
  - intros [items|] bodyChannelId queryChannelId s' r; [|by intros [= <- _]].
    rewrite importContacts_eq.
    destruct (importLoop _ _ items s) as [s1 [st1|e]] eqn:Hloop.
    + intros [= <- _].
      eapply (importLoop_inserts contactIntegrity); [|exact Hloop|exact Hs].
      intros c sA sB. apply insertContactRow_contactIntegrity.
    + destruct (importLoop_total
                  (resolvedChannelId (orElse bodyChannelId queryChannelId) s)
                  items
                  (importStart
                     (resolvedContacts (orElse bodyChannelId queryChannelId) s))
                  s) as (s2 & st2 & Hloop' & _).
      congruence.
  - intros cid body s' r. rewrite updateContact_eq.
    destruct (updateContactData cid body s) as [s1|e] eqn:Hupd.
    + apply updateContactData_Ok, updateContactRow_contactIntegrity in Hupd;
        [|done].
      destruct (snd <$> list_find _ (contacts s1)); by intros [= <- _].
    + by intros [= <- _].
  - intros cid s' r. rewrite deleteContact_eq.
    destruct (deleteContactsIn [cid] s) as [[n s1]|e] eqn:Hdel.
    + apply deleteContactsIn_contactIntegrity in Hdel; [|done].
      case_decide; by intros [= <- _].
    + by intros [= <- _].
  - intros [[|i ids]|] s' r; try by intros [= <- _].
    rewrite deleteBulkContacts_eq by done.
    destruct (deleteContactsIn (i :: ids) s) as [[n s1]|e] eqn:Hdel.
    + apply deleteContactsIn_contactIntegrity in Hdel; [|done].
      case_decide; by intros [= <- _].
    + by intros [= <- _].
Qed.

Lemma contact_handlers_keep_integrity_witness :
  contactIntegrity channelStore
  ∧ contactIntegrity
      (set_contacts
         (contacts channelStore
          ++ [contactRow "k1" (mkInsertContact (Some "c1") "Ann" "+1" None None)])
         channelStore).
Proof.
  split; [exact contactIntegrity_channelStore|].
  apply (proj1 (contact_handlers_keep_integrity channelStore
                  contactIntegrity_channelStore)
           annBody None "k1" _
           (Done (contactRow "k1"
                    (mkInsertContact (Some "c1") "Ann" "+1" None None)))).
  by vm_compute.
Defined.




Lemma resolvedContacts_phones (requested : option string) (s : Store)
    (p : string) :
  p ∈ existingPhones (importStart (resolvedContacts requested s))
  ↔ p ∈ Contact.phone <$> resolvedContacts requested s.
Proof. simpl. by rewrite elem_of_list_to_set. Qed.

(** X13. What a completed import leaves in the store is the old store with
    the created contacts appended, as many as the report counts: all other
    tables are untouched, every created contact is filed under the resolved
    channel, and their phones differ from each other and from the phones of
    the resolved existing contacts. *)
Theorem importContacts_appends_created (items : list (ImportItem * string))
    (bodyChannelId queryChannelId : option string) (s s' : Store)
    (r : ImportReport) :
  importContacts (Some items) bodyChannelId queryChannelId s = (s', Done r) →
  ∃ added,
    s' = set_contacts (contacts s ++ added) s
    ∧ length added = r_created r
    ∧ NoDup (Contact.phone <$> added)
    ∧ ∀ c, c ∈ added →
        Contact.channelId c
        = resolvedChannelId (orElse bodyChannelId queryChannelId) s
        ∧ Contact.phone c
          ∉ Contact.phone <$>
              resolvedContacts (orElse bodyChannelId queryChannelId) s.
Proof.
  rewrite importContacts_eq.
  destruct (importLoop _ _ items s) as [s1 [st1|e]] eqn:Hloop; [|done].
  intros [= <- <-].
  destruct (importLoop_store _ _ _ _ _ _ Hloop)
    as (added & Hs1 & Hcreated & Hnd & Hall).
  exists added. split; [done|]. simpl. rewrite Hcreated. simpl.
  split; [done|]. split; [done|].
  intros c Hc. destruct (Hall c Hc) as [Hch Hnot]. split; [done|].
  by rewrite <- resolvedContacts_phones.
Qed.

Lemma importContacts_appends_created_witness :
  ∃ added,
    set_contacts (contacts channelStore ++ [contactK1]) channelStore
    = set_contacts (contacts channelStore ++ added) channelStore
    ∧ length added = 1
    ∧ NoDup (Contact.phone <$> added).
Proof.
  destruct (importContacts_appends_created
              [(ItemObject annBody, "k1"); (ItemObject annBody, "k2");
               (ItemObject zoeBody, "k3")]
              None None channelStore
              (set_contacts (contacts channelStore ++ [contactK1]) channelStore)
              (mkImportReport 1 2 0 3
                 (mkImportDetails 1
                    [(ItemObject annBody, "Phone number already exists");
                     (ItemObject zoeBody, "Phone number already exists")] [])))
    as (added & Hs & Hlen & Hnd & _); [by vm_compute|].
  exists added. split; [exact Hs|]. split; [exact Hlen|exact Hnd].
Defined.

(** The loop when the resolved channel is not a stored channel: every
    insert is refused, so nothing is created. *)
Lemma importLoop_unknown_channel (channelId : option string) (s : Store)
    (items : list (ImportItem * string)) :
  ¬ refOk channelId (Channel.id <$> channels s) →
  ∀ st, ∃ st', importLoop channelId st items s = (s, Done st')
    ∧ createdContacts st' = createdContacts st
    ∧ filed st' = filed st + length items.
Proof.
  intros Hbad. induction items as [|[contact newId] rest IH]; intros st.
  - exists st. split; [done|]. split; [done|]. simpl. lia.
  - destruct (importOne_step channelId st contact newId s)
      as (s1 & st1 & H1 & Hfiled & _).
    pose proof H1 as Hcase.
    apply importOne_cases in Hcase
      as [(b & v & _ & _ & Hparse & Hi & _)|(-> & _ & Hcr & _)].
    + exfalso. apply insertContactRow_Ok in Hi as (_ & _ & _ & Hok).
      apply parseContact_spread in Hparse as [Hch _]. simpl in Hok.
      by rewrite Hch in Hok.
    + destruct (IH st1) as (st' & Hloop & Hcr' & Hfiled').
      exists st'. split.
      { simpl. unfold mbind, Handler_bind. by rewrite H1. }
      split; [congruence|]. simpl. lia.
Qed.

(** X14. An import whose resolved channel is not a stored channel creates
    nothing and leaves the store unchanged: every element is reported as a
    duplicate or as failed. *)
Theorem importContacts_unknown_channel (items : list (ImportItem * string))
    (bodyChannelId queryChannelId : option string) (s : Store) :
  ¬ refOk (resolvedChannelId (orElse bodyChannelId queryChannelId) s)
      (Channel.id <$> channels s) →
  ∃ r, importContacts (Some items) bodyChannelId queryChannelId s = (s, Done r)
    ∧ r_created r = 0
    ∧ r_duplicates r + r_failed r = length items.
Proof.
  intros Hbad. rewrite importContacts_eq.
  destruct (importLoop_unknown_channel _ s items Hbad
              (importStart
                 (resolvedContacts (orElse bodyChannelId queryChannelId) s)))
    as (st' & -> & Hcr & Hfiled).
  eexists. split; [done|]. simpl. rewrite Hcr. simpl. split; [done|].
  unfold filed in Hfiled. rewrite Hcr in Hfiled. simpl in Hfiled. lia.
Qed.

Lemma importContacts_unknown_channel_witness :
  ¬ refOk (resolvedChannelId (orElse (Some "c9") None) channelStore)
      (Channel.id <$> channels channelStore)
  ∧ ∃ r, importContacts (Some [(ItemObject annBody, "k1")]) (Some "c9") None
           channelStore = (channelStore, Done r)
      ∧ r_created r = 0
      ∧ r_duplicates r + r_failed r = 1.
Proof.
  assert (¬ refOk (resolvedChannelId (orElse (Some "c9") None) channelStore)
            (Channel.id <$> channels channelStore)) as Hbad.
  { vm_compute. intros Hin. apply list_elem_of_In in Hin. simpl in Hin.
    intuition discriminate. }
  split; [exact Hbad|].
  exact (importContacts_unknown_channel [(ItemObject annBody, "k1")]
           (Some "c9") None channelStore Hbad).
Defined.


(** ** More on channels *)






(** What [createChannel] does for a body the insert schema accepts. *)
Lemma createChannel_result (body : ChannelBody) (v : InsertChannel)
    (newId : string) (health : HealthResponse) (s : Store) :
  parseChannel body = Some v →
  newId ∉ Channel.id <$> channels s →
  createChannel body newId health s
  = (set_channels
       ((if truthyBoolean (mjoin (ic_isActive v))
         then deactivateAll (Channel.id <$> filter active (channels s))
                (channels s)
         else channels s)
        ++ [afterHealthCheck health (channelRow newId v)]) s,
     Done (Some (afterHealthCheck health (channelRow newId v)))).
Proof.
  intros Hparse Hfresh.
  unfold createChannel, parse. rewrite Hparse.
  unfold mbind at 1. unfold Handler_bind at 1. unfold mret at 1, Handler_ret at 1.
  set (rows := if truthyBoolean (mjoin (ic_isActive v))
               then deactivateAll (Channel.id <$> filter active (channels s))
                      (channels s)
               else channels s).
  assert ((if truthyBoolean (mjoin (ic_isActive v))
           then channels ← storage.getChannels;
                forOf channels
                  (λ channel,
                     if truthyBoolean (Channel.isActive channel)
                     then storage.updateChannel (Channel.id channel)
                            (isActiveObject false);; mret tt
                     else mret tt)
           else mret tt) s = (set_channels rows s, Done tt)) as Hloop.
  { subst rows. destruct (truthyBoolean (mjoin (ic_isActive v))).
    - unfold mbind at 1. unfold Handler_bind at 1.
      unfold storage.getChannels at 1, query at 1. apply createChannel_loop.
    - unfold mret, Handler_ret. by rewrite set_channels_same. }
  unfold mbind at 1. unfold Handler_bind at 1. rewrite Hloop.
  assert (newId ∉ Channel.id <$> rows) as Hfresh'.
  { subst rows. destruct (truthyBoolean _); [|done].
    by rewrite deactivateAll_ids. }
  unfold mbind at 1. unfold Handler_bind at 1.
  rewrite storage_createChannel_eq by done.
  change (channels (set_channels rows s)) with rows.
  assert (∀ p, updatedRows newId p (rows ++ [channelRow newId v])
               = rows ++ [patchChannel p (channelRow newId v)]) as Hupd.
  { intros p. unfold updatedRows. rewrite fmap_app.
    fold (updatedRows newId p rows). rewrite updatedRows_fresh by done.
    simpl. by rewrite decide_True. }
  assert (∀ c, Channel.id c = newId →
               snd <$> list_find (λ c0, Channel.id c0 = newId) (rows ++ [c])
               = Some c) as Hfind.
  { intros c Hc. apply find_snoc_fresh; [|done].
    intros y Hy Heq. apply Hfresh'. rewrite <- Heq.
    by apply list_elem_of_fmap_2. }
  unfold mbind at 1. unfold Handler_bind at 1.
  destruct health; simpl afterHealthCheck.
  - unfold tryCatch, mbind, Handler_bind.
    rewrite storage_updateChannel_healthStatus.
    unfold mret, Handler_ret, storage.getChannel, query. simpl channels.
    change (Channel.id (channelRow newId v)) with newId.
    by rewrite Hupd, Hfind.
  - unfold tryCatch, mbind, Handler_bind.
    rewrite storage_updateChannel_healthStatus.
    unfold mret, Handler_ret, storage.getChannel, query. simpl channels.
    change (Channel.id (channelRow newId v)) with newId.
    by rewrite Hupd, Hfind.
  - unfold tryCatch, throw, mret, Handler_ret, storage.getChannel, query.
    simpl channels. change (Channel.id (channelRow newId v)) with newId.
    by rewrite Hfind.
Qed.


Lemma parseChannel_fields (body : ChannelBody) (v : InsertChannel) :
  parseChannel body = Some v →
  zNullish zBoolean (cb_isActive body) = Some (ic_isActive v)
  ∧ cb_name body = JsString (ic_name v).
Proof.
  unfold parseChannel. intros H.
  destruct (cb_name body); simpl in H; try done.
  destruct (zString (cb_phoneNumberId body)); simpl in H; try done.
  destruct (zString (cb_accessToken body)); simpl in H; try done.
  destruct (zNullish zBoolean (cb_isActive body)); simpl in H; try done.
  destruct (zNullish zString (cb_healthStatus body)); simpl in H; try done.
  by injection H as <-.
Qed.

(** X16. [createChannel] deactivates nothing unless the body says
    [isActive: true]: for any other accepted body the stored channels stay
    as they are and the new channel is appended, inactive when the body says
    [false] or [null], and active by the column default when the body leaves
    [isActive] out; in that last case a channel that was active stays active
    beside the new one. *)
Theorem createChannel_without_activation (body : ChannelBody)
    (v : InsertChannel) (newId : string) (health : HealthResponse) (s : Store) :
  parseChannel body = Some v →
  cb_isActive body ≠ JsBoolean true →
  newId ∉ Channel.id <$> channels s →
  ∃ c, createChannel body newId health s
       = (set_channels (channels s ++ [c]) s, Done (Some c))
    ∧ Channel.id c = newId
    ∧ Channel.isActive c
      = match cb_isActive body with
        | JsUndefined => Some true
        | JsNull => None
        | _ => Some false
        end
    ∧ (cb_isActive body = JsUndefined →
       ∀ c0, c0 ∈ channels s → active c0 →
         active c ∧ c0 ≠ c
         ∧ ¬ atMostOneActive (set_channels (channels s ++ [c]) s)).
Proof.
  intros Hparse Hact Hfresh.
  destruct (parseChannel_fields _ _ Hparse) as [Hfield _].
  assert (truthyBoolean (mjoin (ic_isActive v)) = false
          ∧ default (Some true) (ic_isActive v)
            = match cb_isActive body with
              | JsUndefined => Some true
              | JsNull => None
              | _ => Some false
              end) as [Hfalsy Hstored].
  { destruct (cb_isActive body) as [| |[]| |]; simpl in Hfield;
      try discriminate; try (by injection Hfield as <-). }
  exists (afterHealthCheck health (channelRow newId v)).
  rewrite (createChannel_result _ _ _ _ _ Hparse Hfresh), Hfalsy.
  assert (Channel.isActive (afterHealthCheck health (channelRow newId v))
          = default (Some true) (ic_isActive v)) as Hisactive
    by by destruct health.
  split; [done|]. split; [by destruct health|].
  split; [by rewrite Hisactive|].
  intros Hundef c0 Hc0 Ha0.
  assert (active (afterHealthCheck health (channelRow newId v))) as Ha.
  { unfold active. rewrite Hisactive, Hstored. by rewrite Hundef. }
  assert (c0 ≠ afterHealthCheck health (channelRow newId v)) as Hne.
  { intros ->. apply Hfresh.
    assert (Channel.id (afterHealthCheck health (channelRow newId v)) = newId)
      as <- by by destruct health.
    by apply list_elem_of_fmap_2. }
  split; [done|]. split; [done|].
  intros Hone. apply Hne. apply Hone; simpl; try done.
  - apply elem_of_app. by left.
  - apply elem_of_app. right. by left.
Qed.

Lemma createChannel_without_activation_witness :
  ∃ c, createChannel
         (mkChannelBody (JsString "Third") (JsString "1003")
            (JsString "token-3") JsUndefined JsUndefined)
         "c3" FetchThrew channelStore
       = (set_channels (channels channelStore ++ [c]) channelStore,
          Done (Some c))
    ∧ active c ∧ channelC1 ≠ c
    ∧ ¬ atMostOneActive (set_channels (channels channelStore ++ [c]) channelStore).
Proof.
  destruct (createChannel_without_activation
              (mkChannelBody (JsString "Third") (JsString "1003")
                 (JsString "token-3") JsUndefined JsUndefined)
              (mkInsertChannel "Third" "1003" "token-3" None None)
              "c3" FetchThrew channelStore eq_refl)
    as (c & Heq & _ & _ & Htwo).
  - discriminate.
  - simpl. intros Hin. apply list_elem_of_In in Hin. simpl in Hin.
    intuition discriminate.
  - exists c. split; [exact Heq|].
    apply (Htwo eq_refl channelC1); [by left|done].
Defined.

(** X17. For a body the insert schema accepts (and a fresh id),
    [createChannel] always answers with the stored new channel, whatever
    the health request did: its name, phone number id and access token are
    those of the body, and its health status is [healthy] when the response
    was ok, [error] when it was not, and the inserted value (default
    [unknown]) when the request threw. *)
Theorem createChannel_health_status (body : ChannelBody) (v : InsertChannel)
    (newId : string) (health : HealthResponse) (s : Store) :
  parseChannel body = Some v →
  newId ∉ Channel.id <$> channels s →
  ∃ s' c, createChannel body newId health s = (s', Done (Some c))
    ∧ c ∈ channels s'
    ∧ Channel.id c = newId
    ∧ Channel.name c = ic_name v
    ∧ Channel.phoneNumberId c = ic_phoneNumberId v
    ∧ Channel.accessToken c = ic_accessToken v
    ∧ Channel.healthStatus c
      = match health with
        | ResponseOk => Some "healthy"
        | ResponseNotOk => Some "error"
        | FetchThrew => default (Some "unknown") (ic_healthStatus v)
        end
    ∧ contacts s' = contacts s.
Proof.
  intros Hparse Hfresh. eexists _, _.
  split; [exact (createChannel_result _ _ _ _ _ Hparse Hfresh)|].
  split; [simpl; apply elem_of_app; right; by left|].
  by destruct health.
Qed.

Lemma createChannel_health_status_witness :
  ∃ s' c, createChannel newChannelBody "c3" ResponseNotOk channelStore
          = (s', Done (Some c))
    ∧ Channel.id c = "c3"
    ∧ Channel.healthStatus c = Some "error".
Proof.
  destruct (createChannel_health_status newChannelBody
              (mkInsertChannel "Third" "1003" "token-3" (Some (Some true)) None)
              "c3" ResponseNotOk channelStore eq_refl)
    as (s' & c & Heq & _ & Hid & _ & _ & _ & Hhealth & _).
  - simpl. intros Hin. apply list_elem_of_In in Hin. simpl in Hin.
    intuition discriminate.
  - exists s', c. split; [exact Heq|]. split; [exact Hid|exact Hhealth].
Defined.


Lemma getChannel_missing (cid : string) (l : list Channel.t) :
  cid ∉ Channel.id <$> l →
  list_find (λ c, Channel.id c = cid) l = None.
Proof.
  intros Hcid. apply list_find_None, Forall_forall. intros c Hc Heq.
  apply Hcid. rewrite <- Heq. by apply list_elem_of_fmap_2.
Qed.


Lemma filter_ext_in {A : Type} (P Q : A → Prop) `{∀ x, Decision (P x)}
    `{∀ x, Decision (Q x)} (l : list A) :
  (∀ x, x ∈ l → P x ↔ Q x) → filter P l = filter Q l.
Proof.
  induction l as [|a l IH]; intros Hext; [done|].
  rewrite !filter_cons.
  assert (filter P l = filter Q l) as ->
    by (apply IH; intros x Hx; apply Hext; by right).
  destruct (decide (P a)) as [HP|HP]; destruct (decide (Q a)) as [HQ|HQ];
    try done; exfalso; apply (Hext a (list_elem_of_here _ _)) in HP + apply (Hext a (list_elem_of_here _ _)) in HQ; done.
Qed.

(** An UPDATE through the storage layer for an id that is not stored:
    nothing is written; the call answers with nothing, or throws when a
    value is refused by its column. *)
Lemma storage_updateChannel_missing (cid : string) (data : ChannelBody)
    (s : Store) :
  cid ∉ Channel.id <$> channels s →
  storage.updateChannel cid data s
  = match columnValues data with
    | Ok _ => (s, Done None)
    | Err e => (s, Throw (DatabaseError e))
    end.
Proof.
  intros Hcid.
  unfold storage.updateChannel, statement, updateChannelData.
  unfold mbind at 1. unfold Handler_bind at 1.
  destruct (columnValues data) as [values|e]; [|done].
  unfold mbind at 1. unfold Result_bind at 1.
  rewrite decide_False by done. unfold mbind, Result_bind, updateChannelRow.
  fold (updatedRows cid values (channels s)).
  rewrite updatedRows_fresh, set_channels_same by done.
  unfold storage.getChannel, query. by rewrite getChannel_missing.
Qed.


(** X18. [updateChannel] of an id that is not stored never answers with a
    channel.  With [isActive: true] in the body it answers 404, but only
    after the loop has run: every channel that was active has been
    deactivated, so no channel is active afterwards.  With any other body
    the store is unchanged, and the answer is 404, or a database error when
    the body holds a value its column refuses. *)
Theorem updateChannel_missing_channel (cid : string) (body : ChannelBody)
    (s : Store) :
  cid ∉ Channel.id <$> channels s →
  (cb_isActive body = JsBoolean true →
   ∃ s', updateChannel cid body s
         = (s', Throw (AppError 404 "Channel not found"))
     ∧ channels s'
       = deactivateAll (Channel.id <$> filter active (channels s)) (channels s)
     ∧ (∀ c, c ∈ channels s' → ¬ active c)
     ∧ Channel.id <$> channels s' = Channel.id <$> channels s)
  ∧ (cb_isActive body ≠ JsBoolean true →
     updateChannel cid body s
     = (s, Throw match columnValues body with
                 | Ok _ => AppError 404 "Channel not found"
                 | Err e => DatabaseError e
                 end)).
Proof.
  intros Hcid. split.
  - intros Hact. unfold updateChannel. rewrite decide_True by done.
    destruct (columnValues_active body Hact) as (values & Hvalues & _).
    unfold mbind at 1. unfold Handler_bind at 1.
    unfold mbind at 1. unfold Handler_bind at 1.
    unfold storage.getChannels at 1, query at 1.
    rewrite updateChannel_loop.
    assert (filter (λ c, Channel.id c ≠ cid ∧ truthyBoolean (Channel.isActive c))
              (channels s) = filter active (channels s)) as ->.
    { apply filter_ext_in. intros c Hc.
      rewrite <- truthyBoolean_active. split.
      - intros [_ Ht]. by apply Is_true_true.
      - intros Ht. split; [|by apply Is_true_true].
        intros Heq. apply Hcid. rewrite <- Heq. by apply list_elem_of_fmap_2. }
    set (rows := deactivateAll _ _).
    assert (Channel.id <$> rows = Channel.id <$> channels s) as Hids
      by apply deactivateAll_ids.
    unfold mbind at 1. unfold Handler_bind at 1.
    rewrite storage_updateChannel_missing by (simpl; by rewrite Hids).
    rewrite Hvalues.
    eexists. split; [done|]. simpl. split; [done|]. split; [|done].
    intros c Hc. by apply deactivateAll_inactive in Hc.
  - intros Hact. unfold updateChannel. rewrite decide_False by done.
    unfold mbind at 1. unfold Handler_bind at 1. unfold mret at 1, Handler_ret at 1.
    unfold mbind at 1. unfold Handler_bind at 1.
    rewrite storage_updateChannel_missing by done.
    by destruct (columnValues body).
Qed.

Lemma updateChannel_missing_channel_witness :
  ∃ s', updateChannel "c9" (isActiveObject true) channelStore
        = (s', Throw (AppError 404 "Channel not found"))
    ∧ ∀ c, c ∈ channels s' → ¬ active c.
Proof.
  destruct (proj1 (updateChannel_missing_channel "c9" (isActiveObject true)
                     channelStore
                     ltac:(simpl; intros Hin; apply list_elem_of_In in Hin;
                           simpl in Hin; intuition discriminate))
              eq_refl)
    as (s' & Heq & _ & Hnone & _).
  exists s'. split; [exact Heq|exact Hnone].
Defined.



(** X20. [checkChannelHealth] answers 404 and writes nothing for an id that
    is not stored.  For a stored channel it never throws: it reports
    [healthy] when the response was ok and [error] when it was not or the
    request threw, stores that status in the rows with that id, and changes
    neither another row nor any [isActive]. *)
Theorem checkChannelHealth_reports_what_it_stores (cid : string)
    (health : HealthResponse) (s : Store) :
  (cid ∉ Channel.id <$> channels s →
   checkChannelHealth cid health s
   = (s, Throw (AppError 404 "Channel not found")))
  ∧ (cid ∈ Channel.id <$> channels s →
     ∃ s', checkChannelHealth cid health s = (s', Done (reportedStatus health))
       ∧ channels s'
         = updatedRows cid (setHealthStatus (reportedStatus health)) (channels s)
       ∧ (∀ c, c ∈ channels s' → Channel.id c = cid →
            Channel.healthStatus c = Some (reportedStatus health))
       ∧ (∀ c, c ∈ channels s → Channel.id c ≠ cid → c ∈ channels s')
       ∧ Channel.isActive <$> channels s' = Channel.isActive <$> channels s
       ∧ Channel.id <$> channels s' = Channel.id <$> channels s).
Proof.
  unfold checkChannelHealth, storage.getChannel, query. split.
  - intros Hcid. unfold mbind at 1. unfold Handler_bind at 1.
    by rewrite getChannel_missing.
  - intros (c0 & Hid & Hc0)%list_elem_of_fmap.
    destruct (list_find (λ c, Channel.id c = cid) (channels s))
      as [[i c]|] eqn:E.
    2:{ apply list_find_None in E. rewrite Forall_forall in E.
        by destruct (E c0 Hc0). }
    assert (checkChannelHealth_body :
      (match snd <$> Some (i, c) with
       | Some _ =>
           tryCatch
             match health with
             | ResponseOk =>
                 storage.updateChannel cid (healthStatusObject "healthy");;
                 mret "healthy"
             | ResponseNotOk =>
                 storage.updateChannel cid (healthStatusObject "error");;
                 mret "error"
             | FetchThrew => throw FetchError
             end
             (λ _, storage.updateChannel cid (healthStatusObject "error");;
                   mret "error")
       | None => throw (AppError 404 "Channel not found")
       end) s
      = (set_channels
           (updatedRows cid (setHealthStatus (reportedStatus health))
              (channels s)) s,
         Done (reportedStatus health))).
    { cbn [fmap option_fmap option_map].
      destruct health; unfold tryCatch, throw, mbind, Handler_bind;
        by rewrite ?storage_updateChannel_healthStatus. }
    unfold mbind at 1. unfold Handler_bind at 1. cbn beta iota. rewrite E.
    rewrite checkChannelHealth_body.
    eexists. split; [done|]. simpl. split; [done|].
    unfold updatedRows. split; [|split; [|split]].
    + intros y (o & -> & Ho)%list_elem_of_fmap. case_decide; simpl; [done|].
      congruence.
    + intros y Hy Hne. apply list_elem_of_fmap. exists y.
      by rewrite decide_False.
    + rewrite <- list_fmap_compose. apply list_fmap_ext. intros k y _. simpl.
      by case_decide.
    + rewrite <- list_fmap_compose. apply list_fmap_ext. intros k y _. simpl.
      by case_decide.
Qed.

Lemma checkChannelHealth_reports_what_it_stores_witness :
  checkChannelHealth "c9" ResponseOk channelStore
  = (channelStore, Throw (AppError 404 "Channel not found"))
  ∧ ∃ s', checkChannelHealth "c1" FetchThrew channelStore = (s', Done "error")
      ∧ Channel.isActive <$> channels s' = [Some true; Some false].
Proof.
  split.
  - apply (proj1 (checkChannelHealth_reports_what_it_stores "c9" ResponseOk
                    channelStore)).
    simpl. intros Hin. apply list_elem_of_In in Hin. simpl in Hin.
    intuition discriminate.
  - destruct (proj2 (checkChannelHealth_reports_what_it_stores "c1" FetchThrew
                       channelStore))
      as (s' & Heq & _ & _ & _ & Hact & _).
    + simpl. by left.
    + exists s'. split; [exact Heq|exact Hact].
Defined.

(** ** Searching contacts *)

Lemma prefix_occurs (sub s : string) :
  String.prefix sub s = true ↔ ∃ post : string, s = (sub +:+ post)%string.
Proof.
  revert s. induction sub as [|a sub IH]; intros s.
  - split; [by exists s|by destruct s].
  - destruct s as [|b s]; simpl.
    + split; [done|]. by intros [post [=]].
    + destruct (Ascii.ascii_dec a b) as [->|Hne].
      * rewrite IH. split.
        -- intros [post ->]. by exists post.
        -- intros [post [= ->]]. by exists post.
      * split; [done|]. intros [post [= ? _]]. by destruct Hne.
Qed.

Lemma includes_occursIn (s sub : string) :
  includes s sub = true ↔ occursIn sub s.
Proof.
  unfold occursIn. induction s as [|a rest IH].
  - cbn [includes]. rewrite orb_false_r, prefix_occurs. split.
    + intros [post ->]. by exists "", post.
    + intros ([|? ?] & post & Heq); [by exists post|done].
  - cbn [includes]. rewrite orb_true_iff, prefix_occurs, IH. split.
    + intros [[post ->]|(pre & post & ->)].
      * by exists "", post.
      * by exists (String a pre), post.
    + intros ([|a' pre] & post & Heq).
      * left. by exists post.
      * right. injection Heq as -> ->. by exists pre, post.
Qed.

Lemma matchesSearch_occursIn (toLowerCase : string → string) (term : string)
    (c : Contact.t) :
  matchesSearch toLowerCase term c = true
  ↔ occursIn (toLowerCase term) (toLowerCase (Contact.name c))
    ∨ occursIn term (Contact.phone c)
    ∨ ∃ email, Contact.email c = Some email
        ∧ occursIn (toLowerCase term) (toLowerCase email).
Proof.
  unfold matchesSearch. rewrite !orb_true_iff, !includes_occursIn.
  destruct (Contact.email c) as [email|].
  - rewrite includes_occursIn. split.
    + intros [[?|?]|?]; eauto.
    + intros [?|[?|(? & [= <-] & ?)]]; eauto.
  - split.
    + intros [[?|?]|?]; eauto. done.
    + intros [?|[?|(? & [=] & ?)]]; eauto.
Qed.

Lemma getContacts_base (channelId : option string) (s : Store) :
  match channelId with
  | Some cid =>
      if truthyString channelId then storage.getContactsByChannel cid
      else storage.getContacts
  | None => storage.getContacts
  end s = (s, Done (contactsOf channelId s)).
Proof.
  unfold contactsOf. destruct channelId as [cid|]; [|done].
  by destruct (truthyString (Some cid)).
Qed.

(** X21. [getContacts] never throws and writes nothing.  It answers with
    stored contacts of the requested channel (of all channels when none is
    requested): all of them when there is no search term or an empty one,
    and otherwise exactly those in whose lower-cased name or email the
    lower-cased term occurs, or in whose phone the term itself occurs. *)
Theorem getContacts_search (toLowerCase : string → string)
    (search channelId : option string) (s : Store) :
  ∃ result,
    getContacts toLowerCase search channelId s = (s, Done result)
    ∧ (∀ c, c ∈ result → c ∈ contactsOf channelId s)
    ∧ (truthyString search = false → result = contactsOf channelId s)
    ∧ (∀ term, search = Some term → term ≠ "" →
         ∀ c, c ∈ result ↔
           c ∈ contactsOf channelId s
           ∧ (occursIn (toLowerCase term) (toLowerCase (Contact.name c))
              ∨ occursIn term (Contact.phone c)
              ∨ ∃ email, Contact.email c = Some email
                  ∧ occursIn (toLowerCase term) (toLowerCase email))).
Proof.
  unfold getContacts, mbind, Handler_bind. rewrite getContacts_base.
  destruct search as [term|]; [destruct (truthyString (Some term)) eqn:Ht|].
  - eexists. split; [done|]. split; [|split; [done|]].
    + by intros c [_ Hc]%list_elem_of_filter.
    + intros term' [= <-] _ c. rewrite list_elem_of_filter.
      rewrite <- matchesSearch_occursIn. rewrite Is_true_true. tauto.
  - eexists. split; [done|]. split; [done|]. split; [done|].
    intros term' [= <-] Hne. simpl in Ht. by rewrite bool_decide_true in Ht.
  - eexists. split; [done|]. split; [done|]. split; [done|]. done.
Qed.

Lemma getContacts_search_witness :
  ∃ result,
    getContacts (λ x, x) (Some "+10") None twoContactsStore
    = (twoContactsStore, Done result)
    ∧ contactK0 ∈ result.
Proof.
  destruct (getContacts_search (λ x, x) (Some "+10") None twoContactsStore)
    as (result & Heq & _ & _ & Hterm).
  exists result. split; [exact Heq|].
  apply (Hterm "+10" eq_refl ltac:(discriminate)).
  split; [by left|]. right. left. by exists "", "0".
Defined.

(** ** Permissions *)

(** X22. The default permissions of the roles are nested: the keys of the
    object are [admin], [manager] and [agent]; each role's list has no repetition and
    holds only declared permissions; every role holds what an agent holds;
    every role but [admin] holds only what a manager holds, and in
    particular no permission to delete and none over the team's
    permissions. *)
Theorem default_permissions_nested (role : string) (ps : list string) :
  DEFAULT_PERMISSIONS role = Some ps →
  role ∈ ["admin"; "manager"; "agent"]
  ∧ NoDup ps
  ∧ (∀ p, p ∈ ps → p ∈ permissionValues)
  ∧ (∀ p, p ∈ default [] (DEFAULT_PERMISSIONS "agent") → p ∈ ps)
  ∧ (role ≠ "admin" →
     ∀ p, p ∈ ps →
       p ∈ default [] (DEFAULT_PERMISSIONS "manager")
       ∧ includes p ":delete" = false
       ∧ p ≠ permission "TEAM_PERMISSIONS").
Proof.
  unfold DEFAULT_PERMISSIONS at 1.
  destruct (decide (role = "admin")) as [->|Hadmin];
    [|destruct (decide (role = "manager")) as [->|Hmanager];
      [|destruct (decide (role = "agent")) as [->|Hagent]]];
    intros [= <-].
  - split; [by left|]. split; [compute_done|].
    split; [done|]. split; [apply Forall_forall; compute_done|done].
  - split; [right; by left|]. split; [compute_done|].
    split; [apply Forall_forall; compute_done|].
    split; [apply Forall_forall; compute_done|].
    intros _. apply Forall_forall. compute_done.
  - split; [right; right; by left|]. split; [compute_done|].
    split; [apply Forall_forall; compute_done|]. split; [done|].
    intros _. apply Forall_forall. compute_done.
Qed.

Lemma default_permissions_nested_witness :
  NoDup (permission <$>
           [ "DASHBOARD_VIEW"; "CONTACTS_VIEW"; "CAMPAIGNS_VIEW";
             "TEMPLATES_VIEW"; "INBOX_VIEW"; "INBOX_SEND_MESSAGE";
             "ANALYTICS_VIEW" ]).
Proof.
  exact (proj1 (proj2 (default_permissions_nested "agent" _ eq_refl))).
Defined.

(** ** Importing the same contacts again *)

(** A turn never shrinks the set of phones or the array of errors, and an
    element it did not file as failed is an object whose phone is in the
    set afterwards. *)
Lemma importOne_not_failed (channelId : option string) (st st' : ImportState)
    (contact : ImportItem) (newId : string) (s s' : Store) :
  importOne channelId st contact newId s = (s', Done st') →
  existingPhones st ⊆ existingPhones st'
  ∧ (length (errors st) ≤ length (errors st'))%nat
  ∧ (length (errors st') = length (errors st) →
     ∃ b p, contact = ItemObject b ∧ ctb_phone b = JsString p
       ∧ p ∈ existingPhones st').
Proof.
  intros [(b & v & -> & _ & Hparse & _ & ->)
         |(_ & Hph & _ & [(b & -> & Hhas & ->)|(msg & _ & Herr & _)])]
         %importOne_cases.
  - apply parseContact_spread in Hparse as [_ Hphone]. simpl.
    split; [apply union_subseteq_r|]. split; [done|]. intros _.
    exists b, (ict_phone v). split; [done|]. split; [done|].
    apply elem_of_union_l. by apply elem_of_singleton.
  - simpl. split; [done|]. split; [done|]. intros _.
    unfold hasPhone in Hhas. destruct (ctb_phone b) as [| | | |p] eqn:Hphone; try done.
    exists b, p. split; [done|]. split; [done|].
    by apply bool_decide_eq_true_1 in Hhas.
  - rewrite Hph, Herr, length_app. simpl. split; [done|].
    split; [lia|]. lia.
Qed.

Lemma importLoop_not_failed (channelId : option string)
    (items : list (ImportItem * string)) :
  ∀ st s s' st',
    importLoop channelId st items s = (s', Done st') →
    existingPhones st ⊆ existingPhones st'
    ∧ (length (errors st) ≤ length (errors st'))%nat
    ∧ (length (errors st') = length (errors st) →
       ∀ contact, contact ∈ fst <$> items →
         ∃ b p, contact = ItemObject b ∧ ctb_phone b = JsString p
           ∧ p ∈ existingPhones st').
Proof.
  induction items as [|[contact newId] rest IH]; intros st s s' st' Hloop.
  - injection Hloop as <- <-. split; [done|]. split; [done|].
    intros _ contact Hc. by apply not_elem_of_nil in Hc.
  - simpl in Hloop. unfold mbind, Handler_bind in Hloop.
    destruct (importOne channelId st contact newId s) as [s1 [st1|e]] eqn:H1;
      [|done].
    apply importOne_not_failed in H1 as (Hsub1 & Hle1 & Hok1).
    apply IH in Hloop as (Hsub & Hle & Hok).
    split; [by etrans|]. split; [lia|].
    intros Hsame c [->|Hc]%elem_of_cons.
    + destruct Hok1 as (b & p & -> & Hphone & Hp); [lia|].
      exists b, p. split; [done|]. split; [done|]. by apply Hsub.
    + apply Hok; [lia|done].
Qed.

(** When every element is an object whose phone is in the set, the loop
    files every element as a duplicate and writes nothing. *)
Lemma importLoop_all_duplicates (channelId : option string)
    (items : list (ImportItem * string)) :
  ∀ st s,
    (∀ contact, contact ∈ fst <$> items →
       ∃ b p, contact = ItemObject b ∧ ctb_phone b = JsString p
         ∧ p ∈ existingPhones st) →
    ∃ st', importLoop channelId st items s = (s, Done st')
      ∧ createdContacts st' = createdContacts st
      ∧ errors st' = errors st
      ∧ length (duplicates st') = length (duplicates st) + length items.
Proof.
  induction items as [|[contact newId] rest IH]; intros st s Hall.
  - exists st. split; [done|]. split; [done|]. split; [done|]. simpl. lia.
  - destruct (Hall contact) as (b & p & -> & Hphone & Hp); [by left|].
    destruct (IH (asDuplicate (ItemObject b) st) s)
      as (st' & Hloop & Hcreated & Herrors & Hdups).
    { intros c Hc. apply Hall. by right. }
    exists st'. split.
    { simpl. unfold mbind, Handler_bind. rewrite importOne_duplicate; [done|].
      rewrite Hphone. simpl. by apply bool_decide_eq_true_2. }
    split; [done|]. split; [done|].
    rewrite Hdups. simpl. rewrite length_app. simpl. lia.
Qed.

(** The contacts the duplicate check resolves to, after contacts of the
    resolved channel were appended. *)
Lemma resolvedContacts_appended (requested : option string) (s : Store)
    (added : list Contact.t) :
  (∀ c, c ∈ added → Contact.channelId c = resolvedChannelId requested s) →
  resolvedContacts requested (set_contacts (contacts s ++ added) s)
  = resolvedContacts requested s ++ added.
Proof.
  intros Hall. unfold resolvedContacts. change (resolvedChannelId requested (set_contacts (contacts s ++ added) s)) with (resolvedChannelId requested s).
  destruct (truthyString (resolvedChannelId requested s)); [|done].
  cbn [contacts set_contacts]. rewrite filter_app. f_equal.
  clear -Hall. induction added as [|c added IH]; [done|].
  rewrite filter_cons, decide_True by (apply Hall; by left).
  f_equal. apply IH. intros c' Hc'. apply Hall. by right.
Qed.

(** X23. Importing is idempotent: after an import that filed no element as
    failed, importing the same elements again (whatever ids are drawn)
    creates nothing, files every element as a duplicate, and leaves the
    store as it is. *)
Theorem importContacts_again_only_duplicates
    (items items' : list (ImportItem * string))
    (bodyChannelId queryChannelId : option string) (s s1 : Store)
    (r : ImportReport) :
  importContacts (Some items) bodyChannelId queryChannelId s = (s1, Done r) →
  r_failed r = 0 →
  fst <$> items' = fst <$> items →
  ∃ r', importContacts (Some items') bodyChannelId queryChannelId s1
        = (s1, Done r')
    ∧ r_created r' = 0
    ∧ r_duplicates r' = length items
    ∧ r_failed r' = 0.
Proof.
  set (requested := orElse bodyChannelId queryChannelId).
  rewrite !importContacts_eq. fold requested.
  destruct (importLoop _ _ items s) as [s0 [st1|e]] eqn:Hloop; [|done].
  intros [= -> <-]. simpl. intros Hfailed Hitems.
  destruct (importLoop_store _ _ _ _ _ _ Hloop)
    as (added & Hs1 & Hcreated & _ & Hadded).
  destruct (importLoop_not_failed _ _ _ _ _ _ Hloop) as (_ & _ & Hok).
  destruct (importLoop_total (resolvedChannelId requested s) items
              (importStart (resolvedContacts requested s)) s)
    as (s2 & st2 & Hloop2 & _ & Hinv).
  rewrite Hloop in Hloop2. injection Hloop2 as <- <-.
  assert (∀ p, p ∈ existingPhones st1 →
               p ∈ Contact.phone <$> resolvedContacts requested s1) as Hphones.
  { intros p Hp.
    apply (Hinv (Contact.phone <$> resolvedContacts requested s)) in Hp.
    - rewrite Hs1, resolvedContacts_appended, fmap_app, elem_of_app.
      + by rewrite Hcreated in Hp.
      + intros c Hc. by apply Hadded.
    - intros p'. rewrite resolvedContacts_phones. simpl.
      split; [by left|]. intros [?|Hnil]; [done|].
      by apply not_elem_of_nil in Hnil. }
  destruct (importLoop_all_duplicates (resolvedChannelId requested s1) items'
              (importStart (resolvedContacts requested s1)) s1)
    as (st' & -> & Hcreated' & Herrors' & Hdups').
  { intros contact Hc. rewrite Hitems in Hc.
    destruct (Hok ltac:(by rewrite Hfailed) contact Hc)
      as (b & p & -> & Hphone & Hp).
    exists b, p. split; [done|]. split; [done|].
    apply resolvedContacts_phones. by apply Hphones. }
  eexists. split; [done|]. simpl.
  rewrite Hcreated', Herrors', Hdups'. simpl.
  split; [done|]. split; [|done].
  by rewrite <- (length_fmap fst items'), Hitems, length_fmap.
Qed.

Lemma importContacts_again_only_duplicates_witness :
  ∃ r', importContacts
          (Some [(ItemObject annBody, "k7"); (ItemObject annBody, "k8")])
          None None
          (set_contacts (contacts channelStore ++ [contactK1]) channelStore)
        = (set_contacts (contacts channelStore ++ [contactK1]) channelStore,
           Done r')
    ∧ r_created r' = 0
    ∧ r_duplicates r' = 2
    ∧ r_failed r' = 0.
Proof.
  apply (importContacts_again_only_duplicates
           [(ItemObject annBody, "k1"); (ItemObject annBody, "k2")]
           [(ItemObject annBody, "k7"); (ItemObject annBody, "k8")]
           None None channelStore
           (set_contacts (contacts channelStore ++ [contactK1]) channelStore)
           (mkImportReport 1 1 0 2
              (mkImportDetails 1
                 [(ItemObject annBody, "Phone number already exists")] []))).
  - by vm_compute.
  - reflexivity.
  - reflexivity.
Defined.

(** ** One contact, created or imported *)

Lemma parseContact_withChannelId (b : ContactBody) (v : InsertContact)
    (channelId : option string) :
  parseContact b = Some v →
  parseContact (spreadWithChannelId b channelId)
  = Some (withChannelId channelId v)
  ∧ ctb_phone b = JsString (ict_phone v).
Proof.
  unfold parseContact, spreadWithChannelId, withChannelId. simpl. intros H.
  destruct (zNullish zString (ctb_channelId b)); simpl in H; try done.
  destruct (zString (ctb_name b)); simpl in H; try done.
  destruct (ctb_phone b); simpl in H; try done.
  destruct (zNullish zString (ctb_email b)); simpl in H; try done.
  destruct (zNullish zString (ctb_status b)); simpl in H; try done.
  injection H as <-. by destruct channelId.
Qed.

(** X24. The two ways of adding one contact agree.  For a body the insert
    schema accepts, importing it alone writes what [createContact] writes
    for the same request and id, and reports it as created where
    [createContact] answers with the contact, as a duplicate where it
    answers 409, and as failed where the insert is rejected. *)
Theorem import_of_one_agrees_with_createContact (body : ContactBody)
    (v : InsertContact) (queryChannelId : option string) (newId : string)
    (s : Store) :
  parseContact body = Some v →
  ∃ r, importContacts (Some [(ItemObject body, newId)]) None queryChannelId s
       = (fst (createContact body queryChannelId newId s), Done r)
    ∧ r_total r = 1
    ∧ match snd (createContact body queryChannelId newId s) with
      | Done _ => r_created r = 1 ∧ r_duplicates r = 0 ∧ r_failed r = 0
      | Throw (AppError _ _) =>
          r_created r = 0 ∧ r_duplicates r = 1 ∧ r_failed r = 0
      | Throw _ => r_created r = 0 ∧ r_duplicates r = 0 ∧ r_failed r = 1
      end.
Proof.
  intros Hparse. rewrite (createContact_eq _ _ _ _ _ Hparse), importContacts_eq.
  change (orElse None queryChannelId) with queryChannelId.
  destruct (parseContact_withChannelId body v
              (resolvedChannelId queryChannelId s) Hparse) as [Hspread Hphone].
  cbn [importLoop]. unfold mbind at 1. unfold Handler_bind at 1.
  destruct (decide (ict_phone v
                    ∈ Contact.phone <$> resolvedContacts queryChannelId s))
    as [Hdup|Hnew].
  - rewrite importOne_duplicate.
    2:{ rewrite Hphone. simpl. apply bool_decide_eq_true_2.
        by apply elem_of_list_to_set. }
    eexists. split; [done|]. by simpl.
  - unfold importOne, tryCatch. rewrite Hphone.
    assert (hasPhone
              (existingPhones (importStart (resolvedContacts queryChannelId s)))
              (JsString (ict_phone v)) = false) as ->.
    { simpl. apply bool_decide_eq_false_2. by rewrite elem_of_list_to_set. }
    unfold mbind at 1. unfold Handler_bind at 1. unfold parse.
    rewrite Hspread. unfold mret at 1, Handler_ret at 1.
    unfold mbind at 1. unfold Handler_bind at 1.
    rewrite storage_createContact_eq.
    destruct (insertContactRow _ s) as [s1|e]; eexists; (split; [done|]);
      by simpl.
Qed.

Lemma import_of_one_agrees_with_createContact_witness :
  ∃ r, importContacts (Some [(ItemObject annBody, "k1")]) None None channelStore
       = (fst (createContact annBody None "k1" channelStore), Done r)
    ∧ r_total r = 1.
Proof.
  destruct (import_of_one_agrees_with_createContact annBody
              (mkInsertContact None "Ann" "+1" None None) None "k1"
              channelStore eq_refl) as (r & Heq & Htotal & _).
  exists r. split; [exact Heq|exact Htotal].
Defined.
